(** * Round lifecycle and settlement of the colour/number betting game

    A shallow embedding of the game routes of the server
    ([server/routes/games.js] and its later revision, which adds the
    background monitor, the [/fix] route and the guard of the [/:id/end]
    route), followed by the properties of settlement, result generation,
    round creation and bet placement.

    Conventions of the embedding:
    - JavaScript numbers that the routes compute with (amounts, balances,
      game numbers, result numbers, timestamps in milliseconds) are integers
      of [Z]; [%] is the truncating remainder [Z.rem];
    - the value returned by [Math.random()] is a rational of [Q], handed to
      the function that would draw it;
    - [new Date()] is the argument [now] of the handler that reads the clock;
    - a MongoDB collection is a finite map from [_id] to the fields of the
      document, a document in the hands of the program (a Mongoose object)
      is the pair of its [_id] and its fields, and [doc.save()] writes the
      pair back under its [_id];
    - the module-level variables of the routes file and the console are
      fields of the state that every handler threads;
    - a handler runs from its first line to its response without another
      handler in between, and no call to the database throws, save for the
      duplicate key of a game number, which [createNewGameSafely] catches;
      the authentication middleware has let the request through. *)

From Stdlib Require Import ZArith Zquot QArith Qround Ascii String.
From stdpp Require Import gmap strings list fin_maps pretty.

Local Open Scope Z_scope.

(** ** Revisions of the routes file *)

(** The repository holds the routes file twice.  [games_js] is
    [server/routes/games.js]; [monitored_js] is the revision with
    [startGameMonitoring].  Where a function is the same text in both, the
    revision is no argument of its model. *)
Inductive Revision := games_js | monitored_js.

(** ** Documents *)

Abbreviation ObjectId := positive.

Inductive GameStatus := waiting | betting | completed.
Inductive BetResult := pending | win | loss.
Inductive TransactionType := tx_bet | tx_win.

#[global] Instance GameStatus_eq_dec : EqDecision GameStatus.
Proof. solve_decision. Defined.
#[global] Instance BetResult_eq_dec : EqDecision BetResult.
Proof. solve_decision. Defined.

(** Modelled from the spec: the Game schema ([models/Game]) is not among the
    sources.  The fields are those the routes read and write; a new game has
    no override ([fixedResult] is [null], which the routes test with
    [!== null]), no outcome and no [endTime], and [createdAt] is the time of
    its creation (the routes sort on it). *)
Record Game := mkGame {
  gameNumber : Z;
  status : GameStatus;
  startTime : Z;
  endTime : option Z;
  isFixed : bool;
  fixedResult : option Z;
  resultNumber : option Z;
  resultColor : option string;
  resultSize : option string;
  createdAt : Z
}.

(** Modelled from the spec: the Bet schema ([models/Bet]) is not among the
    sources.  A new wager is [pending] with [payout] zero ("zero until
    settled"); [betType] and [betValue] are strings, as the client declares
    them. *)
Record Bet := mkBet {
  userId : ObjectId;
  gameId : ObjectId;
  betType : string;
  betValue : string;
  amount : Z;
  result : BetResult;
  payout : Z
}.

(** The routes write every transaction with the status ['approved']; the
    field is left out. *)
Record Transaction := mkTransaction {
  tx_userId : ObjectId;
  tx_type : TransactionType;
  tx_amount : Z;
  tx_description : string
}.

#[global] Instance Game_eq_dec : EqDecision Game.
Proof. solve_decision. Defined.
#[global] Instance Bet_eq_dec : EqDecision Bet.
Proof. solve_decision. Defined.

(** A document held by the program: its [_id] and its fields. *)
Definition _id {A} (d : ObjectId * A) : ObjectId := d.1.

(** ** The state of the server *)

(** The Wallet collection is keyed by [userId]: the routes only ever reach a
    wallet through [Wallet.findOne({ userId })], and the one route that
    creates a wallet does so only for a user who has none.  The value is the
    wallet's [balance].  [gameCreationTimeout] and [gameCheckInterval] tell
    whether the variable holds a timer handle; the firing of a timer is a
    request of its own.  [gameDuration] is the field of the AdminSettings
    document, in seconds, [None] when the document or the field is missing;
    the game routes only read it. *)
Record State := mkState {
  games : gmap ObjectId Game;
  bets : gmap ObjectId Bet;
  wallets : gmap ObjectId Z;
  transactions : list Transaction;
  gameCreationInProgress : bool;
  continuousGamesEnabled : bool;
  gameCreationTimeout : bool;
  gameCheckInterval : bool;
  console : list string;
  gameDuration : option Z
}.

Definition set_games (f : gmap ObjectId Game → gmap ObjectId Game) (s : State) : State :=
  mkState (f (games s)) (bets s) (wallets s) (transactions s)
    (gameCreationInProgress s) (continuousGamesEnabled s)
    (gameCreationTimeout s) (gameCheckInterval s) (console s) (gameDuration s).

Definition set_bets (f : gmap ObjectId Bet → gmap ObjectId Bet) (s : State) : State :=
  mkState (games s) (f (bets s)) (wallets s) (transactions s)
    (gameCreationInProgress s) (continuousGamesEnabled s)
    (gameCreationTimeout s) (gameCheckInterval s) (console s) (gameDuration s).

Definition set_wallets (f : gmap ObjectId Z → gmap ObjectId Z) (s : State) : State :=
  mkState (games s) (bets s) (f (wallets s)) (transactions s)
    (gameCreationInProgress s) (continuousGamesEnabled s)
    (gameCreationTimeout s) (gameCheckInterval s) (console s) (gameDuration s).

Definition add_transaction (t : Transaction) (s : State) : State :=
  mkState (games s) (bets s) (wallets s) (transactions s ++ [t])
    (gameCreationInProgress s) (continuousGamesEnabled s)
    (gameCreationTimeout s) (gameCheckInterval s) (console s) (gameDuration s).

Definition set_gameCreationInProgress (b : bool) (s : State) : State :=
  mkState (games s) (bets s) (wallets s) (transactions s)
    b (continuousGamesEnabled s)
    (gameCreationTimeout s) (gameCheckInterval s) (console s) (gameDuration s).

Definition set_continuousGamesEnabled (b : bool) (s : State) : State :=
  mkState (games s) (bets s) (wallets s) (transactions s)
    (gameCreationInProgress s) b
    (gameCreationTimeout s) (gameCheckInterval s) (console s) (gameDuration s).

Definition set_timers (timeout interval : bool) (s : State) : State :=
  mkState (games s) (bets s) (wallets s) (transactions s)
    (gameCreationInProgress s) (continuousGamesEnabled s)
    timeout interval (console s) (gameDuration s).

Definition console_log (line : string) (s : State) : State :=
  mkState (games s) (bets s) (wallets s) (transactions s)
    (gameCreationInProgress s) (continuousGamesEnabled s)
    (gameCreationTimeout s) (gameCheckInterval s) (console s ++ [line])
    (gameDuration s).

(** ** JavaScript built-ins used by the routes *)

Module JS.

(** White space that [parseInt] skips, among the characters of a byte
    string: tab, line feed, vertical tab, form feed, carriage return and
    space. *)
Definition is_white_space (a : ascii) : bool :=
  let n := Z.of_nat (nat_of_ascii a) in
  (n =? 32) || ((9 <=? n) && (n <=? 13)).

Fixpoint skip_white_space (s : string) : string :=
  match s with
  | String a s' => if is_white_space a then skip_white_space s' else s
  | EmptyString => s
  end.

(** The value of a character as a digit of the given radix. *)
Definition digit_value (radix : Z) (a : ascii) : option Z :=
  let n := Z.of_nat (nat_of_ascii a) in
  let v := if (48 <=? n) && (n <=? 57) then Some (n - 48)
           else if (97 <=? n) && (n <=? 122) then Some (n - 87)
           else if (65 <=? n) && (n <=? 90) then Some (n - 55)
           else None in
  match v with
  | Some d => if d <? radix then Some d else None
  | None => None
  end.

(** The longest prefix of digits, read in the radix; [None] when the
    prefix is empty. *)
Fixpoint parse_digits (radix : Z) (acc : option Z) (s : string) : option Z :=
  match s with
  | String a s' =>
      match digit_value radix a with
      | Some d => parse_digits radix (Some (default 0 acc * radix + d)) s'
      | None => acc
      end
  | EmptyString => acc
  end.

(** [parseInt(s)] with no radix argument; [None] is [NaN]. *)
Definition parseInt (s : string) : option Z :=
  let s1 := skip_white_space s in
  let '(sign, s2) :=
    match s1 with
    | String "-"%char r => (-1, r)
    | String "+"%char r => (1, r)
    | _ => (1, s1)
    end in
  let '(radix, s3) :=
    match s2 with
    | String "0"%char (String "x"%char r) => (16, r)
    | String "0"%char (String "X"%char r) => (16, r)
    | _ => (10, s2)
    end in
  Z.mul sign <$> parse_digits radix None s3.

(** [n === m] where [n] may be [NaN]: [NaN] is equal to nothing. *)
Definition strict_eq_number (n : option Z) (m : Z) : bool :=
  match n with
  | Some v => v =? m
  | None => false
  end.

(** [Math.floor(x)] *)
Definition Math_floor (x : Q) : Z := Qfloor x.

(** A number inside a template literal. *)
Definition show (n : Z) : string := pretty n.

End JS.

(** ** Queries on the collections *)

(** [{ status: { $in: ['waiting', 'betting'] } }] *)
Definition active (g : Game) : Prop := status g = waiting ∨ status g = betting.

#[global] Instance active_dec g : Decision (active g).
Proof. unfold active. apply _. Defined.

(** [.sort({ key: -1 })] followed by taking the first document: a document
    whose key is greatest.  Among documents of equal key MongoDB may return
    any; the model keeps the one met last in the order of the collection. *)
Definition greatest {A} (key : A → Z) (l : list A) : option A :=
  foldr (λ x acc,
          match acc with
          | Some y => if key y <? key x then Some x else Some y
          | None => Some x
          end) None l.

(** [Game.find({ status: { $in: ['waiting', 'betting'] } })] *)
Definition find_active_games (m : gmap ObjectId Game) : list (ObjectId * Game) :=
  filter (λ d, active d.2) (map_to_list m).

(** [Game.findOne({ status: { $in: [...] } }).sort({ createdAt: -1 })] *)
Definition findOne_active_game (m : gmap ObjectId Game) : option (ObjectId * Game) :=
  greatest (λ d, createdAt d.2) (find_active_games m).

(** [Game.findOne().sort({ gameNumber: -1 })] *)
Definition findOne_last_game (m : gmap ObjectId Game) : option (ObjectId * Game) :=
  greatest (λ d, gameNumber d.2) (map_to_list m).

(** [Bet.find({ gameId: game._id, result: 'pending' })] *)
Definition find_pending_bets (gid : ObjectId) (m : gmap ObjectId Bet) : list (ObjectId * Bet) :=
  filter (λ d, gameId d.2 = gid ∧ result d.2 = pending) (map_to_list m).

(** [Bet.findOne({ userId, gameId })] *)
Definition findOne_bet (uid gid : ObjectId) (m : gmap ObjectId Bet) : option (ObjectId * Bet) :=
  head (filter (λ d, userId d.2 = uid ∧ gameId d.2 = gid) (map_to_list m)).

(** [doc.save()] of a document that is in the collection or new to it. *)
Definition save {A} (d : ObjectId * A) (m : gmap ObjectId A) : gmap ObjectId A :=
  <[_id d := d.2]> m.

(** ** Result generation and settlement: [endGameAndProcessBets] *)

(** [game.fixedResult !== null ? game.fixedResult : Math.floor(Math.random() * 10)] *)
Definition compute_resultNumber (fixed : option Z) (random : Q) : Z :=
  match fixed with
  | Some v => v
  | None => JS.Math_floor (random * 10)
  end.

(** [resultNumber === 0 ? 'green' : (resultNumber % 2 === 0 ? 'red' : 'green')] *)
Definition compute_resultColor (n : Z) : string :=
  if n =? 0 then "green" else if Z.rem n 2 =? 0 then "red" else "green".

(** [resultNumber >= 5 ? 'big' : 'small'] *)
Definition compute_resultSize (n : Z) : string :=
  if 5 <=? n then "big" else "small".

(** The assignments to [game] before [game.save()]. *)
Definition ended_game (now : Z) (random : Q) (g : Game) : Game :=
  let n := compute_resultNumber (fixedResult g) random in
  mkGame (gameNumber g) completed (startTime g) (Some now) (isFixed g)
    (fixedResult g) (Some n) (Some (compute_resultColor n))
    (Some (compute_resultSize n)) (createdAt g).

(** The [switch (bet.betType)]: [isWin] and [multiplier].  A type that no
    [case] names leaves the initial values [false] and [1]. *)
Definition judge (b : Bet) (n : Z) (color size : string) : bool * Z :=
  if String.eqb (betType b) "number" then
    (JS.strict_eq_number (JS.parseInt (betValue b)) n, 9)
  else if String.eqb (betType b) "color" then
    (String.eqb (betValue b) color, 2)
  else if String.eqb (betType b) "size" then
    (String.eqb (betValue b) size, 2)
  else (false, 1).

(** [bet.result = isWin ? 'win' : 'loss'; bet.payout = isWin ? bet.amount *
    multiplier : 0] *)
Definition settled_bet (b : Bet) (isWin : bool) (multiplier : Z) : Bet :=
  mkBet (userId b) (gameId b) (betType b) (betValue b) (amount b)
    (if isWin then win else loss)
    (if isWin then amount b * multiplier else 0).

(** The description of the win transaction; the monitored revision adds the
    game number. *)
Definition win_description (rev : Revision) (num : Z) (b : Bet) : string :=
  let base := "Won $" +:+ JS.show (payout b) +:+ " from " +:+ betType b
              +:+ " bet on " +:+ betValue b in
  match rev with
  | games_js => base
  | monitored_js => base +:+ " (Game #" +:+ JS.show num +:+ ")"
  end.

(** The wallet update of a winning bet: [if (wallet) { wallet.balance +=
    bet.payout; await wallet.save(); }]. *)
Definition credit (uid : ObjectId) (p : Z) (w : gmap ObjectId Z) : gmap ObjectId Z :=
  match w !! uid with
  | Some balance => <[uid := balance + p]> w
  | None => w
  end.

(** The body of [for (const bet of bets)]. *)
Definition process_bet (rev : Revision) (num n : Z) (color size : string)
    (s : State) (d : ObjectId * Bet) : State :=
  let '(isWin, multiplier) := judge d.2 n color size in
  let bet := settled_bet d.2 isWin multiplier in
  let s1 := set_bets (save (_id d, bet)) s in
  if isWin then
    let s2 := set_wallets (credit (userId bet) (payout bet)) s1 in
    add_transaction
      (mkTransaction (userId bet) tx_win (payout bet) (win_description rev num bet)) s2
  else s1.

Definition endGameAndProcessBets (rev : Revision) (now : Z) (random : Q)
    (game : ObjectId * Game) (s : State) : State :=
  let g := ended_game now random game.2 in
  let n := compute_resultNumber (fixedResult game.2) random in
  let color := compute_resultColor n in
  let size := compute_resultSize n in
  let s1 := set_games (save (_id game, g)) s in
  let s2 := console_log
              ("Game #" +:+ JS.show (gameNumber g) +:+ " ended with result: "
               +:+ JS.show n +:+ " (" +:+ color +:+ ", " +:+ size +:+ ")") s1 in
  let found := find_pending_bets (_id game) (bets s2) in
  let s3 := foldl (process_bet rev (gameNumber g) n color size) s2 found in
  console_log
    ("Processed " +:+ JS.show (Z.of_nat (length found)) +:+ " bets for game #"
     +:+ JS.show (gameNumber g)) s3.

(** ** Round creation: [createNewGameSafely] *)

Definition maxAttempts (rev : Revision) : Z :=
  match rev with
  | games_js => 3
  | monitored_js => 5
  end.

(** [new Game({ gameNumber, status: 'waiting', startTime: new Date(Date.now()
    + 5000) })], under an [_id] that no document of the collection has. *)
Definition new_Game (m : gmap ObjectId Game) (num now : Z) : ObjectId * Game :=
  (fresh (dom m),
   mkGame num waiting (now + 5000) None false None None None None now).

(** [game.save()] of a new game fails with code 11000 when the unique index
    on [gameNumber] already holds the number. *)
Definition duplicate_key (num : Z) (m : gmap ObjectId Game) : Prop :=
  Exists (λ d : ObjectId * Game, gameNumber d.2 = num) (map_to_list m).

#[global] Instance duplicate_key_dec num m : Decision (duplicate_key num m).
Proof. unfold duplicate_key. apply _. Defined.

(** The [while (attempts < maxAttempts)] loop; [fuel] is the number of
    iterations left, [maxAttempts - attempts]. *)
Fixpoint create_attempts (rev : Revision) (fuel : nat)
    (attempts nextGameNumber now : Z) (s : State)
    : option (ObjectId * Game) * State :=
  match fuel with
  | O => (None, s)
  | S fuel' =>
      let game := new_Game (games s) (nextGameNumber + attempts) now in
      if decide (duplicate_key (gameNumber game.2) (games s)) then
        let attempts := attempts + 1 in
        let s1 := console_log
                    ("Duplicate key error, retrying with gameNumber "
                     +:+ JS.show (nextGameNumber + attempts)) s in
        if maxAttempts rev <=? attempts then
          (None,
           console_log
             (match rev with
              | games_js => "Max attempts reached, giving up game creation"
              | monitored_js => "Max attempts reached for game creation"
              end) s1)
        else create_attempts rev fuel' attempts nextGameNumber now s1
      else
        (Some game,
         console_log ("Successfully created game #" +:+ JS.show (gameNumber game.2))
           (set_games (save game) s))
  end.

(** [createNewGameSafely()]: [None] is [null]. *)
Definition createNewGameSafely (rev : Revision) (now : Z) (s : State)
    : option (ObjectId * Game) * State :=
  if gameCreationInProgress s then
    (None, console_log "Game creation already in progress, skipping..." s)
  else
    let s1 := set_gameCreationInProgress true s in
    let '(r, s2) :=
      match findOne_active_game (games s1) with
      | Some existingGame =>
          (Some existingGame, console_log "Game already exists, skipping creation" s1)
      | None =>
          let nextGameNumber :=
            match findOne_last_game (games s1) with
            | Some lastGame => gameNumber lastGame.2 + 1
            | None => 1
            end in
          create_attempts rev (Z.to_nat (maxAttempts rev)) 0 nextGameNumber now s1
      end in
    (r, set_gameCreationInProgress false s2).

(** ** The routes *)

(** What a handler sends: [res.json(body)], or [res.status(code).json({
    error })]. *)
Inductive Response (A : Type) :=
  | json (body : A)
  | error (code : Z) (message : string).
Arguments json {A} body.
Arguments error {A} code message.

(** The description of the bet transaction. *)
Definition bet_description (rev : Revision) (num : Z) (b : Bet) : string :=
  let base := "Bet $" +:+ JS.show (amount b) +:+ " on " +:+ betType b
              +:+ ": " +:+ betValue b in
  match rev with
  | games_js => base
  | monitored_js => base +:+ " (Game #" +:+ JS.show num +:+ ")"
  end.

(** [router.post('/bet')], called by the authenticated user [uid] with the
    request body [{ gameId, betType, betValue, amount }]. *)
Definition post_bet (rev : Revision) (uid gid : ObjectId)
    (type value : string) (amt : Z) (s : State)
    : Response (string * (ObjectId * Bet)) * State :=
  match games s !! gid with
  | Some game =>
      if decide (status game = betting) then
        match findOne_bet uid gid (bets s) with
        | Some existingBet =>
            (error 400 "You have already placed a bet for this game", s)
        | None =>
            match wallets s !! uid with
            | Some balance =>
                if balance <? amt then (error 400 "Insufficient balance", s)
                else
                  let bet := (fresh (dom (bets s)),
                              mkBet uid gid type value amt pending 0) in
                  let s1 := set_bets (save bet) s in
                  let s2 := set_wallets <[uid := balance - amt]> s1 in
                  let s3 := add_transaction
                              (mkTransaction uid tx_bet (- amt)
                                 (bet_description rev (gameNumber game) bet.2)) s2 in
                  (json ("Bet placed successfully", bet), s3)
            | None => (error 400 "Insufficient balance", s)
            end
        end
      else (error 400 "Game is not accepting bets", s)
  | None => (error 400 "Game is not accepting bets", s)
  end.

(** [router.put('/:id/end')].  Only the monitored revision refuses a game
    that is already completed. *)
Definition put_end (rev : Revision) (now : Z) (random : Q) (id : ObjectId)
    (s : State) : Response (string * (ObjectId * Game)) * State :=
  match games s !! id with
  | None => (error 404 "Game not found", s)
  | Some game =>
      match rev, status game with
      | monitored_js, completed => (error 400 "Game is already completed", s)
      | _, _ =>
          (json ("Game ended successfully", (id, ended_game now random game)),
           endGameAndProcessBets rev now random (id, game) s)
      end
  end.

(** [router.put('/:id/fix')], a route of the monitored revision. *)
Definition put_fix (id : ObjectId) (fixed : option Z) (s : State)
    : Response (string * (ObjectId * Game)) * State :=
  match games s !! id with
  | None => (error 404 "Game not found", s)
  | Some game =>
      if decide (status game = completed) then
        (error 400 "Cannot fix result of completed game", s)
      else
        let game' := mkGame (gameNumber game) (status game) (startTime game)
                       (endTime game) true fixed (resultNumber game)
                       (resultColor game) (resultSize game) (createdAt game) in
        (json ("Game result fixed successfully", (id, game')),
         set_games (save (id, game')) s)
  end.

(** [Game.updateMany({ status: { $in: ['waiting', 'betting'] } }, { status:
    'completed', endTime: new Date() })] *)
Definition updateMany_completed (now : Z) (m : gmap ObjectId Game) : gmap ObjectId Game :=
  (λ g, if decide (active g)
        then mkGame (gameNumber g) completed (startTime g) (Some now) (isFixed g)
               (fixedResult g) (resultNumber g) (resultColor g) (resultSize g)
               (createdAt g)
        else g) <$> m.

(** [startGameMonitoring()]: the interval is set again; its callback is
    [monitor_tick] below. *)
Definition startGameMonitoring (s : State) : State :=
  set_timers (gameCreationTimeout s) true s.

(** [router.post('/start-continuous')].  The monitored revision arms the
    monitor; the other one opens the new game for betting at once. *)
Definition post_start_continuous (rev : Revision) (now : Z) (s : State)
    : Response (string * (ObjectId * Game)) * State :=
  let s1 := set_continuousGamesEnabled true s in
  let s2 := set_games (updateMany_completed now) s1 in
  let s3 := match rev with
            | games_js => s2
            | monitored_js => startGameMonitoring s2
            end in
  match createNewGameSafely rev now s3 with
  | (Some game, s4) =>
      match rev with
      | games_js =>
          let g := game.2 in
          let game' := (_id game,
                        mkGame (gameNumber g) betting now (endTime g) (isFixed g)
                          (fixedResult g) (resultNumber g) (resultColor g)
                          (resultSize g) (createdAt g)) in
          (json ("Continuous games started", game'), set_games (save game') s4)
      | monitored_js => (json ("Continuous games started", game), s4)
      end
  | (None, s4) => (error 400 "Failed to start continuous games", s4)
  end.

(** The loop [for (const game of activeGames) await
    endGameAndProcessBets(game)]; [randoms i] is what [Math.random()] would
    return in the iteration of index [i]. *)
Fixpoint end_all (rev : Revision) (now : Z) (randoms : nat → Q) (i : nat)
    (activeGames : list (ObjectId * Game)) (s : State) : State :=
  match activeGames with
  | [] => s
  | game :: rest =>
      end_all rev now randoms (S i) rest
        (endGameAndProcessBets rev now (randoms i) game s)
  end.

(** [router.post('/stop-continuous')] *)
Definition post_stop_continuous (rev : Revision) (now : Z) (randoms : nat → Q)
    (s : State) : Response string * State :=
  let s1 := set_continuousGamesEnabled false s in
  let s2 := set_timers false
              (match rev with
               | games_js => gameCheckInterval s1
               | monitored_js => false
               end) s1 in
  (json "Continuous games stopped",
   end_all rev now randoms 0 (find_active_games (games s2)) s2).

(** ** The scheduler: [/current], the monitor and the timers *)

(** [(settings?.gameDuration || 60) * 1000] *)
Definition bettingDuration (s : State) : Z :=
  match gameDuration s with
  | Some d => if d =? 0 then 60 else d
  | None => 60
  end * 1000.

(** [scheduleNextGameCreation()] of [server/routes/games.js]: the callback
    is [timeout_fires] below. *)
Definition scheduleNextGameCreation (s : State) : State :=
  if continuousGamesEnabled s then set_timers true (gameCheckInterval s) s else s.

(** The callback of the creation timer.  In the monitored revision the
    timer is set by the monitor and its callback does not test the flag. *)
Definition timeout_fires (rev : Revision) (now : Z) (s : State) : State :=
  match rev with
  | games_js =>
      if continuousGamesEnabled s then (createNewGameSafely rev now s).2 else s
  | monitored_js => (createNewGameSafely rev now s).2
  end.

(** [if (game.status === 'waiting' && now >= game.startTime) { game.status =
    'betting'; await game.save(); }]; the monitor also writes a line. *)
Definition maybe_open (rev : Revision) (now : Z) (game : ObjectId * Game)
    (s : State) : (ObjectId * Game) * State :=
  if decide (status game.2 = waiting) then
    if startTime game.2 <=? now then
      let g := game.2 in
      let game' := (_id game,
                    mkGame (gameNumber g) betting (startTime g) (endTime g)
                      (isFixed g) (fixedResult g) (resultNumber g)
                      (resultColor g) (resultSize g) (createdAt g)) in
      let s1 := set_games (save game') s in
      (game',
       match rev with
       | games_js => s1
       | monitored_js =>
           console_log ("Game #" +:+ JS.show (gameNumber g) +:+ " started betting") s1
       end)
    else (game, s)
  else (game, s).

(** [if (game.status === 'betting') { ... if (now >= bettingEndTime) await
    endGameAndProcessBets(game) ... }]; [games.js] then schedules the next
    creation, the monitor sets a timer for it. *)
Definition maybe_close (rev : Revision) (now : Z) (random : Q)
    (game : ObjectId * Game) (s : State) : (ObjectId * Game) * State :=
  if decide (status game.2 = betting) then
    if startTime game.2 + bettingDuration s <=? now then
      let s1 := endGameAndProcessBets rev now random game s in
      ((_id game, ended_game now random game.2),
       match rev with
       | games_js =>
           if continuousGamesEnabled s1 then scheduleNextGameCreation s1 else s1
       | monitored_js => s1
       end)
    else (game, s)
  else (game, s).

(** [router.get('/current')]: in [server/routes/games.js] the read drives
    the transitions; in the monitored revision it only reads. *)
Definition get_current (rev : Revision) (now : Z) (random : Q) (s : State)
    : Response (option (ObjectId * Game)) * State :=
  match rev with
  | monitored_js => (json (findOne_active_game (games s)), s)
  | games_js =>
      match findOne_active_game (games s) with
      | None =>
          if continuousGamesEnabled s then
            let run := createNewGameSafely rev now s in (json run.1, run.2)
          else (json None, s)
      | Some game =>
          let '(game1, s1) := maybe_open rev now game s in
          let '(game2, s2) := maybe_close rev now random game1 s1 in
          (json (Some game2), s2)
      end
  end.

(** The callback of [setInterval] in [startGameMonitoring]. *)
Definition monitor_tick (now : Z) (random : Q) (s : State) : State :=
  if continuousGamesEnabled s then
    match findOne_active_game (games s) with
    | None => (createNewGameSafely monitored_js now s).2
    | Some activeGame =>
        let '(game1, s1) := maybe_open monitored_js now activeGame s in
        (maybe_close monitored_js now random game1 s1).2
    end
  else s.

(** ** The outcome of the settlement loop, bet by bet *)

(** What the loop body writes for a bet, and what it credits. *)
Definition settle (n : Z) (color size : string) (b : Bet) : Bet :=
  settled_bet b (judge b n color size).1 (judge b n color size).2.

Definition wins (n : Z) (color size : string) (b : Bet) : bool := (judge b n color size).1.

(** The payouts that the loop credits to the user [uid]. *)
Definition winnings (n : Z) (color size : string) (uid : ObjectId)
    (l : list (ObjectId * Bet)) : Z :=
  foldr (λ d acc, if wins n color size d.2 && bool_decide (userId d.2 = uid)
                  then payout (settle n color size d.2) + acc else acc) 0 l.

(** The win transactions that the loop appends. *)
Definition win_transactions (rev : Revision) (num n : Z) (color size : string)
    (l : list (ObjectId * Bet)) : list Transaction :=
  omap (λ d : ObjectId * Bet,
          if wins n color size d.2
          then Some (mkTransaction (userId d.2) tx_win (payout (settle n color size d.2))
                       (win_description rev num (settle n color size d.2)))
          else None) l.

(** ** The rules of settlement, as the specification words them *)

(** The multiplier table: 9 for the exact value, 2 for the colour and 2 for
    the size; 1 is the initial value of [multiplier], which a bet of no
    known type keeps. *)
Definition multiplier (type : string) : Z :=
  if String.eqb type "number" then 9
  else if String.eqb type "color" then 2
  else if String.eqb type "size" then 2
  else 1.

(** The selector of the bet equals the outcome that the round [g] stores,
    under the rule of the bet's category.  A selector is a string: it is
    the outcome value when it is the decimal numeral of that value, and it
    is the colour or the size of the outcome when it is that word. *)
Definition selector_matches (b : Bet) (g : Game) : Prop :=
  (betType b = "number" ∧
   ∃ v, resultNumber g = Some v ∧ betValue b = JS.show v) ∨
  (betType b = "color" ∧ resultColor g = Some (betValue b)) ∨
  (betType b = "size" ∧ resultSize g = Some (betValue b)).

(** A selector that names a value: the decimal numeral of an integer. *)
Definition numeral (selector : string) : Prop :=
  ∃ v : Z, selector = JS.show v.

(** The selector of a wager on the number category names a value; the
    selectors of the other categories are under no condition. *)
Definition names_a_value (b : Bet) : Prop :=
  betType b = "number" → numeral (betValue b).

(** The rule of payment as the specification states it, for the wagers that
    are pending on [game] when settlement runs: afterwards the wager is not
    pending, its payout is the stake times the multiplier if and only if its
    selector matches the outcome, and its payout is 0 otherwise. *)
Definition paid_iff_selector_matches (rev : Revision) (now : Z) (random : Q)
    (game : ObjectId * Game) (s : State) : Prop :=
  let s' := endGameAndProcessBets rev now random game s in
  ∀ id b,
    bets s !! id = Some b → gameId b = _id game → result b = pending →
    ∃ g' b',
      games s' !! _id game = Some g' ∧ bets s' !! id = Some b' ∧
      result b' ≠ pending ∧
      (payout b' = amount b * multiplier (betType b) ↔ selector_matches b g') ∧
      (¬ selector_matches b g' → payout b' = 0).

(** The two lines that [endGameAndProcessBets] writes to the console. *)
Definition settlement_lines (now : Z) (random : Q) (game : ObjectId * Game)
    (s : State) : list string :=
  let g := ended_game now random game.2 in
  let n := compute_resultNumber (fixedResult game.2) random in
  [ "Game #" +:+ JS.show (gameNumber g) +:+ " ended with result: "
    +:+ JS.show n +:+ " (" +:+ compute_resultColor n +:+ ", "
    +:+ compute_resultSize n +:+ ")";
    "Processed "
    +:+ JS.show (Z.of_nat (length (find_pending_bets (_id game) (bets s))))
    +:+ " bets for game #" +:+ JS.show (gameNumber g) ].

(** ** Sequences of calls and conditions of the routes *)

(** A sequence of creation attempts, one at each of the given times. *)
Definition creation_attempts (rev : Revision) (nows : list Z) (s : State) : State :=
  foldl (λ s now, (createNewGameSafely rev now s).2) s nows.

(** Some round is waiting or betting. *)
Definition has_active_game (s : State) : Prop :=
  ∃ id g, games s !! id = Some g ∧ active g.

(** The three grounds on which [/bet] refuses a wager: the round is not
    open for betting (or unknown), the account already has a wager on the
    round, the balance does not cover the stake (or there is no wallet). *)
Definition not_open (gid : ObjectId) (s : State) : Prop :=
  status <$> games s !! gid ≠ Some betting.

Definition already_bet (uid gid : ObjectId) (s : State) : Prop :=
  ∃ id b, bets s !! id = Some b ∧ userId b = uid ∧ gameId b = gid.

Definition insufficient_balance (uid : ObjectId) (amt : Z) (s : State) : Prop :=
  ¬ ∃ balance, wallets s !! uid = Some balance ∧ amt <= balance.

Definition bet_refused (uid gid : ObjectId) (amt : Z) (s : State) : Prop :=
  not_open gid s ∨ already_bet uid gid s ∨ insufficient_balance uid amt s.

(** ** Runs of the server *)

(** One request served by the routes modelled above, or one firing of a
    timer.  [/fix] and the monitor exist in the monitored revision only. *)
Inductive step (rev : Revision) : State → State → Prop :=
  | step_create now s :
      step rev s (createNewGameSafely rev now s).2
  | step_bet uid gid type value amt s :
      step rev s (post_bet rev uid gid type value amt s).2
  | step_end now random id s :
      step rev s (put_end rev now random id s).2
  | step_fix id fixed s :
      rev = monitored_js → step rev s (put_fix id fixed s).2
  | step_start now s :
      step rev s (post_start_continuous rev now s).2
  | step_stop now randoms s :
      step rev s (post_stop_continuous rev now randoms s).2
  | step_current now random s :
      step rev s (get_current rev now random s).2
  | step_tick now random s :
      rev = monitored_js → gameCheckInterval s = true →
      step rev s (monitor_tick now random s)
  | step_timeout now s :
      step rev s (timeout_fires rev now s).

(** A round that is waiting or betting has no outcome and no end time. *)
Definition no_outcome_before_closed (m : gmap ObjectId Game) : Prop :=
  ∀ id g, m !! id = Some g → active g →
    resultNumber g = None ∧ resultColor g = None ∧ resultSize g = None ∧
    endTime g = None.

(** ** A small server state, used to run the routes *)

(** Round 1 is open for betting with the override 3.  User 7 stakes 10 on
    the number 3 and has a wallet of 100; user 8 stakes 5 on green and has
    no wallet record; user 9 stakes 4 on big and has a wallet of 50. *)
Definition demo_game : Game :=
  mkGame 1 betting 0 None true (Some 3) None None None 0.

Definition demo_state : State :=
  mkState
    {[ 1%positive := demo_game ]}
    {[ 1%positive := mkBet 7 1 "number" "3" 10 pending 0;
       2%positive := mkBet 8 1 "color" "green" 5 pending 0;
       3%positive := mkBet 9 1 "size" "big" 4 pending 0 ]}
    {[ 7%positive := 100; 9%positive := 50 ]}
    [] false false false false [] None.

(** Round 1 after its settlement at time 1000 with the drawn outcome 3: the
    wager of user 7 on the number 3 has won 90. *)
Definition closed_game : Game :=
  mkGame 1 completed 0 (Some 1000) false None (Some 3) (Some "green")
    (Some "small") 0.

Definition closed_state : State :=
  mkState
    {[ 1%positive := closed_game ]}
    {[ 1%positive := mkBet 7 1 "number" "3" 10 win 90 ]}
    {[ 7%positive := 180 ]}
    [mkTransaction 7 tx_bet (-10) "Bet $10 on number: 3";
     mkTransaction 7 tx_win 90 "Won $90 from number bet on 3"]
    false false false false [] None.

(** Round 1 is open for betting with the override 3, nobody has bet yet and
    user 7 has a wallet of 100. *)
Definition open_state : State :=
  mkState
    {[ 1%positive := demo_game ]}
    ∅
    {[ 7%positive := 100 ]}
    [] false false false false [] None.

(** The claim that a won wager always comes with its credit or with a
    report: for every pending bet of the round that settlement marks as
    won, either the wallet of its user holds the balance it had plus the
    user's winnings, or the console shows more than the two lines of a
    settlement. *)
Definition won_credited_or_reported (rev : Revision) (now : Z) (random : Q)
    (game : ObjectId * Game) (s : State) : Prop :=
  let s' := endGameAndProcessBets rev now random game s in
  let n := compute_resultNumber (fixedResult game.2) random in
  ∀ id b b',
    bets s !! id = Some b → gameId b = _id game → result b = pending →
    bets s' !! id = Some b' → result b' = win →
    (∃ bal, wallets s !! userId b = Some bal ∧
            wallets s' !! userId b =
            Some (bal + winnings n (compute_resultColor n) (compute_resultSize n)
                          (userId b) (find_pending_bets (_id game) (bets s))))
    ∨ console s' ≠ console s ++ settlement_lines now random game s.

(** ** The remaining game routes *)

(** [router.post('/create')]: whatever round [createNewGameSafely] returns,
    new or not, is answered as created. *)
Definition post_create (rev : Revision) (now : Z) (s : State)
    : Response (string * (ObjectId * Game)) * State :=
  match createNewGameSafely rev now s with
  | (Some game, s') => (json ("Game created successfully", game), s')
  | (None, s') => (error 400 "Failed to create game", s')
  end.

(** [Game.findOne({ status: { $in: ['waiting', 'betting', 'completed'] }
    }).sort({ createdAt: -1 })]: the three statuses are all there are. *)
Definition findOne_latest_game (m : gmap ObjectId Game) : option (ObjectId * Game) :=
  greatest (λ d, createdAt d.2) (map_to_list m).

(** [router.get('/current-bet')]: the bet of the user on the round created
    last, and that round; [None] is [null]. *)
Definition get_current_bet (uid : ObjectId) (s : State)
    : option (ObjectId * Bet) * option (ObjectId * Game) :=
  match findOne_latest_game (games s) with
  | None => (None, None)
  | Some currentGame =>
      (findOne_bet uid (_id currentGame) (bets s), Some currentGame)
  end.

(** [router.get('/continuous-status')] *)
Definition get_continuous_status (s : State) : bool * bool :=
  (continuousGamesEnabled s, gameCreationInProgress s).

(** ** The wallet routes *)

(** [router.get('/')] of the wallet routes: the wallet of the user, created
    on the first read.  The Wallet schema is not among the sources; the
    balance of a new wallet is the argument [initial]. *)
Definition get_wallet (initial : Z) (uid : ObjectId) (s : State) : Z * State :=
  match wallets s !! uid with
  | Some balance => (balance, s)
  | None => (initial, set_wallets <[uid := initial]> s)
  end.

(** [router.put('/balance')]: [wallet.balance = Math.max(0, amount)]. *)
Definition put_balance (uid : ObjectId) (amt : Z) (s : State) : Response Z * State :=
  match wallets s !! uid with
  | None => (error 404 "Wallet not found", s)
  | Some _ => (json (Z.max 0 amt), set_wallets <[uid := Z.max 0 amt]> s)
  end.

(** [Bet.find({ userId })] *)
Definition find_user_bets (uid : ObjectId) (m : gmap ObjectId Bet) : list (ObjectId * Bet) :=
  filter (λ d, userId d.2 = uid) (map_to_list m).

Module Stats.

(** The [stats] object of [router.get('/stats')]. *)
Record t := mk {
  totalBets : nat;
  wins : nat;
  losses : nat;
  winRate : Q;
  totalWagered : Z;
  totalWon : Z;
  netProfit : Z
}.

(** The body of the route, on the bets found for the user. *)
Definition of_bets (found : list (ObjectId * Bet)) : t :=
  let totalBets := length found in
  let wins := length (filter (λ d : ObjectId * Bet, result d.2 = win) found) in
  let losses := length (filter (λ d : ObjectId * Bet, result d.2 = loss) found) in
  let winRate :=
    if (0 <? totalBets)%nat
    then (inject_Z (Z.of_nat wins) / inject_Z (Z.of_nat totalBets) * 100)%Q
    else 0%Q in
  let totalWagered := foldl (λ sum d, sum + amount d.2) 0 found in
  let totalWon := foldl (λ sum d, sum + payout d.2) 0 found in
  mk totalBets wins losses winRate totalWagered totalWon (totalWon - totalWagered).

End Stats.

(** [router.get('/stats')] *)
Definition get_stats (uid : ObjectId) (s : State) : Stats.t :=
  Stats.of_bets (find_user_bets uid (bets s)).

(** ** The client: countdown and preview *)

Module Client.

(** [Math.ceil(x)] *)
Definition Math_ceil (x : Q) : Z := Qceiling x.

(** The countdown that the game hook sets every second: the seconds until
    the start of a waiting round, the seconds left of the 60 seconds of a
    betting round; [None] for a completed round, for which no timer runs. *)
Definition timeLeft (st : GameStatus) (startTime now : Z) : option Z :=
  match st with
  | waiting =>
      Some (Z.max 0 (Math_ceil (inject_Z (startTime - now) / 1000)))
  | betting =>
      let duration := 60000 in
      let elapsed := now - startTime in
      Some (Z.max 0 (Math_ceil (inject_Z (duration - elapsed) / 1000)))
  | completed => None
  end.

(** The result preview of the admin page for the text typed into the
    field: [parseInt(fixedResult) === 0 ? 'GREEN' : parseInt(fixedResult) %
    2 === 0 ? 'RED' : 'GREEN'].  For [NaN] every comparison is false. *)
Definition preview_color (fixedResult : string) : string :=
  match JS.parseInt fixedResult with
  | Some n => if n =? 0 then "GREEN" else if Z.rem n 2 =? 0 then "RED" else "GREEN"
  | None => "GREEN"
  end.

(** [parseInt(fixedResult) >= 5 ? 'BIG' : 'SMALL'] *)
Definition preview_size (fixedResult : string) : string :=
  match JS.parseInt fixedResult with
  | Some n => if 5 <=? n then "BIG" else "SMALL"
  | None => "SMALL"
  end.

End Client.

(** ** Requests and invariants of the collections *)

(** A request to any of the routes, or a firing of a timer. *)
Inductive request (rev : Revision) : State → State → Prop :=
  | request_game s s' :
      step rev s s' → request rev s s'
  | request_create now s :
      request rev s (post_create rev now s).2
  | request_wallet initial uid s :
      request rev s (get_wallet initial uid s).2
  | request_balance uid amt s :
      request rev s (put_balance uid amt s).2.

(** No two rounds carry the same game number. *)
Definition unique_gameNumbers (m : gmap ObjectId Game) : Prop :=
  ∀ id1 id2 g1 g2,
    m !! id1 = Some g1 → m !! id2 = Some g2 →
    gameNumber g1 = gameNumber g2 → id1 = id2.

(** At most one round is waiting or betting. *)
Definition at_most_one_active (m : gmap ObjectId Game) : Prop :=
  ∀ id1 id2 g1 g2,
    m !! id1 = Some g1 → active g1 → m !! id2 = Some g2 → active g2 → id1 = id2.

(** An account has at most one wager on a round. *)
Definition one_bet_per_round (m : gmap ObjectId Bet) : Prop :=
  ∀ id1 id2 b1 b2,
    m !! id1 = Some b1 → m !! id2 = Some b2 →
    userId b1 = userId b2 → gameId b1 = gameId b2 → id1 = id2.



(** The order of the states of a round. *)
Definition status_rank (st : GameStatus) : Z :=
  match st with
  | waiting => 0
  | betting => 1
  | completed => 2
  end.

(** A later document of a round: the same number, the same creation time,
    and a status that has not gone back. *)
Definition round_evolves (g g' : Game) : Prop :=
  gameNumber g' = gameNumber g ∧ createdAt g' = createdAt g ∧
  status_rank (status g) <= status_rank (status g').

(** A later collection of the same rounds. *)
Definition rounds_evolve (m m' : gmap ObjectId Game) : Prop :=
  ∀ id, option_Forall2 round_evolves (m !! id) (m' !! id).

(** The documents of a list are rounds of the collection, up to what may
    have been written to them since they were read. *)
Definition snapshot_of (l : list (ObjectId * Game)) (m : gmap ObjectId Game) : Prop :=
  ∀ id g, (id, g) ∈ l →
    ∃ g0, m !! id = Some g0 ∧ gameNumber g0 = gameNumber g ∧
          createdAt g0 = createdAt g.

(** A later document of a wager: the same account, round, category,
    selector and stake; once settled, the same document. *)
Definition bet_evolves (b b' : Bet) : Prop :=
  (userId b', gameId b', betType b', betValue b', amount b') =
  (userId b, gameId b, betType b, betValue b, amount b) ∧
  (result b ≠ pending → b' = b).

(** A later collection of the same wagers. *)
Definition bets_evolve (m m' : gmap ObjectId Bet) : Prop :=
  ∀ id, option_Forall2 bet_evolves (m !! id) (m' !! id).

(** * Properties *)

(** ** Result generation *)

Section ResultGenerator.

Lemma rem2_odd (n : Z) : Z.odd n = true → Z.rem n 2 ≠ 0.
Proof.
  intros Hodd Hrem. rewrite Zodd_rem, Hrem in Hodd. discriminate.
Qed.

Lemma rem2_even (n : Z) : Z.even n = true → Z.rem n 2 = 0.
Proof.
  intros Heven. rewrite Zeven_rem in Heven. by apply Z.eqb_eq.
Qed.

Lemma compute_resultColor_green (n : Z) :
  n = 0 ∨ Z.odd n = true → compute_resultColor n = "green".
Proof.
  unfold compute_resultColor. intros [-> | Hodd]; [reflexivity |].
  destruct (n =? 0); [reflexivity |].
  destruct (Z.eqb_spec (Z.rem n 2) 0) as [Hrem | _]; [| reflexivity].
  exfalso. exact (rem2_odd n Hodd Hrem).
Qed.

Lemma compute_resultColor_red (n : Z) :
  n ≠ 0 → Z.even n = true → compute_resultColor n = "red".
Proof.
  unfold compute_resultColor. intros Hn Heven.
  destruct (Z.eqb_spec n 0) as [-> | _]; [congruence |].
  rewrite (rem2_even n Heven). reflexivity.
Qed.

Lemma compute_resultSize_big (n : Z) : 5 <= n → compute_resultSize n = "big".
Proof.
  unfold compute_resultSize. intros H.
  destruct (Z.leb_spec 5 n); [reflexivity | lia].
Qed.

Lemma compute_resultSize_small (n : Z) : n < 5 → compute_resultSize n = "small".
Proof.
  unfold compute_resultSize. intros H.
  destruct (Z.leb_spec 5 n); [lia | reflexivity].
Qed.

(** The draw [Math.floor(random * 10)] is the digit [n] exactly on the
    interval [[n/10, (n+1)/10)]: ten intervals of one length. *)
Lemma draw_interval (random : Q) (n : Z) :
  JS.Math_floor (random * 10) = n ↔
  (inject_Z n <= random * 10 ∧ random * 10 < inject_Z (n + 1))%Q.
Proof.
  unfold JS.Math_floor. split.
  - intros <-. split; [apply Qfloor_le | apply Qlt_floor].
  - intros [Hlo Hhi].
    pose proof (Qfloor_le (random * 10)) as Hfl.
    pose proof (Qlt_floor (random * 10)) as Hfu.
    assert (Qfloor (random * 10) < n + 1) as H1.
    { rewrite Zlt_Qlt. eapply Qle_lt_trans; eassumption. }
    assert (n < Qfloor (random * 10) + 1) as H2.
    { rewrite Zlt_Qlt. eapply Qle_lt_trans; eassumption. }
    lia.
Qed.

Lemma draw_range (random : Q) :
  (0 <= random)%Q → (random < 1)%Q →
  0 <= JS.Math_floor (random * 10) <= 9.
Proof.
  intros Hlo Hhi. unfold JS.Math_floor.
  pose proof (Qfloor_le (random * 10)) as Hfl.
  pose proof (Qlt_floor (random * 10)) as Hfu.
  assert (0 < Qfloor (random * 10) + 1) as H1.
  { rewrite Zlt_Qlt. eapply Qle_lt_trans; [| exact Hfu].
    change (inject_Z 0) with (0 * 10)%Q.
    apply Qmult_le_compat_r; [exact Hlo | discriminate]. }
  assert (Qfloor (random * 10) < 10) as H2.
  { rewrite Zlt_Qlt. eapply Qle_lt_trans; [exact Hfl |].
    change (inject_Z 10) with (1 * 10)%Q.
    apply Qmult_lt_compat_r; [reflexivity | exact Hhi]. }
  lia.
Qed.

End ResultGenerator.

(** ** The settlement loop *)

Section SettlementLoop.

Variables (rev : Revision) (num n : Z) (color size : string).

Local Abbreviation step := (process_bet rev num n color size).
Local Abbreviation settle := (settle n color size).
Local Abbreviation wins := (wins n color size).
Local Abbreviation winnings := (winnings n color size).
Local Abbreviation win_transactions := (win_transactions rev num n color size).

Lemma settle_result (b : Bet) :
  result (settle b) = (if wins b then win else loss).
Proof. reflexivity. Qed.

Lemma settle_payout (b : Bet) :
  payout (settle b) = (if wins b then amount b * (judge b n color size).2 else 0).
Proof. reflexivity. Qed.

Lemma settle_not_pending (b : Bet) : result (settle b) ≠ pending.
Proof. rewrite settle_result. by destruct (wins b). Qed.

Lemma process_bet_unfold (s : State) (d : ObjectId * Bet) :
  step s d =
  let s1 := set_bets (save (_id d, settle d.2)) s in
  if wins d.2 then
    add_transaction
      (mkTransaction (userId d.2) tx_win (payout (settle d.2))
         (win_description rev num (settle d.2)))
      (set_wallets (credit (userId d.2) (payout (settle d.2))) s1)
  else s1.
Proof.
  unfold process_bet, settle, wins.
  by destruct (judge d.2 n color size) as [[] m].
Qed.

Lemma loop_games (l : list (ObjectId * Bet)) (s : State) :
  games (foldl step s l) = games s.
Proof.
  revert s. induction l as [| d l IH]; intros s; [done |].
  simpl foldl. rewrite IH, process_bet_unfold. simpl. by destruct (wins d.2).
Qed.

Lemma loop_console (l : list (ObjectId * Bet)) (s : State) :
  console (foldl step s l) = console s.
Proof.
  revert s. induction l as [| d l IH]; intros s; [done |].
  simpl foldl. rewrite IH, process_bet_unfold. simpl. by destruct (wins d.2).
Qed.

Lemma loop_flags (l : list (ObjectId * Bet)) (s : State) :
  gameCreationInProgress (foldl step s l) = gameCreationInProgress s ∧
  continuousGamesEnabled (foldl step s l) = continuousGamesEnabled s ∧
  gameCreationTimeout (foldl step s l) = gameCreationTimeout s ∧
  gameCheckInterval (foldl step s l) = gameCheckInterval s.
Proof.
  revert s. induction l as [| d l IH]; intros s; [done |].
  simpl foldl. destruct (IH (step s d)) as (-> & -> & -> & ->).
  rewrite process_bet_unfold. simpl. by destruct (wins d.2).
Qed.

(** A bet that the loop visits is settled, once and for all: the [_id]s
    of the bets found are pairwise different. *)
Lemma loop_bets_visited (l : list (ObjectId * Bet)) (s : State) id b :
  NoDup l.*1 → (id, b) ∈ l →
  bets (foldl step s l) !! id = Some (settle b).
Proof.
  revert s. induction l as [| d l IH]; intros s Hnd Hin.
  { by apply elem_of_nil in Hin. }
  simpl in Hnd. apply NoDup_cons in Hnd as [Hfresh Hnd].
  simpl foldl. apply elem_of_cons in Hin as [Heq | Hin].
  - subst d. clear IH. simpl in Hfresh.
    assert (bets (step s (id, b)) !! id = Some (settle b)) as Hnow.
    { rewrite process_bet_unfold. simpl.
      destruct (wins b); simpl; unfold save, _id; simpl;
        by rewrite lookup_insert_eq. }
    revert Hnow Hfresh. generalize (step s (id, b)). clear Hnd.
    induction l as [| d' l IH]; intros s' Hnow Hfresh; [done |].
    simpl foldl. apply IH.
    + rewrite process_bet_unfold. simpl.
      assert (d'.1 ≠ id) as Hne.
      { intros <-. apply Hfresh. simpl. left. }
      destruct (wins d'.2); simpl; unfold save, _id; simpl;
        by rewrite lookup_insert_ne.
    + intros Hin. apply Hfresh. simpl. by right.
  - by apply IH.
Qed.

(** A bet that the loop does not visit is left as it was. *)
Lemma loop_bets_others (l : list (ObjectId * Bet)) (s : State) id :
  id ∉ l.*1 → bets (foldl step s l) !! id = bets s !! id.
Proof.
  revert s. induction l as [| d l IH]; intros s Hout; [done |].
  simpl foldl. rewrite IH.
  - rewrite process_bet_unfold. simpl.
    assert (d.1 ≠ id) as Hne.
    { intros <-. apply Hout. simpl. left. }
    destruct (wins d.2); simpl; unfold save, _id; simpl;
      by rewrite lookup_insert_ne.
  - intros Hin. apply Hout. simpl. by right.
Qed.

Lemma credit_lookup (uid u : ObjectId) (p : Z) (w : gmap ObjectId Z) :
  credit uid p w !! u =
  (λ bal, if bool_decide (uid = u) then bal + p else bal) <$> w !! u.
Proof.
  unfold credit. destruct (w !! uid) as [bal |] eqn:Hw.
  - case_bool_decide as Hu.
    + subst u. rewrite lookup_insert_eq, Hw. done.
    + rewrite lookup_insert_ne by done. by destruct (w !! u).
  - case_bool_decide as Hu.
    + subst u. by rewrite Hw.
    + by destruct (w !! u).
Qed.

(** The balance of a wallet after the loop: the balance before plus the
    payouts of the user's winning bets; a user without a wallet record
    still has none. *)
Lemma loop_wallets (l : list (ObjectId * Bet)) (s : State) (u : ObjectId) :
  wallets (foldl step s l) !! u = (λ bal, bal + winnings u l) <$> wallets s !! u.
Proof.
  revert s. induction l as [| d l IH]; intros s.
  { simpl. destruct (wallets s !! u); simpl; [f_equal; lia | done]. }
  simpl foldl. rewrite IH, process_bet_unfold. simpl.
  destruct (wins d.2); simpl.
  - rewrite credit_lookup. destruct (wallets s !! u) as [bal |]; simpl; [| done].
    f_equal. case_bool_decide; lia.
  - destruct (wallets s !! u); simpl; [f_equal; lia | done].
Qed.

Lemma loop_transactions (l : list (ObjectId * Bet)) (s : State) :
  transactions (foldl step s l) = transactions s ++ win_transactions l.
Proof.
  revert s. induction l as [| d l IH]; intros s.
  { simpl. by rewrite app_nil_r. }
  simpl foldl. rewrite IH, process_bet_unfold. unfold win_transactions. simpl.
  destruct (wins d.2); simpl; [| done].
  by rewrite <- app_assoc.
Qed.

End SettlementLoop.

(** ** Settlement: [endGameAndProcessBets] *)

Section Settlement.

Variables (rev : Revision) (now : Z) (random : Q).

Local Abbreviation outcome g := (compute_resultNumber (fixedResult g) random).

Lemma find_pending_bets_spec (gid : ObjectId) (m : gmap ObjectId Bet) id b :
  (id, b) ∈ find_pending_bets gid m ↔
  m !! id = Some b ∧ gameId b = gid ∧ result b = pending.
Proof.
  unfold find_pending_bets. rewrite list_elem_of_filter, elem_of_map_to_list.
  simpl. tauto.
Qed.

Lemma find_pending_bets_NoDup (gid : ObjectId) (m : gmap ObjectId Bet) :
  NoDup (find_pending_bets gid m).*1.
Proof.
  unfold find_pending_bets.
  eapply sublist_NoDup; [apply (NoDup_fst_map_to_list m) |].
  apply fmap_sublist, sublist_filter.
Qed.

Lemma find_pending_bets_nil (gid : ObjectId) (m : gmap ObjectId Bet) :
  (∀ id b, m !! id = Some b → gameId b = gid → result b ≠ pending) →
  find_pending_bets gid m = [].
Proof.
  intros Hnone. destruct (find_pending_bets gid m) as [| [id b] l] eqn:Hl; [done |].
  assert ((id, b) ∈ find_pending_bets gid m) as Hin by (rewrite Hl; left).
  apply find_pending_bets_spec in Hin as (Hm & Hg & Hr).
  by destruct (Hnone id b Hm Hg).
Qed.

Lemma endGame_games (game : ObjectId * Game) (s : State) :
  games (endGameAndProcessBets rev now random game s) =
  <[_id game := ended_game now random game.2]> (games s).
Proof. unfold endGameAndProcessBets. simpl. by rewrite loop_games. Qed.

Lemma endGame_console (game : ObjectId * Game) (s : State) :
  console (endGameAndProcessBets rev now random game s) =
  console s ++ settlement_lines now random game s.
Proof.
  unfold endGameAndProcessBets, settlement_lines. simpl.
  rewrite loop_console. simpl. by rewrite <- app_assoc.
Qed.

Lemma endGame_bets_pending (game : ObjectId * Game) (s : State) id b :
  bets s !! id = Some b → gameId b = _id game → result b = pending →
  bets (endGameAndProcessBets rev now random game s) !! id =
  Some (settle (outcome game.2) (compute_resultColor (outcome game.2))
          (compute_resultSize (outcome game.2)) b).
Proof.
  intros Hb Hg Hr. unfold endGameAndProcessBets. simpl.
  apply loop_bets_visited; [apply find_pending_bets_NoDup |].
  by apply find_pending_bets_spec.
Qed.

Lemma endGame_bets_others (game : ObjectId * Game) (s : State) id :
  (∀ b, bets s !! id = Some b → ¬ (gameId b = _id game ∧ result b = pending)) →
  bets (endGameAndProcessBets rev now random game s) !! id = bets s !! id.
Proof.
  intros Hb. unfold endGameAndProcessBets. simpl.
  rewrite loop_bets_others; [done |].
  intros Hin. apply list_elem_of_fmap in Hin as ([id' b] & -> & Hin).
  apply find_pending_bets_spec in Hin as (Hm & Hg & Hr).
  by apply (Hb b Hm).
Qed.

Lemma endGame_wallets (game : ObjectId * Game) (s : State) (u : ObjectId) :
  wallets (endGameAndProcessBets rev now random game s) !! u =
  (λ bal, bal + winnings (outcome game.2) (compute_resultColor (outcome game.2))
                  (compute_resultSize (outcome game.2)) u
                  (find_pending_bets (_id game) (bets s)))
  <$> wallets s !! u.
Proof. unfold endGameAndProcessBets. simpl. by rewrite loop_wallets. Qed.

Lemma endGame_transactions (game : ObjectId * Game) (s : State) :
  transactions (endGameAndProcessBets rev now random game s) =
  transactions s ++
  win_transactions rev (gameNumber game.2) (outcome game.2)
    (compute_resultColor (outcome game.2)) (compute_resultSize (outcome game.2))
    (find_pending_bets (_id game) (bets s)).
Proof. unfold endGameAndProcessBets. simpl. by rewrite loop_transactions. Qed.

(** After settlement no bet of the round is pending. *)
Lemma endGame_no_pending (game : ObjectId * Game) (s : State) :
  find_pending_bets (_id game)
    (bets (endGameAndProcessBets rev now random game s)) = [].
Proof.
  apply find_pending_bets_nil. intros id b' Hb' Hg Hr.
  destruct (bets s !! id) as [b |] eqn:Hb.
  - destruct (decide (gameId b = _id game ∧ result b = pending)) as [[Hgb Hrb] | Hno].
    + rewrite (endGame_bets_pending game s id b Hb Hgb Hrb) in Hb'.
      injection Hb' as <-. by apply settle_not_pending in Hr.
    + rewrite endGame_bets_others in Hb'.
      * rewrite Hb in Hb'. injection Hb' as <-. by apply Hno.
      * intros b0 Hb0. rewrite Hb in Hb0. by injection Hb0 as <-.
  - rewrite endGame_bets_others in Hb'; [congruence |].
    intros b0 Hb0. congruence.
Qed.

End Settlement.

(** ** The verdict of the loop and the rules of the specification *)

Lemma judge_multiplier (b : Bet) (n : Z) (color size : string) :
  (judge b n color size).2 = multiplier (betType b).
Proof.
  unfold judge, multiplier.
  by repeat destruct (String.eqb _ _).
Qed.

(** [parseInt] reads the decimal numeral of an integer as that integer:
    the numeral starts with no white space, has the sign [-] or none, does
    not start with [0x], and all its characters are decimal digits. *)

Lemma digit_value_pretty (d : N) :
  (d < 10)%N → JS.digit_value 10 (pretty_N_char d) = Some (Z.of_N d).
Proof.
  intros Hd.
  assert (d = 0 ∨ d = 1 ∨ d = 2 ∨ d = 3 ∨ d = 4 ∨ d = 5 ∨ d = 6 ∨ d = 7 ∨
          d = 8 ∨ d = 9)%N as Hcases by lia.
  repeat destruct Hcases as [-> | Hcases]; try subst d; reflexivity.
Qed.

Lemma parse_digits_pretty (x : N) :
  ∀ (acc : option Z) (s : string), (0 < x)%N →
  ∃ k : Z, 0 <= k ∧
    JS.parse_digits 10 acc (pretty_N_go x s) =
    JS.parse_digits 10 (Some (default 0 acc * 10 ^ k + Z.of_N x)) s.
Proof.
  induction (N.lt_wf_0 x) as [x _ IH]. intros acc s Hx.
  rewrite pretty_N_go_step by done.
  assert (x `mod` 10 < 10)%N as Hd by (apply N.mod_lt; lia).
  assert (Z.of_N x = Z.of_N (x `div` 10) * 10 + Z.of_N (x `mod` 10)) as Hx10.
  { rewrite (N.div_mod x 10) at 1 by lia. lia. }
  destruct (decide (x `div` 10 = 0)%N) as [Hz | Hnz].
  - rewrite Hz, pretty_N_go_0. exists 1. split; [lia |].
    cbn [JS.parse_digits]. rewrite digit_value_pretty by done.
    do 2 f_equal. rewrite Hx10, Hz, Z.pow_1_r. cbn [Z.of_N]. lia.
  - destruct (IH (x `div` 10)%N) with (acc := acc)
      (s := String (pretty_N_char (x `mod` 10)) s) as (k & Hk & ->).
    { apply N.div_lt; lia. }
    { by apply N.neq_0_lt_0. }
    exists (k + 1). split; [lia |].
    cbn [JS.parse_digits]. rewrite digit_value_pretty by done.
    do 2 f_equal. unfold default at 1. cbn [from_option id].
    rewrite Hx10, Z.pow_add_r, Z.pow_1_r by lia. ring.
Qed.

Lemma pretty_leading_digit (x : N) :
  ∀ s : string, (0 < x)%N →
  ∃ (d : N) (rest : string),
    (1 <= d < 10)%N ∧ pretty_N_go x s = String (pretty_N_char d) rest.
Proof.
  induction (N.lt_wf_0 x) as [x _ IH]. intros s Hx.
  rewrite pretty_N_go_step by done.
  destruct (decide (x `div` 10 = 0)%N) as [Hz | Hnz].
  - rewrite Hz, pretty_N_go_0. exists (x `mod` 10)%N, s. split; [| done].
    assert (x `mod` 10 < 10)%N by (apply N.mod_lt; lia).
    assert (x = 10 * (x `div` 10) + x `mod` 10)%N by (apply N.div_mod; lia).
    lia.
  - apply IH; [apply N.div_lt; lia | by apply N.neq_0_lt_0].
Qed.

Lemma parseInt_leading_digit (d : N) (rest : string) :
  (1 <= d < 10)%N →
  JS.parseInt (String (pretty_N_char d) rest) =
  JS.parse_digits 10 None (String (pretty_N_char d) rest) ∧
  JS.parseInt (String "-" (String (pretty_N_char d) rest)) =
  Z.opp <$> JS.parse_digits 10 None (String (pretty_N_char d) rest).
Proof.
  intros Hd.
  assert (d = 1 ∨ d = 2 ∨ d = 3 ∨ d = 4 ∨ d = 5 ∨ d = 6 ∨ d = 7 ∨
          d = 8 ∨ d = 9)%N as Hcases by lia.
  repeat destruct Hcases as [-> | Hcases]; try subst d;
    (split; unfold JS.parseInt; cbn [JS.skip_white_space pretty_N_char];
     repeat match goal with
       | |- context [JS.is_white_space ?c] => change (JS.is_white_space c) with false
       end;
     cbv beta iota zeta;
     destruct (JS.parse_digits _ _ _); cbn -[Z.mul]; f_equal; lia).
Qed.

Lemma parseInt_show (n : Z) : JS.parseInt (JS.show n) = Some n.
Proof.
  destruct n as [| p | p]; [reflexivity | |].
  - unfold JS.show, pretty, pretty_Z, pretty, pretty_positive, pretty, pretty_N.
    rewrite decide_False by done.
    destruct (pretty_leading_digit (N.pos p) "") as (d & rest & Hd & Hs); [lia |].
    destruct (parse_digits_pretty (N.pos p) None "") as (k & _ & Hp); [lia |].
    destruct (parseInt_leading_digit d rest Hd) as [Hparse _].
    rewrite Hs, Hparse, <- Hs, Hp. cbn. done.
  - unfold JS.show, pretty, pretty_Z, pretty, pretty_positive, pretty, pretty_N.
    rewrite decide_False by done.
    destruct (pretty_leading_digit (N.pos p) "") as (d & rest & Hd & Hs); [lia |].
    destruct (parse_digits_pretty (N.pos p) None "") as (k & _ & Hp); [lia |].
    destruct (parseInt_leading_digit d rest Hd) as [_ Hparse].
    change ("-" +:+ pretty_N_go (N.pos p) "")
      with (String "-" (pretty_N_go (N.pos p) "")).
    rewrite Hs, Hparse, <- Hs, Hp. cbn. done.
Qed.

(** The comparison of the loop, category by category. *)

Lemma wins_number (b : Bet) (n : Z) (color size : string) :
  betType b = "number" →
  wins n color size b = true ↔ JS.parseInt (betValue b) = Some n.
Proof.
  intros Ht. unfold wins, judge. rewrite Ht. cbn [String.eqb Ascii.eqb Bool.eqb fst].
  destruct (JS.parseInt (betValue b)) as [v |]; cbn [JS.strict_eq_number].
  - rewrite Z.eqb_eq. split; congruence.
  - split; discriminate.
Qed.

Lemma wins_color (b : Bet) (n : Z) (color size : string) :
  betType b = "color" → wins n color size b = true ↔ betValue b = color.
Proof.
  intros Ht. unfold wins, judge. rewrite Ht. cbn [String.eqb Ascii.eqb Bool.eqb fst].
  apply String.eqb_eq.
Qed.

Lemma wins_size (b : Bet) (n : Z) (color size : string) :
  betType b = "size" → wins n color size b = true ↔ betValue b = size.
Proof.
  intros Ht. unfold wins, judge. rewrite Ht. cbn [String.eqb Ascii.eqb Bool.eqb fst].
  apply String.eqb_eq.
Qed.

Lemma wins_known_type (b : Bet) (n : Z) (color size : string) :
  wins n color size b = true →
  betType b = "number" ∨ betType b = "color" ∨ betType b = "size".
Proof.
  unfold wins, judge.
  destruct (String.eqb_spec (betType b) "number"); [by left |].
  destruct (String.eqb_spec (betType b) "color"); [by right; left |].
  destruct (String.eqb_spec (betType b) "size"); [by right; right |].
  discriminate.
Qed.

(** A wager whose selector equals the outcome wins. *)
Lemma matching_selector_wins (b : Bet) (g : Game) (n : Z) (color size : string) :
  resultNumber g = Some n → resultColor g = Some color → resultSize g = Some size →
  selector_matches b g → wins n color size b = true.
Proof.
  intros Hn Hc Hs [(Ht & v & Hv & Hsel) | [(Ht & Hsel) | (Ht & Hsel)]].
  - apply wins_number; [done |]. rewrite Hsel, parseInt_show. congruence.
  - apply wins_color; [done |]. congruence.
  - apply wins_size; [done |]. congruence.
Qed.

(** A wager that wins has a selector equal to the outcome, when its
    selector names a value in the number category. *)
Lemma winning_selector_matches (b : Bet) (g : Game) (n : Z) (color size : string) :
  resultNumber g = Some n → resultColor g = Some color → resultSize g = Some size →
  names_a_value b → wins n color size b = true → selector_matches b g.
Proof.
  intros Hn Hc Hs Hnum Hw.
  destruct (wins_known_type b n color size Hw) as [Ht | [Ht | Ht]].
  - left. split; [done |]. exists n. split; [done |].
    destruct (Hnum Ht) as [v Hv].
    apply wins_number in Hw; [| done].
    rewrite Hv, parseInt_show in Hw. congruence.
  - right. left. split; [done |]. apply wins_color in Hw; [| done]. congruence.
  - right. right. split; [done |]. apply wins_size in Hw; [| done]. congruence.
Qed.

Lemma win_transactions_elem (rev : Revision) (num n : Z) (color size : string)
    (l : list (ObjectId * Bet)) id b :
  (id, b) ∈ l → wins n color size b = true →
  mkTransaction (userId b) tx_win (payout (settle n color size b))
    (win_description rev num (settle n color size b))
  ∈ win_transactions rev num n color size l.
Proof.
  intros Hin Hw. unfold win_transactions. apply list_elem_of_omap.
  exists (id, b). split; [done |]. simpl. by rewrite Hw.
Qed.

(** ** Claims on settlement *)

(** C1, as stated, fails.  [/bet] stores the selector it is sent.  A stake
    of 10 on the number category with the selector [3abc] is paid 90 on the
    outcome 3, although the selector is not the outcome value: the loop
    compares [parseInt] of the selector, which reads the digits in front.
    And a stake of 0 on the number 7, lost on the outcome 3, has the payout
    0, which is the stake times the multiplier. *)
Lemma prefix_selector_and_zero_stake_are_paid :
  let placed value stake :=
    post_bet games_js 7 1 "number" value stake open_state in
  let settled value stake :=
    endGameAndProcessBets games_js 1000 (1 # 2) (1%positive, demo_game)
      (placed value stake).2 in
  (placed "3abc" 10).1 =
  json ("Bet placed successfully",
        (1%positive, mkBet 7 1 "number" "3abc" 10 pending 0)) ∧
  resultNumber <$> games (settled "3abc" 10) !! 1%positive = Some (Some 3) ∧
  bets (settled "3abc" 10) !! 1%positive =
  Some (mkBet 7 1 "number" "3abc" 10 win 90) ∧
  90 = 10 * multiplier "number" ∧
  ¬ paid_iff_selector_matches games_js 1000 (1 # 2) (1%positive, demo_game)
      (placed "3abc" 10).2 ∧
  (placed "7" 0).1 =
  json ("Bet placed successfully",
        (1%positive, mkBet 7 1 "number" "7" 0 pending 0)) ∧
  bets (settled "7" 0) !! 1%positive = Some (mkBet 7 1 "number" "7" 0 loss 0) ∧
  0 = 0 * multiplier "number" ∧
  ¬ paid_iff_selector_matches games_js 1000 (1 # 2) (1%positive, demo_game)
      (placed "7" 0).2.
Proof.
  cbv zeta.
  split; [by vm_compute |]. split; [by vm_compute |]. split; [by vm_compute |].
  split; [done |]. split.
  { intros Hclaim.
    destruct (Hclaim 1%positive (mkBet 7 1 "number" "3abc" 10 pending 0)
                eq_refl eq_refl eq_refl)
      as (g' & b' & Hg' & Hb' & _ & Hiff & _).
    vm_compute in Hg'. vm_compute in Hb'.
    injection Hg' as <-. injection Hb' as <-.
    destruct Hiff as [Hmatch _].
    destruct (Hmatch eq_refl) as [(_ & v & Hv & Hsel) | [(Ht & _) | (Ht & _)]];
      [| discriminate Ht | discriminate Ht].
    cbn in Hv. injection Hv as <-. vm_compute in Hsel. discriminate. }
  split; [by vm_compute |]. split; [by vm_compute |]. split; [done |].
  intros Hclaim.
  destruct (Hclaim 1%positive (mkBet 7 1 "number" "7" 0 pending 0)
              eq_refl eq_refl eq_refl)
    as (g' & b' & Hg' & Hb' & _ & Hiff & _).
  vm_compute in Hg'. vm_compute in Hb'.
  injection Hg' as <-. injection Hb' as <-.
  destruct Hiff as [Hmatch _].
  destruct (Hmatch eq_refl) as [(_ & v & Hv & Hsel) | [(Ht & _) | (Ht & _)]];
    [| discriminate Ht | discriminate Ht].
  cbn in Hv. injection Hv as <-. vm_compute in Hsel. discriminate.
Qed.

(** C1, amended.  Every wager that is pending on the round when settlement
    runs is afterwards stored with a terminal result, [win] or [loss] and
    never [pending], and with its other fields kept; its payout is the stake
    times the multiplier of its category (9 for the number, 2 for the
    colour, 2 for the size) when it is won and 0 when it is lost.  A wager
    whose selector equals the outcome under the rule of its category is
    won.  A wager on the number category is won exactly when [parseInt] of
    its selector is the outcome value, so a selector with digits in front
    wins as well; when the selector of a wager on the number category is the
    numeral of a value, and for every wager on the colour or the size, the
    wager is won exactly when the selector equals the outcome.  For such a
    wager with a stake other than zero the payout is the stake times the
    multiplier if and only if the selector equals the outcome. *)
Theorem settlement_resolves_every_pending_wager
    (rev : Revision) (now : Z) (random : Q) (gid : ObjectId) (g : Game)
    (s : State) (id : ObjectId) (b : Bet) :
  bets s !! id = Some b → gameId b = gid → result b = pending →
  let s' := endGameAndProcessBets rev now random (gid, g) s in
  ∃ g' b',
    games s' !! gid = Some g' ∧ status g' = completed ∧
    bets s' !! id = Some b' ∧
    (userId b', gameId b', betType b', betValue b', amount b') =
    (userId b, gameId b, betType b, betValue b, amount b) ∧
    (result b' = win ∨ result b' = loss) ∧ result b' ≠ pending ∧
    (result b' = win → payout b' = amount b * multiplier (betType b)) ∧
    (result b' = loss → payout b' = 0) ∧
    (selector_matches b g' → result b' = win) ∧
    (betType b = "number" →
     (result b' = win ↔
      ∃ v, JS.parseInt (betValue b) = Some v ∧ resultNumber g' = Some v)) ∧
    (names_a_value b → (result b' = win ↔ selector_matches b g')) ∧
    (names_a_value b → amount b ≠ 0 →
     (payout b' = amount b * multiplier (betType b) ↔ selector_matches b g')).
Proof.
  intros Hb Hg Hr s'.
  set (n := compute_resultNumber (fixedResult g) random).
  exists (ended_game now random g),
         (settle n (compute_resultColor n) (compute_resultSize n) b).
  assert (selector_matches b (ended_game now random g) →
          wins n (compute_resultColor n) (compute_resultSize n) b = true) as Hmw.
  { by apply matching_selector_wins. }
  assert (names_a_value b →
          wins n (compute_resultColor n) (compute_resultSize n) b = true →
          selector_matches b (ended_game now random g)) as Hwm.
  { by apply winning_selector_matches. }
  assert (betType b = "number" →
          wins n (compute_resultColor n) (compute_resultSize n) b = true ↔
          ∃ v, JS.parseInt (betValue b) = Some v ∧
               resultNumber (ended_game now random g) = Some v) as Hparse.
  { intros Ht. rewrite wins_number by done. split.
    - intros Hp. by exists n.
    - intros (v & Hp & Hv). cbn in Hv. injection Hv as <-. exact Hp. }
  assert (0 < multiplier (betType b)) as Hpos.
  { unfold multiplier. repeat destruct (String.eqb _ _); lia. }
  split.
  { subst s'. rewrite endGame_games. unfold _id. simpl. apply lookup_insert_eq. }
  split; [done |].
  split.
  { subst s'. by rewrite (endGame_bets_pending rev now random (gid, g) s id b). }
  split; [done |].
  rewrite settle_result, settle_payout, judge_multiplier.
  destruct (wins n (compute_resultColor n) (compute_resultSize n) b) eqn:Hw.
  - repeat split; auto; try done.
    + intros _. by apply Hparse.
  - assert (¬ selector_matches b (ended_game now random g)) as Hm.
    { intros Hm. apply Hmw in Hm. discriminate. }
    repeat split; auto; try done.
    + intros Hex. apply Hparse in Hex; [discriminate | done].
    + intros Heq. exfalso. nia.
Qed.

Lemma settlement_resolves_every_pending_wager_witness :
  let b := mkBet 7 1 "number" "3" 10 pending 0 in
  let s' := endGameAndProcessBets games_js 1000 (1 # 2) (1%positive, demo_game)
              demo_state in
  ∃ g' b',
    games s' !! 1%positive = Some g' ∧ status g' = completed ∧
    bets s' !! 1%positive = Some b' ∧
    (userId b', gameId b', betType b', betValue b', amount b') =
    (7%positive, 1%positive, "number", "3", 10) ∧
    (result b' = win ∨ result b' = loss) ∧ result b' ≠ pending ∧
    (result b' = win → payout b' = 10 * multiplier "number") ∧
    (result b' = loss → payout b' = 0) ∧
    (selector_matches b g' → result b' = win) ∧
    ("number" = "number" →
     (result b' = win ↔
      ∃ v, JS.parseInt "3" = Some v ∧ resultNumber g' = Some v)) ∧
    (names_a_value b → (result b' = win ↔ selector_matches b g')) ∧
    (names_a_value b → 10 ≠ 0 →
     (payout b' = 10 * multiplier "number" ↔ selector_matches b g')).
Proof.
  apply (settlement_resolves_every_pending_wager games_js 1000 (1 # 2) 1%positive
           demo_game demo_state 1%positive (mkBet 7 1 "number" "3" 10 pending 0));
    reflexivity.
Defined.

(** The wager of user 7 in [demo_state], with the selector [3] on the
    number category, names a value and equals the outcome 3 of round 1. *)
Example selector_3_matches_outcome_3 :
  names_a_value (mkBet 7 1 "number" "3" 10 pending 0) ∧
  selector_matches (mkBet 7 1 "number" "3" 10 pending 0)
    (ended_game 1000 (1 # 2) demo_game) ∧
  ¬ selector_matches (mkBet 7 1 "number" "3abc" 10 pending 0)
    (ended_game 1000 (1 # 2) demo_game).
Proof.
  split; [| split].
  - intros _. by exists 3.
  - left. split; [done |]. by exists 3.
  - intros [(_ & v & Hv & Hsel) | [(Ht & _) | (Ht & _)]];
      [| discriminate Ht | discriminate Ht].
    cbn in Hv. injection Hv as <-. vm_compute in Hsel. discriminate.
Qed.

(** Scenario D of the specification: a stake of 10 on the number 3, the
    outcome 3, the payout 90, credited once. *)
Example scenario_D :
  let s' := endGameAndProcessBets games_js 1000 (1 # 2) (1%positive, demo_game)
              demo_state in
  bets s' !! 1%positive = Some (mkBet 7 1 "number" "3" 10 win 90) ∧
  wallets s' !! 7%positive = Some 190 ∧
  filter (λ t, tx_userId t = 7%positive) (transactions s') =
  [mkTransaction 7 tx_win 90 "Won $90 from number bet on 3"].
Proof. vm_compute. done. Qed.

(** C3. Settlement is idempotent on wagers and money: a second run on the
    same round, whatever the clock, the draw and the copy of the round's
    document it is given, finds no pending wager of the round, and leaves
    every wager, every wallet and the ledger of transactions as the first
    run left them. *)
Theorem settlement_idempotent
    (rev rev' : Revision) (now now' : Z) (random random' : Q)
    (game game' : ObjectId * Game) (s : State) :
  _id game' = _id game →
  let s1 := endGameAndProcessBets rev now random game s in
  let s2 := endGameAndProcessBets rev' now' random' game' s1 in
  find_pending_bets (_id game) (bets s1) = [] ∧
  bets s2 = bets s1 ∧ wallets s2 = wallets s1 ∧
  transactions s2 = transactions s1.
Proof.
  intros Hid s1 s2.
  pose proof (endGame_no_pending rev now random game s) as Hnone.
  fold s1 in Hnone. split; [exact Hnone |].
  subst s2. unfold endGameAndProcessBets at 1 2 3.
  cbn [bets wallets transactions console_log set_games].
  rewrite Hid, Hnone. done.
Qed.

Lemma settlement_idempotent_witness :
  let game' := (1%positive, ended_game 1000 (1 # 2) demo_game) in
  let s1 := endGameAndProcessBets games_js 1000 (1 # 2) (1%positive, demo_game)
              demo_state in
  let s2 := endGameAndProcessBets games_js 2000 (7 # 10) game' s1 in
  find_pending_bets 1%positive (bets s1) = [] ∧
  bets s2 = bets s1 ∧ wallets s2 = wallets s1 ∧
  transactions s2 = transactions s1.
Proof.
  apply (settlement_idempotent games_js games_js 1000 2000 (1 # 2) (7 # 10)
           (1%positive, demo_game)
           (1%positive, ended_game 1000 (1 # 2) demo_game) demo_state).
  reflexivity.
Defined.

(** C8, as stated, fails: user 8 of [demo_state] wins on green and has no
    wallet record.  The wager is stored as won with payout 10, no wallet is
    credited, and the console shows the two usual lines only. *)
Lemma won_without_credit_unreported :
  let s' := endGameAndProcessBets games_js 1000 (1 # 2) (1%positive, demo_game)
              demo_state in
  bets s' !! 2%positive = Some (mkBet 8 1 "color" "green" 5 win 10) ∧
  wallets s' !! 8%positive = None ∧
  console s' = ["Game #1 ended with result: 3 (green, small)";
                "Processed 3 bets for game #1"] ∧
  ¬ won_credited_or_reported games_js 1000 (1 # 2) (1%positive, demo_game)
      demo_state.
Proof.
  split; [by vm_compute |]. split; [by vm_compute |]. split; [by vm_compute |].
  intros Hclaim.
  destruct (Hclaim 2%positive (mkBet 8 1 "color" "green" 5 pending 0)
              (mkBet 8 1 "color" "green" 5 win 10)
              eq_refl eq_refl eq_refl eq_refl eq_refl)
    as [(bal & Hbal & _) | Hlog].
  - vm_compute in Hbal. discriminate.
  - apply Hlog. by vm_compute.
Qed.

(** C8, amended.  A pending wager of the round that wins is stored as won,
    never as lost, with its payout, and a win transaction of that amount is
    written to the ledger.  The wallet of its user is credited when the
    wallet record exists: its balance grows by exactly the user's winnings
    of this settlement.  When the record is absent the credit is skipped:
    the user still has no wallet, the wager stays won, and nothing but the
    two usual lines reaches the console. *)
Theorem won_wager_credit
    (rev : Revision) (now : Z) (random : Q) (game : ObjectId * Game)
    (s : State) (id : ObjectId) (b : Bet) :
  bets s !! id = Some b → gameId b = _id game → result b = pending →
  let s' := endGameAndProcessBets rev now random game s in
  let n := compute_resultNumber (fixedResult game.2) random in
  let color := compute_resultColor n in
  let size := compute_resultSize n in
  wins n color size b = true →
  ∃ b',
    bets s' !! id = Some b' ∧ result b' = win ∧
    payout b' = amount b * multiplier (betType b) ∧
    mkTransaction (userId b) tx_win (payout b')
      (win_description rev (gameNumber game.2) b') ∈ transactions s' ∧
    wallets s' !! userId b =
    (λ bal, bal + winnings n color size (userId b)
                    (find_pending_bets (_id game) (bets s)))
    <$> wallets s !! userId b ∧
    (wallets s !! userId b = None → wallets s' !! userId b = None) ∧
    console s' = console s ++ settlement_lines now random game s.
Proof.
  intros Hb Hg Hr s' n color size Hw.
  exists (settle n color size b).
  split. { by apply endGame_bets_pending. }
  rewrite settle_result, settle_payout, judge_multiplier, Hw.
  split; [done |]. split; [done |].
  split.
  { subst s'. rewrite endGame_transactions. apply elem_of_app. right.
    pose proof (win_transactions_elem rev (gameNumber game.2) n color size
                  (find_pending_bets (_id game) (bets s)) id b) as Hin.
    rewrite settle_payout, judge_multiplier, Hw in Hin. apply Hin; [| done].
    by apply find_pending_bets_spec. }
  split. { apply endGame_wallets. }
  split. { intros Hnone. subst s'. by rewrite endGame_wallets, Hnone. }
  apply endGame_console.
Qed.

Lemma won_wager_credit_witness :
  let s' := endGameAndProcessBets games_js 1000 (1 # 2) (1%positive, demo_game)
              demo_state in
  ∃ b',
    bets s' !! 2%positive = Some b' ∧ result b' = win ∧
    payout b' = 5 * multiplier "color" ∧
    mkTransaction 8 tx_win (payout b') (win_description games_js 1 b')
    ∈ transactions s' ∧
    wallets s' !! 8%positive =
    (λ bal, bal + winnings 3 "green" "small" 8
                    (find_pending_bets 1 (bets demo_state)))
    <$> wallets demo_state !! 8%positive ∧
    (wallets demo_state !! 8%positive = None → wallets s' !! 8%positive = None) ∧
    console s' =
    console demo_state ++
    settlement_lines 1000 (1 # 2) (1%positive, demo_game) demo_state.
Proof.
  apply (won_wager_credit games_js 1000 (1 # 2) (1%positive, demo_game)
           demo_state 2%positive (mkBet 8 1 "color" "green" 5 pending 0));
    reflexivity.
Defined.

(** ** Claims on result generation *)

(** C4. When the round carries an override at closing, the stored outcome
    value is that override and the draw has no influence: any two draws
    leave the same state.  When the override is unset, the value is
    [Math.floor(random * 10)]: a digit of 0..9 for a draw of [[0, 1)], and
    the digit [n] exactly for the draws of [[n/10, (n+1)/10)], ten intervals
    of one length. *)
Theorem override_takes_precedence
    (rev : Revision) (now : Z) (random : Q) (gid : ObjectId) (g : Game)
    (s : State) :
  let s' := endGameAndProcessBets rev now random (gid, g) s in
  (∀ v, fixedResult g = Some v →
     resultNumber <$> games s' !! gid = Some (Some v) ∧
     ∀ random', endGameAndProcessBets rev now random' (gid, g) s = s') ∧
  (fixedResult g = None →
     resultNumber <$> games s' !! gid = Some (Some (JS.Math_floor (random * 10))) ∧
     ((0 <= random)%Q → (random < 1)%Q → 0 <= JS.Math_floor (random * 10) <= 9) ∧
     ∀ n, JS.Math_floor (random * 10) = n ↔
          (inject_Z n <= random * 10 ∧ random * 10 < inject_Z (n + 1))%Q).
Proof.
  intros s'. split.
  - intros v Hfix. split.
    + subst s'. rewrite endGame_games. unfold _id. simpl.
      rewrite lookup_insert_eq. simpl. by rewrite Hfix.
    + intros random'. subst s'.
      unfold endGameAndProcessBets, ended_game. simpl. by rewrite Hfix.
  - intros Hfix. split; [| split].
    + subst s'. rewrite endGame_games. unfold _id. simpl.
      rewrite lookup_insert_eq. simpl. by rewrite Hfix.
    + apply draw_range.
    + apply draw_interval.
Qed.

Lemma override_takes_precedence_witness :
  (resultNumber <$>
     games (endGameAndProcessBets monitored_js 1000 (1 # 2) (1%positive, demo_game)
              demo_state) !! 1%positive = Some (Some 3)) ∧
  0 <= JS.Math_floor ((72 # 100) * 10) <= 9.
Proof.
  destruct (override_takes_precedence monitored_js 1000 (1 # 2) 1%positive
              demo_game demo_state) as (Hset & _).
  destruct (override_takes_precedence monitored_js 1000 (72 # 100) 1%positive
              (mkGame 1 betting 0 None false None None None None 0) demo_state)
    as (_ & Hunset).
  split.
  - apply (Hset 3). reflexivity.
  - apply Hunset; [reflexivity | discriminate | reflexivity].
Defined.

(** Scenario B of the specification: the administrator fixes 7 on an open
    round; at closing the outcome is 7, green and big, whatever the draw. *)
Example scenario_B (random : Q) :
  let open := mkGame 4 betting 0 None false None None None None 0 in
  let s := set_games (save (1%positive, open)) demo_state in
  let s1 := (put_fix 1 (Some 7) s).2 in
  let s2 := (put_end monitored_js 60000 random 1 s1).2 in
  games s2 !! 1%positive =
  Some (mkGame 4 completed 0 (Some 60000) true (Some 7) (Some 7)
          (Some "green") (Some "big") 0).
Proof. by vm_compute. Qed.

(** C5. The classes are functions of the value.  The colour is green for 0
    and for every odd value, and red for every even value other than 0; the
    size is big from 5 upwards and small below; two rounds closed with the
    same value, at any time and from any draw, store the same colour and the
    same size. *)
Theorem classification_of_value (n : Z) :
  (n = 0 → compute_resultColor n = "green") ∧
  (Z.odd n = true → compute_resultColor n = "green") ∧
  (n ≠ 0 → Z.even n = true → compute_resultColor n = "red") ∧
  (5 <= n → compute_resultSize n = "big") ∧
  (n < 5 → compute_resultSize n = "small") ∧
  (∀ now1 now2 random1 random2 g1 g2,
     resultNumber (ended_game now1 random1 g1) = Some n →
     resultNumber (ended_game now2 random2 g2) = Some n →
     resultColor (ended_game now1 random1 g1) = Some (compute_resultColor n) ∧
     resultColor (ended_game now2 random2 g2) = Some (compute_resultColor n) ∧
     resultSize (ended_game now1 random1 g1) = Some (compute_resultSize n) ∧
     resultSize (ended_game now2 random2 g2) = Some (compute_resultSize n)).
Proof.
  repeat split.
  - intros Hn. apply compute_resultColor_green. by left.
  - intros Hn. apply compute_resultColor_green. by right.
  - apply compute_resultColor_red.
  - apply compute_resultSize_big.
  - apply compute_resultSize_small.
  - simpl in *. congruence.
  - simpl in *. congruence.
  - simpl in *. congruence.
  - simpl in *. congruence.
Qed.

Lemma classification_of_value_witness :
  compute_resultColor 0 = "green" ∧ compute_resultColor 7 = "green" ∧
  compute_resultColor 4 = "red" ∧ compute_resultSize 7 = "big" ∧
  compute_resultSize 4 = "small" ∧
  resultColor (ended_game 10 (31 # 100) demo_game) = Some (compute_resultColor 3) ∧
  resultSize (ended_game 20 (99 # 100) demo_game) = Some (compute_resultSize 3).
Proof.
  destruct (classification_of_value 0) as (Hzero & _).
  destruct (classification_of_value 7) as (_ & Hodd & _ & Hbig & _).
  destruct (classification_of_value 4) as (_ & _ & Heven & _ & Hsmall & _).
  destruct (classification_of_value 3) as (_ & _ & _ & _ & _ & Hsame).
  destruct (Hsame 10 20 (31 # 100) (99 # 100) demo_game demo_game)
    as (Hc & _ & _ & Hs); [reflexivity | reflexivity |].
  split; [apply Hzero; reflexivity |].
  split; [apply Hodd; reflexivity |].
  split; [apply Heven; [discriminate | reflexivity] |].
  split; [apply Hbig; lia |].
  split; [apply Hsmall; lia |].
  split; [exact Hc | exact Hs].
Defined.

(** ** Round creation *)

Section Greatest.

Context {A : Type} (key : A → Z).

Lemma greatest_elem (l : list A) (x : A) : greatest key l = Some x → x ∈ l.
Proof.
  revert x. induction l as [| y l IH]; intros x; simpl; [done |].
  destruct (greatest key l) as [z |] eqn:Hz.
  - destruct (key z <? key y); intros [= <-]; [left | right; by apply IH].
  - intros [= <-]. left.
Qed.

Lemma greatest_is_Some (l : list A) : l ≠ [] → is_Some (greatest key l).
Proof.
  destruct l as [| y l]; [done |]. intros _. simpl.
  destruct (greatest key l) as [z |]; [destruct (key z <? key y) |]; eauto.
Qed.

Lemma greatest_upper_bound (l : list A) (x y : A) :
  greatest key l = Some x → y ∈ l → key y <= key x.
Proof.
  revert x. induction l as [| z l IH]; intros x; simpl.
  { intros _ Hy. by apply elem_of_nil in Hy. }
  destruct (greatest key l) as [w |] eqn:Hw.
  - intros Hx Hy. specialize (IH w eq_refl).
    destruct (Z.ltb_spec (key w) (key z)); injection Hx as <-;
      apply elem_of_cons in Hy as [-> | Hy]; try lia.
    + specialize (IH Hy). lia.
    + by apply IH.
  - intros [= <-] Hy. apply elem_of_cons in Hy as [-> | Hy]; [lia |].
    destruct l; [by apply elem_of_nil in Hy | simpl in Hw].
    by destruct (greatest key l) as [? |]; [destruct (_ <? _) |].
Qed.

End Greatest.

Lemma find_active_games_spec (m : gmap ObjectId Game) id g :
  (id, g) ∈ find_active_games m ↔ m !! id = Some g ∧ active g.
Proof.
  unfold find_active_games. rewrite list_elem_of_filter, elem_of_map_to_list.
  simpl. tauto.
Qed.

Lemma findOne_active_game_Some (m : gmap ObjectId Game) (d : ObjectId * Game) :
  findOne_active_game m = Some d →
  m !! d.1 = Some d.2 ∧ active d.2 ∧
  ∀ id g, m !! id = Some g → active g → createdAt g <= createdAt d.2.
Proof.
  intros Hd. unfold findOne_active_game in Hd.
  pose proof (greatest_elem _ _ _ Hd) as Hin. destruct d as [id g].
  apply find_active_games_spec in Hin as [Hm Ha].
  repeat split; [done.. |].
  intros id' g' Hm' Ha'.
  apply (greatest_upper_bound _ _ _ (id', g') Hd).
  by apply find_active_games_spec.
Qed.

Lemma findOne_active_game_is_Some (s : State) :
  has_active_game s → is_Some (findOne_active_game (games s)).
Proof.
  intros (id & g & Hm & Ha). apply greatest_is_Some.
  intros Hnil.
  assert ((id, g) ∈ find_active_games (games s)) as Hin
      by by apply find_active_games_spec.
  rewrite Hnil in Hin. by apply elem_of_nil in Hin.
Qed.

Lemma createNewGameSafely_active (rev : Revision) (now : Z) (s : State) :
  has_active_game s →
  games (createNewGameSafely rev now s).2 = games s ∧
  (gameCreationInProgress s = true → (createNewGameSafely rev now s).1 = None) ∧
  (gameCreationInProgress s = false →
   (createNewGameSafely rev now s).1 = findOne_active_game (games s)).
Proof.
  intros Hact. unfold createNewGameSafely.
  destruct (gameCreationInProgress s) eqn:Hflag; [done |].
  simpl. destruct (findOne_active_game_is_Some s Hact) as [d Hd].
  rewrite Hd. done.
Qed.

(** C6, as stated, fails: with round 1 open for betting and no creation in
    flight, the call returns round 1, not the absent value. *)
Lemma creation_returns_the_active_round :
  has_active_game demo_state ∧
  (createNewGameSafely games_js 1000 demo_state).1 = Some (1%positive, demo_game) ∧
  (createNewGameSafely monitored_js 1000 demo_state).1 ≠ None.
Proof.
  split; [| split].
  - exists 1%positive, demo_game. split; [done | by right].
  - by vm_compute.
  - by vm_compute.
Qed.

(** C6, amended.  While some round is waiting or betting, a call of
    [createNewGameSafely] creates no round: the collection of rounds is
    unchanged.  It returns the absent value when a creation is in flight,
    and otherwise the active round itself, the most recently created one.
    Hence any sequence of creation attempts made while a round is active
    creates no round at all. *)
Theorem creation_is_noop_while_active
    (rev : Revision) (now : Z) (nows : list Z) (s : State) :
  has_active_game s →
  let r := (createNewGameSafely rev now s).1 in
  let s' := (createNewGameSafely rev now s).2 in
  games s' = games s ∧
  (gameCreationInProgress s = true → r = None) ∧
  (gameCreationInProgress s = false →
   ∃ d, r = Some d ∧ games s !! d.1 = Some d.2 ∧ active d.2 ∧
        ∀ id g, games s !! id = Some g → active g → createdAt g <= createdAt d.2) ∧
  games (creation_attempts rev nows s) = games s.
Proof.
  intros Hact r s'.
  destruct (createNewGameSafely_active rev now s Hact) as (Hg & Hbusy & Hfree).
  split; [done |]. split; [done |]. split.
  - intros Hflag. destruct (findOne_active_game_is_Some s Hact) as [d Hd].
    exists d. subst r. rewrite (Hfree Hflag). split; [done |].
    by apply findOne_active_game_Some.
  - clear r s' Hg Hbusy Hfree. revert s Hact.
    induction nows as [| t nows IH]; intros s Hact; [done |].
    unfold creation_attempts in *. simpl.
    destruct (createNewGameSafely_active rev t s Hact) as (Hg & _).
    rewrite IH; [done |].
    destruct Hact as (id & g & Hm & Ha). exists id, g. by rewrite Hg.
Qed.

Lemma creation_is_noop_while_active_witness :
  games (createNewGameSafely monitored_js 1000 demo_state).2 = games demo_state ∧
  (gameCreationInProgress demo_state = true →
   (createNewGameSafely monitored_js 1000 demo_state).1 = None) ∧
  (gameCreationInProgress demo_state = false →
   ∃ d, (createNewGameSafely monitored_js 1000 demo_state).1 = Some d ∧
        games demo_state !! d.1 = Some d.2 ∧ active d.2 ∧
        ∀ id g, games demo_state !! id = Some g → active g →
                createdAt g <= createdAt d.2) ∧
  games (creation_attempts monitored_js [1000; 3000; 5000] demo_state) =
  games demo_state.
Proof.
  apply (creation_is_noop_while_active monitored_js 1000 [1000; 3000; 5000]
           demo_state).
  exists 1%positive, demo_game. split; [reflexivity | right; reflexivity].
Defined.

(** ** Placing a bet *)

Lemma findOne_bet_None (uid gid : ObjectId) (s : State) :
  findOne_bet uid gid (bets s) = None ↔ ¬ already_bet uid gid s.
Proof.
  unfold findOne_bet, already_bet. rewrite head_None. split.
  - intros Hnil (id & b & Hm & Hu & Hg).
    apply (filter_nil_not_elem_of _ _ (id, b) Hnil); [done |].
    by apply elem_of_map_to_list.
  - intros Hnone.
    destruct (filter _ (map_to_list (bets s))) as [| [id b] l] eqn:Hl; [done |].
    exfalso. apply Hnone. exists id, b.
    assert ((id, b) ∈ filter (λ d : ObjectId * Bet, userId d.2 = uid ∧ gameId d.2 = gid)
                         (map_to_list (bets s))) as Hin by (rewrite Hl; left).
    apply list_elem_of_filter in Hin as [[Hu Hg] Hin].
    by apply elem_of_map_to_list in Hin.
Qed.

Lemma fresh_bet_id (s : State) : bets s !! fresh (dom (bets s)) = None.
Proof. apply not_elem_of_dom, is_fresh. Qed.

(** The state after an accepted bet. *)
Lemma post_bet_accepted (rev : Revision) (uid gid : ObjectId)
    (type value : string) (amt : Z) (s : State) (game : Game) (balance : Z) :
  games s !! gid = Some game → status game = betting →
  ¬ already_bet uid gid s →
  wallets s !! uid = Some balance → amt <= balance →
  let id := fresh (dom (bets s)) in
  let bet := mkBet uid gid type value amt pending 0 in
  post_bet rev uid gid type value amt s =
  (json ("Bet placed successfully", (id, bet)),
   add_transaction
     (mkTransaction uid tx_bet (- amt) (bet_description rev (gameNumber game) bet))
     (set_wallets <[uid := balance - amt]> (set_bets <[id := bet]> s))).
Proof.
  intros Hgame Hst Hnobet Hw Hle id bet. unfold post_bet.
  rewrite Hgame. rewrite decide_True by done.
  apply findOne_bet_None in Hnobet. rewrite Hnobet, Hw.
  destruct (Z.ltb_spec balance amt); [lia | done].
Qed.

(** C9. [/bet] fails, creating no wager and leaving the state (and with it
    every balance) as it was, exactly when the round is not open for
    betting, or the account already has a wager on the round, or the
    balance does not cover the stake; otherwise it stores the wager, pending
    and under a new [_id], and debits the stake from the wallet. *)
Theorem bet_fails_exactly_when_refused
    (rev : Revision) (uid gid : ObjectId) (type value : string) (amt : Z)
    (s : State) :
  let r := (post_bet rev uid gid type value amt s).1 in
  let s' := (post_bet rev uid gid type value amt s).2 in
  (bet_refused uid gid amt s ↔ ∃ message, r = error 400 message) ∧
  (bet_refused uid gid amt s → s' = s) ∧
  (¬ bet_refused uid gid amt s →
   ∃ id balance,
     r = json ("Bet placed successfully",
               (id, mkBet uid gid type value amt pending 0)) ∧
     bets s !! id = None ∧
     bets s' = <[id := mkBet uid gid type value amt pending 0]> (bets s) ∧
     wallets s !! uid = Some balance ∧
     wallets s' = <[uid := balance - amt]> (wallets s) ∧
     games s' = games s).
Proof.
  intros r s'.
  destruct (games s !! gid) as [game |] eqn:Hgame.
  2: { assert (bet_refused uid gid amt s) as Href.
       { left. unfold not_open. by rewrite Hgame. }
       assert (post_bet rev uid gid type value amt s =
               (error 400 "Game is not accepting bets", s)) as Hrun.
       { unfold post_bet. by rewrite Hgame. }
       subst r s'. rewrite Hrun. simpl.
       split; [split; eauto |]. split; [done | tauto]. }
  destruct (decide (status game = betting)) as [Hst | Hst].
  2: { assert (bet_refused uid gid amt s) as Href.
       { left. unfold not_open. rewrite Hgame. simpl. congruence. }
       assert (post_bet rev uid gid type value amt s =
               (error 400 "Game is not accepting bets", s)) as Hrun.
       { unfold post_bet. rewrite Hgame. by rewrite decide_False. }
       subst r s'. rewrite Hrun. simpl.
       split; [split; eauto |]. split; [done | tauto]. }
  destruct (findOne_bet uid gid (bets s)) as [existing |] eqn:Hbet.
  { assert (bet_refused uid gid amt s) as Href.
    { right. left. destruct (decide (already_bet uid gid s)) as [| Hno]; [done |].
      apply findOne_bet_None in Hno. congruence. }
    assert (post_bet rev uid gid type value amt s =
            (error 400 "You have already placed a bet for this game", s)) as Hrun.
    { unfold post_bet. rewrite Hgame. rewrite decide_True by done. by rewrite Hbet. }
    subst r s'. rewrite Hrun. simpl.
    split; [split; eauto |]. split; [done | tauto]. }
  apply findOne_bet_None in Hbet.
  destruct (wallets s !! uid) as [balance |] eqn:Hw.
  2: { assert (bet_refused uid gid amt s) as Href.
       { right. right. intros (bal & Hbal & _). congruence. }
       assert (post_bet rev uid gid type value amt s =
               (error 400 "Insufficient balance", s)) as Hrun.
       { unfold post_bet. rewrite Hgame. rewrite decide_True by done.
         apply findOne_bet_None in Hbet. by rewrite Hbet, Hw. }
       subst r s'. rewrite Hrun. simpl.
       split; [split; eauto |]. split; [done | tauto]. }
  destruct (Z.lt_ge_cases balance amt) as [Hlt | Hge].
  { assert (bet_refused uid gid amt s) as Href.
    { right. right. intros (bal & Hbal & Hle). rewrite Hw in Hbal.
      injection Hbal as <-. lia. }
    assert (post_bet rev uid gid type value amt s =
            (error 400 "Insufficient balance", s)) as Hrun.
    { unfold post_bet. rewrite Hgame. rewrite decide_True by done.
      apply findOne_bet_None in Hbet. rewrite Hbet, Hw.
      destruct (Z.ltb_spec balance amt); [done | lia]. }
    subst r s'. rewrite Hrun. simpl.
    split; [split; eauto |]. split; [done | tauto]. }
  assert (¬ bet_refused uid gid amt s) as Hok.
  { intros [Hno | [Hdup | Hins]].
    - apply Hno. rewrite Hgame. simpl. by rewrite Hst.
    - by apply Hbet.
    - apply Hins. by exists balance. }
  pose proof (post_bet_accepted rev uid gid type value amt s game balance
                Hgame Hst Hbet Hw Hge) as Hrun.
  simpl in Hrun. subst r s'. rewrite Hrun. simpl.
  split; [| split].
  - split; [done |]. intros [message Hmsg]. discriminate.
  - done.
  - intros _. exists (fresh (dom (bets s))), balance.
    repeat split; try done. apply fresh_bet_id.
Qed.

Lemma bet_fails_exactly_when_refused_witness :
  let s := set_wallets <[10%positive := 30]> demo_state in
  (post_bet games_js 7 1 "size" "small" 10 s).2 = s ∧
  ∃ id balance,
    (post_bet games_js 10 1 "size" "small" 10 s).1 =
    json ("Bet placed successfully", (id, mkBet 10 1 "size" "small" 10 pending 0)) ∧
    bets s !! id = None ∧
    bets (post_bet games_js 10 1 "size" "small" 10 s).2 =
    <[id := mkBet 10 1 "size" "small" 10 pending 0]> (bets s) ∧
    wallets s !! 10%positive = Some balance ∧
    wallets (post_bet games_js 10 1 "size" "small" 10 s).2 =
    <[10%positive := balance - 10]> (wallets s) ∧
    games (post_bet games_js 10 1 "size" "small" 10 s).2 = games s.
Proof.
  intros s.
  destruct (bet_fails_exactly_when_refused games_js 7 1 "size" "small" 10 s)
    as (_ & Hrefused & _).
  destruct (bet_fails_exactly_when_refused games_js 10 1 "size" "small" 10 s)
    as (_ & _ & Haccepted).
  split.
  - apply Hrefused. right. left.
    exists 1%positive, (mkBet 7 1 "number" "3" 10 pending 0).
    split; [reflexivity | split; reflexivity].
  - apply Haccepted. intros [Hno | [Hdup | Hins]].
    + apply Hno. reflexivity.
    + revert Hdup. apply findOne_bet_None. reflexivity.
    + apply Hins. exists 30. split; [reflexivity | lia].
Defined.

(** C10. [/bet] does not check that the stake is positive.  For an open
    round, an account without a wager on it, a wallet with a balance of
    zero or more and a stake of zero or less, the balance test passes, the
    wager is stored with that stake, and the new balance, the old one minus
    the stake, is the old one for a stake of zero and strictly more for a
    negative stake. *)
Theorem nonpositive_stake_is_accepted
    (rev : Revision) (uid gid : ObjectId) (type value : string) (amt : Z)
    (s : State) (game : Game) (balance : Z) :
  games s !! gid = Some game → status game = betting →
  ¬ already_bet uid gid s →
  wallets s !! uid = Some balance → 0 <= balance → amt <= 0 →
  let r := (post_bet rev uid gid type value amt s).1 in
  let s' := (post_bet rev uid gid type value amt s).2 in
  ∃ id,
    r = json ("Bet placed successfully",
              (id, mkBet uid gid type value amt pending 0)) ∧
    bets s !! id = None ∧
    bets s' !! id = Some (mkBet uid gid type value amt pending 0) ∧
    wallets s' !! uid = Some (balance - amt) ∧
    (amt = 0 → wallets s' !! uid = Some balance) ∧
    (amt < 0 → ∃ balance', wallets s' !! uid = Some balance' ∧ balance < balance').
Proof.
  intros Hgame Hst Hnobet Hw Hbal Hamt r s'.
  assert (amt <= balance) as Hle by lia.
  pose proof (post_bet_accepted rev uid gid type value amt s game balance
                Hgame Hst Hnobet Hw Hle) as Hrun.
  simpl in Hrun. subst r s'. rewrite Hrun. simpl.
  exists (fresh (dom (bets s))).
  rewrite !lookup_insert_eq.
  repeat split; try done.
  - apply fresh_bet_id.
  - intros ->. f_equal. lia.
  - intros Hneg. exists (balance - amt). split; [done | lia].
Qed.

Lemma nonpositive_stake_is_accepted_witness :
  let s := set_wallets <[10%positive := 30]>
             (mkState {[ 1%positive := demo_game ]} ∅ ∅ [] false false false false [] None)
  in
  ∃ id,
    (post_bet monitored_js 10 1 "color" "red" (-50) s).1 =
    json ("Bet placed successfully", (id, mkBet 10 1 "color" "red" (-50) pending 0)) ∧
    bets s !! id = None ∧
    bets (post_bet monitored_js 10 1 "color" "red" (-50) s).2 !! id =
    Some (mkBet 10 1 "color" "red" (-50) pending 0) ∧
    wallets (post_bet monitored_js 10 1 "color" "red" (-50) s).2 !! 10%positive =
    Some (30 - -50) ∧
    (-50 = 0 →
     wallets (post_bet monitored_js 10 1 "color" "red" (-50) s).2 !! 10%positive =
     Some 30) ∧
    (-50 < 0 →
     ∃ balance',
       wallets (post_bet monitored_js 10 1 "color" "red" (-50) s).2 !! 10%positive =
       Some balance' ∧ 30 < balance').
Proof.
  intros s.
  apply (nonpositive_stake_is_accepted monitored_js 10 1 "color" "red" (-50) s
           demo_game 30).
  - reflexivity.
  - reflexivity.
  - apply findOne_bet_None. reflexivity.
  - reflexivity.
  - lia.
  - lia.
Defined.

(** A stake of -50 on an open round: the wallet of 30 becomes 80. *)
Example negative_stake_raises_balance :
  let s := set_wallets <[10%positive := 30]>
             (mkState {[ 1%positive := demo_game ]} ∅ ∅ [] false false false false [] None)
  in
  wallets (post_bet monitored_js 10 1 "color" "red" (-50) s).2 !! 10%positive = Some 80 ∧
  transactions (post_bet monitored_js 10 1 "color" "red" (-50) s).2 =
  [mkTransaction 10 tx_bet 50 "Bet $-50 on color: red (Game #1)"].
Proof. by vm_compute. Qed.

(** ** Closed rounds and the administrative routes *)

(** The monitored revision refuses to end a round that is completed, and
    leaves the state as it is. *)
Lemma put_end_monitored_refuses_completed (now : Z) (random : Q) (id : ObjectId)
    (s : State) (g : Game) :
  games s !! id = Some g → status g = completed →
  put_end monitored_js now random id s = (error 400 "Game is already completed", s).
Proof. intros Hg Hst. unfold put_end. by rewrite Hg, Hst. Qed.

(** So does [/fix]: a completed round takes no override. *)
Lemma put_fix_refuses_completed (fixed : option Z) (id : ObjectId)
    (s : State) (g : Game) :
  games s !! id = Some g → status g = completed →
  put_fix id fixed s = (error 400 "Cannot fix result of completed game", s).
Proof. intros Hg Hst. unfold put_fix. rewrite Hg. by rewrite decide_True. Qed.

(** C2. In [server/routes/games.js] the route [/:id/end] has no test of the
    status: on round 1 of [closed_state], completed at time 1000 with the
    outcome 3, green and small, it answers that the game ended, and the
    round is stored with the end time 2000 and the outcome 7, green and big.
    The wager that won 90 on the number 3 stays won. *)
Theorem force_end_overwrites_closed_round :
  let run := put_end games_js 2000 (7 # 10) 1 closed_state in
  games closed_state !! 1%positive = Some closed_game ∧
  status closed_game = completed ∧
  run.1 = json ("Game ended successfully",
                (1%positive,
                 mkGame 1 completed 0 (Some 2000) false None (Some 7)
                   (Some "green") (Some "big") 0)) ∧
  games run.2 !! 1%positive =
  Some (mkGame 1 completed 0 (Some 2000) false None (Some 7) (Some "green")
          (Some "big") 0) ∧
  bets run.2 !! 1%positive = Some (mkBet 7 1 "number" "3" 10 win 90) ∧
  put_end monitored_js 2000 (7 # 10) 1 closed_state =
  (error 400 "Game is already completed", closed_state).
Proof. by vm_compute. Qed.

(** ** Rounds along the runs of the server *)

Lemma create_attempts_games (rev : Revision) (fuel : nat)
    (attempts nextGameNumber now : Z) (s : State) :
  let run := create_attempts rev fuel attempts nextGameNumber now s in
  (run.1 = None ∧ games run.2 = games s) ∨
  (∃ num, run.1 = Some (new_Game (games s) num now) ∧
          games run.2 = save (new_Game (games s) num now) (games s)).
Proof.
  revert attempts s. induction fuel as [| fuel IH]; intros attempts s; simpl.
  { by left. }
  case_decide.
  - destruct (maxAttempts rev <=? attempts + 1); [by left |].
    apply (IH (attempts + 1)
             (console_log
                ("Duplicate key error, retrying with gameNumber "
                 +:+ JS.show (nextGameNumber + (attempts + 1))) s)).
  - right. by exists (nextGameNumber + attempts).
Qed.

(** What [createNewGameSafely] does to the rounds: nothing, or one round
    more, waiting, under an [_id] that was free. *)
Lemma createNewGameSafely_games (rev : Revision) (now : Z) (s : State) :
  let run := createNewGameSafely rev now s in
  (run.1 = None ∧ games run.2 = games s) ∨
  (∃ d, run.1 = Some d ∧ games run.2 = games s ∧
        games s !! d.1 = Some d.2 ∧ active d.2) ∨
  (∃ num, run.1 = Some (new_Game (games s) num now) ∧
          games run.2 = save (new_Game (games s) num now) (games s) ∧
          findOne_active_game (games s) = None).
Proof.
  unfold createNewGameSafely.
  destruct (gameCreationInProgress s); [by left |]. simpl.
  destruct (findOne_active_game (games s)) as [d |] eqn:Hd.
  { right. left. exists d. simpl.
    apply findOne_active_game_Some in Hd as (? & ? & _). done. }
  match goal with
  | |- context [create_attempts ?r ?f ?a ?n ?t ?st] =>
      pose proof (create_attempts_games r f a n t st) as H;
      destruct (create_attempts r f a n t st) as [res st']
  end.
  simpl in *. destruct H as [[-> ->] | (num & -> & ->)]; [by left |].
  right. right. by exists num.
Qed.

Lemma new_Game_fresh (m : gmap ObjectId Game) (num now : Z) :
  m !! (new_Game m num now).1 = None.
Proof. apply not_elem_of_dom, is_fresh. Qed.

Lemma post_bet_games (rev : Revision) (uid gid : ObjectId) (type value : string)
    (amt : Z) (s : State) :
  games (post_bet rev uid gid type value amt s).2 = games s.
Proof.
  unfold post_bet.
  destruct (games s !! gid) as [game |]; [| done].
  case_decide; [| done].
  destruct (findOne_bet _ _ _); [done |].
  destruct (wallets s !! uid) as [balance |]; [| done].
  by destruct (balance <? amt).
Qed.

Lemma end_all_games_other (rev : Revision) (now : Z) (randoms : nat → Q)
    (l : list (ObjectId * Game)) (i : nat) (s : State) (id : ObjectId) :
  id ∉ l.*1 → games (end_all rev now randoms i l s) !! id = games s !! id.
Proof.
  revert i s. induction l as [| d l IH]; intros i s Hout; [done |].
  simpl. rewrite IH.
  - rewrite endGame_games. apply lookup_insert_ne.
    intros Heq. apply Hout. simpl. rewrite <- Heq. left.
  - intros Hin. apply Hout. simpl. by right.
Qed.

Lemma end_all_games_closed (rev : Revision) (now : Z) (randoms : nat → Q)
    (l : list (ObjectId * Game)) (i : nat) (s : State) (id : ObjectId) (g : Game) :
  games (end_all rev now randoms i l s) !! id = Some g →
  games s !! id = Some g ∨ (status g = completed ∧ id ∈ l.*1).
Proof.
  revert i s. induction l as [| d l IH]; intros i s; simpl; [by left |].
  intros Hg. apply IH in Hg as [Hg | [Hst Hin]].
  - rewrite endGame_games in Hg.
    destruct (decide (_id d = id)) as [<- | Hne].
    + rewrite lookup_insert_eq in Hg. injection Hg as <-.
      right. split; [done | left].
    + rewrite lookup_insert_ne in Hg by done. by left.
  - right. split; [done | by right].
Qed.

Lemma no_outcome_insert_completed (m : gmap ObjectId Game) id g :
  no_outcome_before_closed m → status g = completed →
  no_outcome_before_closed (<[id := g]> m).
Proof.
  intros Hinv Hst id' g' Hg Ha.
  destruct (decide (id = id')) as [<- | Hne].
  - rewrite lookup_insert_eq in Hg. injection Hg as <-. destruct Ha; congruence.
  - rewrite lookup_insert_ne in Hg by done. by apply (Hinv id').
Qed.

Lemma no_outcome_insert_clean (m : gmap ObjectId Game) id g :
  no_outcome_before_closed m →
  (resultNumber g = None ∧ resultColor g = None ∧ resultSize g = None ∧
   endTime g = None) →
  no_outcome_before_closed (<[id := g]> m).
Proof.
  intros Hinv Hclean id' g' Hg Ha.
  destruct (decide (id = id')) as [<- | Hne].
  - rewrite lookup_insert_eq in Hg. by injection Hg as <-.
  - rewrite lookup_insert_ne in Hg by done. by apply (Hinv id').
Qed.

Lemma createNewGameSafely_no_outcome (rev : Revision) (now : Z) (s : State) :
  no_outcome_before_closed (games s) →
  no_outcome_before_closed (games (createNewGameSafely rev now s).2).
Proof.
  intros Hinv.
  destruct (createNewGameSafely_games rev now s)
    as [[_ ->] | [(d & _ & -> & _) | (num & _ & -> & _)]]; [done.. |].
  by apply no_outcome_insert_clean.
Qed.

Lemma createNewGameSafely_keeps (rev : Revision) (now : Z) (s : State) id g :
  games s !! id = Some g → games (createNewGameSafely rev now s).2 !! id = Some g.
Proof.
  intros Hg.
  destruct (createNewGameSafely_games rev now s)
    as [[_ ->] | [(d & _ & -> & _) | (num & _ & -> & _)]]; [done.. |].
  unfold save, _id. rewrite lookup_insert_ne; [done |].
  intros Heq. rewrite <- Heq, new_Game_fresh in Hg. done.
Qed.

Lemma endGame_no_outcome (rev : Revision) (now : Z) (random : Q)
    (game : ObjectId * Game) (s : State) :
  no_outcome_before_closed (games s) →
  no_outcome_before_closed (games (endGameAndProcessBets rev now random game s)).
Proof.
  intros Hinv. rewrite endGame_games. by apply no_outcome_insert_completed.
Qed.

Lemma maybe_open_games (rev : Revision) (now : Z) (game : ObjectId * Game)
    (s : State) :
  let run := maybe_open rev now game s in
  (run.1 = game ∧ games run.2 = games s) ∨
  (status game.2 = waiting ∧ status run.1.2 = betting ∧ run.1.1 = game.1 ∧
   (resultNumber run.1.2, resultColor run.1.2, resultSize run.1.2, endTime run.1.2) =
   (resultNumber game.2, resultColor game.2, resultSize game.2, endTime game.2) ∧
   games run.2 = <[game.1 := run.1.2]> (games s)).
Proof.
  unfold maybe_open. case_decide as Hst; [| by left].
  destruct (startTime game.2 <=? now); [| by left].
  right. by destruct rev.
Qed.

Lemma maybe_close_games (rev : Revision) (now : Z) (random : Q)
    (game : ObjectId * Game) (s : State) :
  let run := maybe_close rev now random game s in
  games run.2 = games s ∨
  (status game.2 = betting ∧
   games run.2 = <[game.1 := ended_game now random game.2]> (games s)).
Proof.
  unfold maybe_close. case_decide as Hst; [| by left].
  destruct (startTime game.2 + bettingDuration s <=? now); [| by left].
  right. split; [done |].
  destruct rev; simpl; [| apply endGame_games].
  unfold scheduleNextGameCreation.
  destruct (continuousGamesEnabled _); simpl; apply endGame_games.
Qed.

(** The transition check of the scheduler on the active round. *)
Lemma transitions_no_outcome (rev : Revision) (now : Z) (random : Q)
    (game : ObjectId * Game) (s : State) :
  no_outcome_before_closed (games s) →
  games s !! game.1 = Some game.2 → active game.2 →
  no_outcome_before_closed
    (games (maybe_close rev now random (maybe_open rev now game s).1
              (maybe_open rev now game s).2).2).
Proof.
  intros Hinv Hg Ha.
  assert (no_outcome_before_closed (games (maybe_open rev now game s).2)) as Hinv1.
  { destruct (maybe_open_games rev now game s)
      as [[_ ->] | (_ & _ & _ & Hsame & ->)]; [done |].
    apply no_outcome_insert_clean; [done |].
    destruct (Hinv _ _ Hg Ha) as (Hn & Hc & Hs & He).
    injection Hsame as -> -> -> ->. done. }
  destruct (maybe_close_games rev now random (maybe_open rev now game s).1
              (maybe_open rev now game s).2) as [-> | [_ ->]]; [done |].
  by apply no_outcome_insert_completed.
Qed.

Lemma transitions_keep_others (rev : Revision) (now : Z) (random : Q)
    (game : ObjectId * Game) (s : State) id g :
  games s !! id = Some g → id ≠ game.1 →
  games (maybe_close rev now random (maybe_open rev now game s).1
           (maybe_open rev now game s).2).2 !! id = Some g.
Proof.
  intros Hg Hne.
  assert (games (maybe_open rev now game s).2 !! id = Some g ∧
          (maybe_open rev now game s).1.1 = game.1) as [Hg1 Hid].
  { destruct (maybe_open_games rev now game s)
      as [[-> ->] | (_ & _ & -> & _ & ->)]; [done |].
    by rewrite lookup_insert_ne. }
  destruct (maybe_close_games rev now random (maybe_open rev now game s).1
              (maybe_open rev now game s).2) as [-> | [_ ->]]; [done |].
  rewrite lookup_insert_ne; [done | by rewrite Hid].
Qed.

(** Every request keeps the rounds free of an outcome until they are
    closed, in both revisions. *)
Lemma step_no_outcome_before_closed (rev : Revision) (s s' : State) :
  step rev s s' →
  no_outcome_before_closed (games s) → no_outcome_before_closed (games s').
Proof.
  intros Hstep Hinv. destruct Hstep.
  - by apply createNewGameSafely_no_outcome.
  - by rewrite post_bet_games.
  - unfold put_end. destruct (games s !! id) as [game |] eqn:Hgame; [| done].
    pose proof (endGame_no_outcome rev now random (id, game) s Hinv).
    by destruct rev, (status game).
  - unfold put_fix. destruct (games s !! id) as [game |] eqn:Hgame; [| done].
    case_decide as Hc; [done |]. simpl. unfold save, _id. simpl.
    apply no_outcome_insert_clean; [done |]. simpl.
    apply (Hinv id game Hgame). unfold active. destruct (status game); tauto.
  - unfold post_start_continuous.
    set (s3 := match rev with
               | games_js => _
               | monitored_js => _
               end).
    assert (games s3 = updateMany_completed now (games s)) as Hs3
        by by destruct rev.
    assert (∀ id g, games s3 !! id = Some g → status g = completed) as Hclosed.
    { intros id g. rewrite Hs3. unfold updateMany_completed.
      rewrite lookup_fmap. destruct (games s !! id) as [g0 |]; [| done].
      simpl. intros [= <-]. case_decide as Ha; [done |].
      unfold active in Ha. destruct (status g0); tauto. }
    assert (no_outcome_before_closed (games s3)) as Hinv3.
    { intros id g Hg [Ha | Ha]; apply Hclosed in Hg; congruence. }
    pose proof (createNewGameSafely_no_outcome rev now s3 Hinv3) as Hinv4.
    pose proof (createNewGameSafely_games rev now s3) as Hrun.
    destruct (createNewGameSafely rev now s3) as [[game |] s4]; simpl in *;
      [| done].
    destruct rev; simpl; [| done]. unfold save, _id. simpl.
    apply no_outcome_insert_clean; [done |]. simpl.
    destruct Hrun as [[? _] | [(d & [= ->] & _ & Hd & Ha) | (num & [= ->] & _)]];
      [done | | done].
    apply Hclosed in Hd. destruct Ha; congruence.
  - unfold post_stop_continuous. simpl.
    intros id g Hg Ha.
    apply end_all_games_closed in Hg as [Hg | [Hst _]].
    + by apply (Hinv id).
    + destruct Ha; congruence.
  - unfold get_current. destruct rev; [| done].
    destruct (findOne_active_game (games s)) as [game |] eqn:Hgame.
    + apply findOne_active_game_Some in Hgame as (Hg & Ha & _).
      pose proof (transitions_no_outcome games_js now random game s Hinv Hg Ha).
      destruct (maybe_open games_js now game s) as [game1 s1].
      cbn [fst snd] in *.
      by destruct (maybe_close games_js now random game1 s1) as [game2 s2].
    + destruct (continuousGamesEnabled s); [| done]. simpl.
      by apply createNewGameSafely_no_outcome.
  - unfold monitor_tick. destruct (continuousGamesEnabled s); [| done].
    destruct (findOne_active_game (games s)) as [game |] eqn:Hgame.
    + apply findOne_active_game_Some in Hgame as (Hg & Ha & _).
      pose proof (transitions_no_outcome monitored_js now random game s Hinv Hg Ha).
      by destruct (maybe_open monitored_js now game s) as [game1 s1].
    + by apply createNewGameSafely_no_outcome.
  - unfold timeout_fires.
    pose proof (createNewGameSafely_no_outcome rev now s Hinv).
    destruct rev; [| done]. by destruct (continuousGamesEnabled s).
Qed.

(** In the monitored revision a closed round is final: no request and no
    timer changes its document. *)
Lemma step_monitored_closed_final (s s' : State) (id : ObjectId) (g : Game) :
  step monitored_js s s' →
  games s !! id = Some g → status g = completed → games s' !! id = Some g.
Proof.
  intros Hstep Hg Hst. destruct Hstep.
  - by apply createNewGameSafely_keeps.
  - by rewrite post_bet_games.
  - unfold put_end. destruct (games s !! id0) as [game |] eqn:Hgame; [| done].
    destruct (status game) eqn:Hstatus; [| | done]; cbn -[endGameAndProcessBets].
    all: rewrite endGame_games; unfold _id; simpl;
      rewrite lookup_insert_ne; [done | intros <-; congruence].
  - unfold put_fix. destruct (games s !! id0) as [game |] eqn:Hgame; [| done].
    case_decide as Hc; [done |]. simpl. unfold save, _id. simpl.
    rewrite lookup_insert_ne; [done | intros <-; congruence].
  - unfold post_start_continuous.
    set (s3 := startGameMonitoring _).
    assert (games s3 !! id = Some g) as Hg3.
    { subst s3. simpl. unfold updateMany_completed. rewrite lookup_fmap, Hg. simpl.
      rewrite decide_False; [done |]. unfold active. rewrite Hst.
      intros [|]; discriminate. }
    pose proof (createNewGameSafely_keeps monitored_js now s3 id g Hg3) as Hrun.
    by destruct (createNewGameSafely monitored_js now s3) as [[game |] s4].
  - unfold post_stop_continuous. simpl.
    rewrite end_all_games_other; [done |].
    intros Hin. apply list_elem_of_fmap in Hin as ([id' g'] & -> & Hin).
    apply find_active_games_spec in Hin as [Hg' Ha]. simpl in *.
    rewrite Hg in Hg'. injection Hg' as <-.
    destruct Ha; congruence.
  - done.
  - unfold monitor_tick. destruct (continuousGamesEnabled s); [| done].
    destruct (findOne_active_game (games s)) as [game |] eqn:Hgame.
    + apply findOne_active_game_Some in Hgame as (Hg' & Ha & _).
      assert (id ≠ game.1) as Hne.
      { intros ->. rewrite Hg in Hg'. injection Hg' as ->. destruct Ha; congruence. }
      pose proof (transitions_keep_others monitored_js now random game s id g Hg Hne).
      by destruct (maybe_open monitored_js now game s) as [game1 s1].
    + by apply createNewGameSafely_keeps.
  - by apply createNewGameSafely_keeps.
Qed.

(** ** Starting and stopping continuous games *)

Lemma create_attempts_bets (rev : Revision) (fuel : nat)
    (attempts nextGameNumber now : Z) (s : State) :
  let s' := (create_attempts rev fuel attempts nextGameNumber now s).2 in
  bets s' = bets s ∧ wallets s' = wallets s ∧ transactions s' = transactions s.
Proof.
  revert attempts s. induction fuel as [| fuel IH]; intros attempts s; [done |].
  simpl. case_decide; [| done].
  destruct (maxAttempts rev <=? attempts + 1); [done |].
  destruct (IH (attempts + 1)
              (console_log
                 ("Duplicate key error, retrying with gameNumber "
                  +:+ JS.show (nextGameNumber + (attempts + 1))) s))
    as (-> & -> & ->).
  done.
Qed.

Lemma createNewGameSafely_bets (rev : Revision) (now : Z) (s : State) :
  let s' := (createNewGameSafely rev now s).2 in
  bets s' = bets s ∧ wallets s' = wallets s ∧ transactions s' = transactions s.
Proof.
  unfold createNewGameSafely.
  destruct (gameCreationInProgress s); [done |].
  destruct (findOne_active_game _); [done |].
  match goal with
  | |- context [create_attempts ?r ?f ?a ?n ?t ?st] =>
      pose proof (create_attempts_bets r f a n t st) as H;
      destruct (create_attempts r f a n t st) as [res st']
  end.
  simpl in *. exact H.
Qed.

(** [/start-continuous] settles nothing: wagers, wallets and ledger are
    those of before, whatever rounds it closes. *)
Lemma start_continuous_settles_nothing (rev : Revision) (now : Z) (s : State) :
  let s' := (post_start_continuous rev now s).2 in
  bets s' = bets s ∧ wallets s' = wallets s ∧ transactions s' = transactions s.
Proof.
  unfold post_start_continuous.
  match goal with
  | |- context [createNewGameSafely ?r ?t ?st] =>
      pose proof (createNewGameSafely_bets r t st) as H;
      destruct (createNewGameSafely r t st) as [[game |] st']
  end; simpl in H; destruct rev; simpl in *; exact H.
Qed.

(** The rounds that [/start-continuous] closes get an end time and nothing
    else: their outcome stays as it was. *)
Lemma updateMany_completed_lookup (now : Z) (m : gmap ObjectId Game) id g :
  m !! id = Some g → active g →
  updateMany_completed now m !! id =
  Some (mkGame (gameNumber g) completed (startTime g) (Some now) (isFixed g)
          (fixedResult g) (resultNumber g) (resultColor g) (resultSize g)
          (createdAt g)).
Proof.
  intros Hm Ha. unfold updateMany_completed.
  rewrite lookup_fmap, Hm. simpl. by rewrite decide_True.
Qed.

(** C7. [/start-continuous] on [demo_state], where round 1 is open with
    three pending wagers: the round is stored as completed at time 5000
    with no outcome, its three wagers are still pending, no wallet is
    credited and no transaction is written, and round 2 is created.
    [/stop-continuous] on the same state settles the three wagers. *)
Theorem start_continuous_leaves_wagers_pending :
  let s' := (post_start_continuous monitored_js 5000 demo_state).2 in
  let s'' := (post_stop_continuous monitored_js 5000 (λ _, 1 # 2) demo_state).2 in
  games s' !! 1%positive =
  Some (mkGame 1 completed 0 (Some 5000) true (Some 3) None None None 0) ∧
  games s' !! 2%positive =
  Some (mkGame 2 waiting 10000 None false None None None None 5000) ∧
  length (find_pending_bets 1 (bets s')) = 3%nat ∧
  bets s' = bets demo_state ∧ wallets s' = wallets demo_state ∧
  transactions s' = [] ∧
  (post_start_continuous games_js 5000 demo_state).2 =
  set_games (save (2%positive,
                   mkGame 2 betting 5000 None false None None None None 5000))
    (set_timers false false s') ∧
  games s'' !! 1%positive =
  Some (mkGame 1 completed 0 (Some 5000) true (Some 3) (Some 3) (Some "green")
          (Some "small") 0) ∧
  find_pending_bets 1 (bets s'') = [] ∧
  wallets s'' !! 7%positive = Some 190.
Proof. by vm_compute. Qed.

(** ** Scenarios *)

(** [parseInt] on selectors: the digits, and some strings that are no
    decimal numeral but read as a number all the same. *)
Example parseInt_selectors :
  JS.parseInt <$> ["0"; "3"; "9"; " 3"; "+3"; "3abc"; "0x3"; "red"; ""] =
  [Some 0; Some 3; Some 9; Some 3; Some 3; Some 3; Some 3; None; None].
Proof. reflexivity. Qed.

(** Creation when no round is active: round number 2, waiting, due to open
    5 seconds later, and the flag is released. *)
Example creation_after_close :
  createNewGameSafely monitored_js 7000 closed_state =
  (Some (2%positive, mkGame 2 waiting 12000 None false None None None None 7000),
   console_log "Successfully created game #2"
     (set_games <[2%positive :=
                    mkGame 2 waiting 12000 None false None None None None 7000]>
        closed_state)).
Proof. by vm_compute. Qed.

(** Scenario A: an open round without override, a duration of 60 seconds;
    the read of [/current] at 61 seconds closes it with the drawn outcome
    and resolves its wagers; a wager attempted then is refused. *)
Example scenario_A :
  let open := mkGame 1 betting 0 None false None None None None 0 in
  let s := set_games (save (1%positive, open)) demo_state in
  let early := get_current games_js 59000 (45 # 100) s in
  let late := get_current games_js 61000 (45 # 100) s in
  early = (json (Some (1%positive, open)), s) ∧
  late.1 = json (Some (1%positive,
                       mkGame 1 completed 0 (Some 61000) false None (Some 4)
                         (Some "red") (Some "small") 0)) ∧
  find_pending_bets 1 (bets late.2) = [] ∧
  (post_bet games_js 10 1 "color" "red" 5 (set_wallets <[10%positive := 30]> late.2)).1
  = error 400 "Game is not accepting bets".
Proof. by vm_compute. Qed.

(** Scenario E: stopping continuous games while round 1 is open closes and
    settles it, and no round is active afterwards. *)
Example scenario_E :
  let s := set_continuousGamesEnabled true demo_state in
  let s' := (post_stop_continuous games_js 9000 (λ _, 1 # 2) s).2 in
  continuousGamesEnabled s' = false ∧
  find_pending_bets 1 (bets s') = [] ∧
  (get_current games_js 9500 (1 # 2) s').1 = json None.
Proof. by vm_compute. Qed.

(** * Further properties of the routes *)

(** ** Creation of rounds *)

Lemma findOne_active_game_None (s : State) :
  ¬ has_active_game s → findOne_active_game (games s) = None.
Proof.
  intros Hnone. unfold findOne_active_game.
  destruct (find_active_games (games s)) as [| [id g] l] eqn:Hl; [done |].
  exfalso. apply Hnone. exists id, g. apply find_active_games_spec.
  rewrite Hl. left.
Qed.

Lemma findOne_last_game_bound (m : gmap ObjectId Game) (d : ObjectId * Game) :
  findOne_last_game m = Some d →
  m !! d.1 = Some d.2 ∧ ∀ id g, m !! id = Some g → gameNumber g <= gameNumber d.2.
Proof.
  intros Hd. unfold findOne_last_game in Hd. split.
  - apply greatest_elem in Hd. destruct d. by apply elem_of_map_to_list.
  - intros id g Hg.
    apply (greatest_upper_bound _ _ _ (id, g) Hd). by apply elem_of_map_to_list.
Qed.

Lemma findOne_last_game_None (m : gmap ObjectId Game) :
  findOne_last_game m = None → m = ∅.
Proof.
  intros Hnone. apply map_to_list_empty_iff.
  destruct (map_to_list m) as [| d l] eqn:Hl; [done |].
  unfold findOne_last_game in Hnone.
  destruct (greatest_is_Some (λ d : ObjectId * Game, gameNumber d.2) (map_to_list m))
    as [x Hx]; [by rewrite Hl | congruence].
Qed.

Lemma not_duplicate_key_above (num : Z) (m : gmap ObjectId Game) :
  (∀ id g, m !! id = Some g → gameNumber g < num) → ¬ duplicate_key num m.
Proof.
  intros Hbound Hdup. unfold duplicate_key in Hdup.
  apply Exists_exists in Hdup as ([id g] & Hin & Heq).
  apply elem_of_map_to_list in Hin. apply Hbound in Hin. simpl in Heq. lia.
Qed.

Lemma create_attempts_first (rev : Revision) (fuel : nat) (next now : Z) (s : State) :
  ¬ duplicate_key (next + 0) (games s) →
  create_attempts rev (S fuel) 0 next now s =
  (Some (new_Game (games s) (next + 0) now),
   console_log ("Successfully created game #" +:+ JS.show (next + 0))
     (set_games (save (new_Game (games s) (next + 0) now)) s)).
Proof. intros Hfree. simpl. by rewrite decide_False. Qed.

(** The number that [createNewGameSafely] gives to the next round. *)
Lemma next_gameNumber_spec (m : gmap ObjectId Game) :
  let next := match findOne_last_game m with
              | Some lastGame => gameNumber lastGame.2 + 1
              | None => 1
              end in
  (∀ id g, m !! id = Some g → gameNumber g < next) ∧
  (m = ∅ → next = 1) ∧
  (m ≠ ∅ → ∃ id g, m !! id = Some g ∧ next = gameNumber g + 1).
Proof.
  destruct (findOne_last_game m) as [d |] eqn:Hd; simpl.
  - apply findOne_last_game_bound in Hd as [Hin Hmax]. split; [| split].
    + intros id g Hg. specialize (Hmax id g Hg). lia.
    + intros ->. by rewrite lookup_empty in Hin.
    + intros _. by exists d.1, d.2.
  - apply findOne_last_game_None in Hd. subst m. split; [| split]; [| done..].
    intros id g Hg. by rewrite lookup_empty in Hg.
Qed.

Lemma createNewGameSafely_fresh_round (rev : Revision) (now : Z) (s : State) :
  ¬ has_active_game s → gameCreationInProgress s = false →
  let run := createNewGameSafely rev now s in
  ∃ id g,
    run.1 = Some (id, g) ∧ games s !! id = None ∧
    games run.2 = <[id := g]> (games s) ∧
    g = mkGame (gameNumber g) waiting (now + 5000) None false None None None None now ∧
    (∀ id' g', games s !! id' = Some g' → gameNumber g' < gameNumber g) ∧
    (games s = ∅ → gameNumber g = 1) ∧
    (games s ≠ ∅ → ∃ id' g', games s !! id' = Some g' ∧ gameNumber g = gameNumber g' + 1) ∧
    gameCreationInProgress run.2 = false.
Proof.
  intros Hnone Hflag run. subst run. unfold createNewGameSafely.
  rewrite Hflag. cbn [games set_gameCreationInProgress].
  rewrite (findOne_active_game_None s Hnone).
  destruct (next_gameNumber_spec (games s)) as (Hbound & Hempty & Hsucc).
  set (next := match findOne_last_game (games s) with
               | Some lastGame => gameNumber lastGame.2 + 1
               | None => 1
               end) in *.
  assert (Z.to_nat (maxAttempts rev) = S (Nat.pred (Z.to_nat (maxAttempts rev)))) as ->
      by by destruct rev.
  rewrite create_attempts_first.
  2: { apply not_duplicate_key_above. simpl. intros id g Hg.
       specialize (Hbound id g Hg). lia. }
  simpl. eexists _, _. split; [reflexivity |].
  split; [apply not_elem_of_dom, is_fresh |].
  split; [reflexivity |]. split; [reflexivity |]. simpl.
  replace (next + 0) with next by lia. done.
Qed.

(** X1. With no round waiting or betting and no creation in flight,
    [createNewGameSafely] stores exactly one new round under a free [_id]:
    waiting, due to open 5 seconds later, without override or outcome, and
    numbered above every round there is: 1 in an empty collection, and the
    successor of the greatest number otherwise.  The flag of the creation in
    flight is released. *)
Theorem creation_makes_the_next_round (rev : Revision) (now : Z) (s : State) :
  ¬ has_active_game s → gameCreationInProgress s = false →
  let run := createNewGameSafely rev now s in
  ∃ id g,
    run.1 = Some (id, g) ∧ games s !! id = None ∧
    games run.2 = <[id := g]> (games s) ∧
    g = mkGame (gameNumber g) waiting (now + 5000) None false None None None None now ∧
    (∀ id' g', games s !! id' = Some g' → gameNumber g' < gameNumber g) ∧
    (games s = ∅ → gameNumber g = 1) ∧
    (games s ≠ ∅ → ∃ id' g', games s !! id' = Some g' ∧ gameNumber g = gameNumber g' + 1) ∧
    gameCreationInProgress run.2 = false.
Proof. apply createNewGameSafely_fresh_round. Qed.

Lemma creation_makes_the_next_round_witness :
  let run := createNewGameSafely games_js 7000 closed_state in
  ∃ id g,
    run.1 = Some (id, g) ∧ games closed_state !! id = None ∧
    games run.2 = <[id := g]> (games closed_state) ∧
    g = mkGame (gameNumber g) waiting (7000 + 5000) None false None None None None 7000 ∧
    (∀ id' g', games closed_state !! id' = Some g' → gameNumber g' < gameNumber g) ∧
    (games closed_state = ∅ → gameNumber g = 1) ∧
    (games closed_state ≠ ∅ →
     ∃ id' g', games closed_state !! id' = Some g' ∧ gameNumber g = gameNumber g' + 1) ∧
    gameCreationInProgress run.2 = false.
Proof.
  apply (creation_makes_the_next_round games_js 7000 closed_state); [| reflexivity].
  intros (id & g & Hg & Ha).
  assert (g = closed_game) as ->.
  { destruct (decide (id = 1%positive)) as [-> | Hne].
    - vm_compute in Hg. by injection Hg as <-.
    - unfold closed_state in Hg. simpl in Hg.
      by rewrite lookup_singleton_ne in Hg. }
  destruct Ha as [Ha | Ha]; discriminate Ha.
Defined.

Lemma no_active_game_by_query (s : State) :
  find_active_games (games s) = [] → ¬ has_active_game s.
Proof.
  intros Hnil (id & g & Hg & Ha).
  assert ((id, g) ∈ find_active_games (games s)) as Hin
      by by apply find_active_games_spec.
  rewrite Hnil in Hin. by apply elem_of_nil in Hin.
Qed.

Lemma create_attempts_flags (rev : Revision) (fuel : nat)
    (attempts nextGameNumber now : Z) (s : State) :
  let s' := (create_attempts rev fuel attempts nextGameNumber now s).2 in
  gameCreationInProgress s' = gameCreationInProgress s ∧
  continuousGamesEnabled s' = continuousGamesEnabled s.
Proof.
  revert attempts s. induction fuel as [| fuel IH]; intros attempts s; [done |].
  simpl. case_decide; [| done].
  destruct (maxAttempts rev <=? attempts + 1); [done |].
  apply (IH (attempts + 1)
           (console_log
              ("Duplicate key error, retrying with gameNumber "
               +:+ JS.show (nextGameNumber + (attempts + 1))) s)).
Qed.

Lemma createNewGameSafely_flags (rev : Revision) (now : Z) (s : State) :
  let s' := (createNewGameSafely rev now s).2 in
  gameCreationInProgress s' = gameCreationInProgress s ∧
  continuousGamesEnabled s' = continuousGamesEnabled s.
Proof.
  unfold createNewGameSafely.
  destruct (gameCreationInProgress s) eqn:Hflag; [done |].
  destruct (findOne_active_game _); [done |].
  match goal with
  | |- context [create_attempts ?r ?f ?a ?n ?t ?st] =>
      pose proof (create_attempts_flags r f a n t st) as H;
      destruct (create_attempts r f a n t st) as [res st']
  end.
  simpl in *. by destruct H as [_ ->].
Qed.

(** A call that finds no creation in flight returns a round. *)
Lemma createNewGameSafely_returns (rev : Revision) (now : Z) (s : State) :
  gameCreationInProgress s = false → is_Some (createNewGameSafely rev now s).1.
Proof.
  intros Hflag.
  destruct (findOne_active_game (games s)) as [d |] eqn:Hd.
  - unfold createNewGameSafely. rewrite Hflag. simpl. rewrite Hd. by eexists.
  - assert (¬ has_active_game s) as Hnone.
    { intros Hact. apply findOne_active_game_is_Some in Hact as [d Hd']. congruence. }
    destruct (createNewGameSafely_fresh_round rev now s Hnone Hflag)
      as (id & g & -> & _).
    by eexists.
Qed.

(** X2. [/create] answers that it failed exactly when another creation is
    in flight; otherwise it answers "created", be the round new or the one
    that was already waiting or betting, in which case no round is added. *)
Theorem create_route_fails_only_in_flight (rev : Revision) (now : Z) (s : State) :
  let run := post_create rev now s in
  (gameCreationInProgress s = true ↔ run.1 = error 400 "Failed to create game") ∧
  (gameCreationInProgress s = false →
   ∃ game, run.1 = json ("Game created successfully", game) ∧
           games run.2 !! game.1 = Some game.2 ∧
           (has_active_game s → games run.2 = games s)).
Proof.
  unfold post_create.
  pose proof (createNewGameSafely_returns rev now s) as Hret.
  pose proof (createNewGameSafely_games rev now s) as Hgames.
  destruct (gameCreationInProgress s) eqn:Hflag.
  - assert (createNewGameSafely rev now s =
            (None, console_log "Game creation already in progress, skipping..." s))
      as -> by (unfold createNewGameSafely; by rewrite Hflag).
    simpl. split; [done |]. done.
  - destruct (Hret eq_refl) as [game Hgame].
    pose proof (createNewGameSafely_active rev now s) as Hact.
    destruct (createNewGameSafely rev now s) as [r s']. simpl in *. subst r.
    split; [split; done |]. intros _. exists game. cbn [fst snd].
    split; [done |]. split.
    + destruct Hgames as [[? _] | [(d & [= <-] & -> & Hd & _) | (num & [= <-] & -> & _)]];
        [done | done |].
      unfold save, _id. by rewrite lookup_insert_eq.
    + intros Hactive. by destruct (Hact Hactive) as (-> & _).
Qed.

(** ** Rounds are rewritten in place *)

Lemma round_evolves_refl (g : Game) : round_evolves g g.
Proof. unfold round_evolves. repeat split; lia. Qed.

Lemma rounds_evolve_refl (m : gmap ObjectId Game) : rounds_evolve m m.
Proof.
  intros id. destruct (m !! id); constructor. apply round_evolves_refl.
Qed.

Lemma rounds_evolve_trans (m1 m2 m3 : gmap ObjectId Game) :
  rounds_evolve m1 m2 → rounds_evolve m2 m3 → rounds_evolve m1 m3.
Proof.
  intros H12 H23 id. specialize (H12 id). specialize (H23 id).
  destruct H12 as [g1 g2 (Hn & Hc & Hr) |]; inversion H23 as [? g3 (Hn' & Hc' & Hr') |];
    subst; constructor.
  unfold round_evolves. repeat split; [congruence | congruence | lia].
Qed.

Lemma rounds_evolve_insert (m : gmap ObjectId Game) id g g' :
  m !! id = Some g → round_evolves g g' → rounds_evolve m (<[id := g']> m).
Proof.
  intros Hg Hev id'. destruct (decide (id = id')) as [<- | Hne].
  - rewrite lookup_insert_eq, Hg. by constructor.
  - rewrite lookup_insert_ne by done. apply rounds_evolve_refl.
Qed.

Lemma rounds_evolve_fmap (f : Game → Game) (m : gmap ObjectId Game) :
  (∀ g, round_evolves g (f g)) → rounds_evolve m (f <$> m).
Proof.
  intros Hf id. rewrite lookup_fmap. destruct (m !! id); constructor. apply Hf.
Qed.

Lemma rounds_evolve_lookup (m m' : gmap ObjectId Game) id g :
  rounds_evolve m m' → m !! id = Some g →
  ∃ g', m' !! id = Some g' ∧ round_evolves g g'.
Proof.
  intros Hev Hg. specialize (Hev id). rewrite Hg in Hev.
  inversion Hev as [? g' Hr Heq1 Heq2 |]. by exists g'.
Qed.

Lemma rounds_evolve_lookup_back (m m' : gmap ObjectId Game) id g' :
  rounds_evolve m m' → m' !! id = Some g' →
  ∃ g, m !! id = Some g ∧ round_evolves g g'.
Proof.
  intros Hev Hg. specialize (Hev id). rewrite Hg in Hev.
  inversion Hev as [g ? Hr Heq1 Heq2 |]. by exists g.
Qed.

Lemma snapshot_of_evolve (l : list (ObjectId * Game)) (m m' : gmap ObjectId Game) :
  rounds_evolve m m' → snapshot_of l m → snapshot_of l m'.
Proof.
  intros Hev Hsnap id g Hin. destruct (Hsnap id g Hin) as (g0 & Hg0 & Hn & Hc).
  destruct (rounds_evolve_lookup m m' id g0 Hev Hg0) as (g' & Hg' & Hn' & Hc' & _).
  exists g'. split; [done |]. split; congruence.
Qed.

Lemma endGame_evolves (rev : Revision) (now : Z) (random : Q)
    (game : ObjectId * Game) (s : State) :
  snapshot_of [game] (games s) →
  rounds_evolve (games s) (games (endGameAndProcessBets rev now random game s)).
Proof.
  intros Hsnap. destruct game as [id g].
  destruct (Hsnap id g) as (g0 & Hg0 & Hn & Hc); [left |].
  rewrite endGame_games. eapply rounds_evolve_insert; [exact Hg0 |].
  unfold round_evolves. simpl. repeat split; [done | done |].
  destruct (status g0); simpl; lia.
Qed.

Lemma end_all_evolves (rev : Revision) (now : Z) (randoms : nat → Q)
    (l : list (ObjectId * Game)) (i : nat) (s : State) :
  snapshot_of l (games s) →
  rounds_evolve (games s) (games (end_all rev now randoms i l s)).
Proof.
  revert i s. induction l as [| game l IH]; intros i s Hsnap; simpl.
  { apply rounds_evolve_refl. }
  assert (rounds_evolve (games s)
            (games (endGameAndProcessBets rev now (randoms i) game s))) as Hfirst.
  { apply endGame_evolves. intros id g Hin. apply list_elem_of_singleton in Hin.
    subst game. apply Hsnap. left. }
  eapply rounds_evolve_trans; [exact Hfirst |]. apply IH.
  eapply snapshot_of_evolve; [exact Hfirst |].
  intros id g Hin. apply Hsnap. by right.
Qed.

Lemma snapshot_of_active_games (m : gmap ObjectId Game) :
  snapshot_of (find_active_games m) m.
Proof.
  intros id g Hin. apply find_active_games_spec in Hin as [Hg _]. by exists g.
Qed.

Lemma updateMany_completed_evolves (now : Z) (m : gmap ObjectId Game) :
  rounds_evolve m (updateMany_completed now m).
Proof.
  apply rounds_evolve_fmap. intros g. case_decide; [| apply round_evolves_refl].
  unfold round_evolves. simpl. repeat split; [done.. |].
  destruct (status g); simpl; lia.
Qed.

Lemma updateMany_completed_no_active (now : Z) (m : gmap ObjectId Game) id g :
  updateMany_completed now m !! id = Some g → ¬ active g.
Proof.
  unfold updateMany_completed. rewrite lookup_fmap.
  destruct (m !! id) as [g0 |]; [| done]. simpl. intros [= <-].
  case_decide as Ha; [| done]. intros [|]; discriminate.
Qed.

Lemma transitions_evolve (rev : Revision) (now : Z) (random : Q)
    (game : ObjectId * Game) (s : State) :
  games s !! game.1 = Some game.2 →
  rounds_evolve (games s)
    (games (maybe_close rev now random (maybe_open rev now game s).1
              (maybe_open rev now game s).2).2).
Proof.
  intros Hg.
  assert (rounds_evolve (games s) (games (maybe_open rev now game s).2) ∧
          snapshot_of [(maybe_open rev now game s).1]
            (games (maybe_open rev now game s).2)) as [Hopen Hsnap].
  { destruct (maybe_open_games rev now game s)
      as [[-> ->] | (Hw & Hb & Hid & _ & Hm)].
    - split; [apply rounds_evolve_refl |].
      intros id g Hin. apply list_elem_of_singleton in Hin. subst game.
      by exists g.
    - unfold maybe_open in *. rewrite decide_True in * by done.
      destruct (startTime game.2 <=? now); simpl in *.
      + split.
        * rewrite Hm. eapply rounds_evolve_insert; [exact Hg |].
          unfold round_evolves. simpl. rewrite Hw. simpl. repeat split; lia.
        * intros id g Hin. apply list_elem_of_singleton in Hin.
          injection Hin as -> ->. rewrite Hm. unfold _id.
          rewrite lookup_insert_eq. by eexists.
      + split; [apply rounds_evolve_refl |].
        intros id g Hin. apply list_elem_of_singleton in Hin. subst game.
        by exists g. }
  eapply rounds_evolve_trans; [exact Hopen |].
  destruct (maybe_close_games rev now random (maybe_open rev now game s).1
              (maybe_open rev now game s).2) as [-> | [_ ->]];
    [apply rounds_evolve_refl |].
  destruct (Hsnap (maybe_open rev now game s).1.1 (maybe_open rev now game s).1.2)
    as (g0 & Hg0 & Hn & Hc).
  { destruct (maybe_open rev now game s).1. left. }
  eapply rounds_evolve_insert; [exact Hg0 |].
  unfold round_evolves. simpl. repeat split; [done | done |].
  destruct (status g0); simpl; lia.
Qed.

Lemma create_attempts_rounds (rev : Revision) (fuel : nat)
    (attempts nextGameNumber now : Z) (s : State) :
  let run := create_attempts rev fuel attempts nextGameNumber now s in
  (run.1 = None ∧ games run.2 = games s) ∨
  (∃ g, run.1 = Some (fresh (dom (games s)), g) ∧
        games run.2 = <[fresh (dom (games s)) := g]> (games s) ∧
        status g = waiting ∧ ¬ duplicate_key (gameNumber g) (games s)).
Proof.
  revert attempts s. induction fuel as [| fuel IH]; intros attempts s; simpl.
  { by left. }
  case_decide as Hdup.
  - destruct (maxAttempts rev <=? attempts + 1); [by left |].
    apply (IH (attempts + 1)
             (console_log
                ("Duplicate key error, retrying with gameNumber "
                 +:+ JS.show (nextGameNumber + (attempts + 1))) s)).
  - right. eexists. split; [reflexivity |]. simpl. done.
Qed.

Lemma createNewGameSafely_rounds (rev : Revision) (now : Z) (s : State) :
  let run := createNewGameSafely rev now s in
  (games run.2 = games s ∧
   ∀ d, run.1 = Some d → games s !! d.1 = Some d.2 ∧ active d.2) ∨
  (∃ g, run.1 = Some (fresh (dom (games s)), g) ∧
        games run.2 = <[fresh (dom (games s)) := g]> (games s) ∧
        status g = waiting ∧ ¬ duplicate_key (gameNumber g) (games s) ∧
        ¬ has_active_game s).
Proof.
  unfold createNewGameSafely.
  destruct (gameCreationInProgress s); [by left |]. simpl.
  destruct (findOne_active_game (games s)) as [d |] eqn:Hd.
  { left. simpl. split; [done |]. intros d' [= <-].
    apply findOne_active_game_Some in Hd as (? & ? & _). done. }
  assert (¬ has_active_game s) as Hnone.
  { intros Hact. apply findOne_active_game_is_Some in Hact as [d Hd']. congruence. }
  match goal with
  | |- context [create_attempts ?r ?f ?a ?n ?t ?st] =>
      pose proof (create_attempts_rounds r f a n t st) as H;
      destruct (create_attempts r f a n t st) as [res st']
  end.
  simpl in *. destruct H as [[-> ->] | (g & -> & -> & Hw & Hdup)].
  - left. split; [done |]. intros d [=].
  - right. by exists g.
Qed.

Lemma post_create_state (rev : Revision) (now : Z) (s : State) :
  (post_create rev now s).2 = (createNewGameSafely rev now s).2.
Proof.
  unfold post_create. by destruct (createNewGameSafely rev now s) as [[game |] s'].
Qed.

Lemma no_active_game_lookup (s : State) id g :
  ¬ has_active_game s → games s !! id = Some g → ¬ active g.
Proof. intros Hnone Hg Ha. apply Hnone. by exists id, g. Qed.

Lemma creation_rounds (rev : Revision) (now : Z) (s : State) :
  rounds_evolve (games s) (games (createNewGameSafely rev now s).2) ∨
  ∃ m1 id g,
    rounds_evolve (games s) m1 ∧ m1 !! id = None ∧
    ¬ duplicate_key (gameNumber g) m1 ∧
    (∀ id' g', m1 !! id' = Some g' → ¬ active g') ∧
    games (createNewGameSafely rev now s).2 = <[id := g]> m1.
Proof.
  destruct (createNewGameSafely_rounds rev now s)
    as [[-> _] | (g & _ & -> & _ & Hdup & Hnone)].
  - left. apply rounds_evolve_refl.
  - right. exists (games s), (fresh (dom (games s))), g.
    split; [apply rounds_evolve_refl |].
    split; [apply not_elem_of_dom, is_fresh |]. split; [done |]. split; [| done].
    intros id' g'. by apply no_active_game_lookup.
Qed.

Lemma step_rounds (rev : Revision) (s s' : State) :
  step rev s s' →
  rounds_evolve (games s) (games s') ∨
  ∃ m1 id g,
    rounds_evolve (games s) m1 ∧ m1 !! id = None ∧
    ¬ duplicate_key (gameNumber g) m1 ∧
    (∀ id' g', m1 !! id' = Some g' → ¬ active g') ∧
    games s' = <[id := g]> m1.
Proof.
  pose proof (creation_rounds rev) as Hcreate.
  intros Hstep. destruct Hstep.
  - apply Hcreate.
  - left. rewrite post_bet_games. apply rounds_evolve_refl.
  - left. unfold put_end. destruct (games s !! id) as [game |] eqn:Hgame;
      [| apply rounds_evolve_refl].
    assert (rounds_evolve (games s)
              (games (endGameAndProcessBets rev now random (id, game) s))) as Hend.
    { apply endGame_evolves. intros id' g Hin.
      apply list_elem_of_singleton in Hin. injection Hin as -> ->. by exists game. }
    destruct rev, (status game); try exact Hend. apply rounds_evolve_refl.
  - left. unfold put_fix. destruct (games s !! id) as [game |] eqn:Hgame;
      [| apply rounds_evolve_refl].
    case_decide; [apply rounds_evolve_refl |]. simpl. unfold save, _id. simpl.
    eapply rounds_evolve_insert; [exact Hgame |].
    unfold round_evolves. simpl. repeat split; lia.
  - unfold post_start_continuous.
    set (s3 := match rev with
               | games_js => _
               | monitored_js => _
               end).
    assert (games s3 = updateMany_completed now (games s)) as Hs3
        by by destruct rev.
    assert (rounds_evolve (games s) (games s3)) as Hev3.
    { rewrite Hs3. apply updateMany_completed_evolves. }
    assert (∀ id g, games s3 !! id = Some g → ¬ active g) as Hclosed.
    { intros id g. rewrite Hs3. apply updateMany_completed_no_active. }
    pose proof (createNewGameSafely_rounds rev now s3) as Hrun.
    destruct (createNewGameSafely rev now s3) as [[game |] s4]; simpl in Hrun.
    + destruct Hrun as [[_ Hd] | (g & [= ->] & Hg4 & Hw & Hdup & _)].
      { destruct (Hd game eq_refl) as [Hg Ha]. by apply Hclosed in Hg. }
      right. exists (games s3), (fresh (dom (games s3))).
      destruct rev; simpl.
      * exists (mkGame (gameNumber g) betting now (endTime g) (isFixed g)
                  (fixedResult g) (resultNumber g) (resultColor g)
                  (resultSize g) (createdAt g)).
        split; [done |].
        split; [apply not_elem_of_dom, is_fresh |].
        split; [exact Hdup |]. split; [exact Hclosed |].
        unfold save, _id. simpl. rewrite Hg4. apply insert_insert_eq.
      * exists g. split; [done |].
        split; [apply not_elem_of_dom, is_fresh |]. done.
    + simpl. destruct Hrun as [[-> _] | (g & [=] & _)]. by left.
  - left. unfold post_stop_continuous. cbn [snd].
    match goal with
    | |- rounds_evolve _ (games (end_all _ _ _ _ ?l ?st)) =>
        change (rounds_evolve (games st) (games (end_all rev now randoms 0 l st)))
    end.
    apply end_all_evolves. apply snapshot_of_active_games.
  - unfold get_current. destruct rev; [| left; apply rounds_evolve_refl].
    destruct (findOne_active_game (games s)) as [game |] eqn:Hgame.
    + left. apply findOne_active_game_Some in Hgame as (Hg & _).
      pose proof (transitions_evolve games_js now random game s Hg) as Hev.
      destruct (maybe_open games_js now game s) as [game1 s1]. cbn [fst snd] in *.
      by destruct (maybe_close games_js now random game1 s1) as [game2 s2].
    + destruct (continuousGamesEnabled s); [| left; apply rounds_evolve_refl].
      simpl. apply Hcreate.
  - unfold monitor_tick.
    destruct (continuousGamesEnabled s); [| left; apply rounds_evolve_refl].
    destruct (findOne_active_game (games s)) as [game |] eqn:Hgame.
    + left. apply findOne_active_game_Some in Hgame as (Hg & _).
      pose proof (transitions_evolve monitored_js now random game s Hg) as Hev.
      by destruct (maybe_open monitored_js now game s) as [game1 s1].
    + subst rev. apply Hcreate.
  - unfold timeout_fires. destruct rev; [| apply Hcreate].
    destruct (continuousGamesEnabled s); [apply Hcreate |].
    left. apply rounds_evolve_refl.
Qed.

(** What a request does to the rounds: it rewrites rounds in place and
    then adds at most one, numbered like no other, when none is active. *)
Lemma request_rounds (rev : Revision) (s s' : State) :
  request rev s s' →
  rounds_evolve (games s) (games s') ∨
  ∃ m1 id g,
    rounds_evolve (games s) m1 ∧ m1 !! id = None ∧
    ¬ duplicate_key (gameNumber g) m1 ∧
    (∀ id' g', m1 !! id' = Some g' → ¬ active g') ∧
    games s' = <[id := g]> m1.
Proof.
  intros Hreq. destruct Hreq as [s s' Hstep | now s | initial uid s | uid amt s].
  - by apply (step_rounds rev).
  - rewrite post_create_state. apply creation_rounds.
  - left. unfold get_wallet. destruct (wallets s !! uid); apply rounds_evolve_refl.
  - left. unfold put_balance. destruct (wallets s !! uid); apply rounds_evolve_refl.
Qed.

Lemma active_rank (g : Game) : active g ↔ status_rank (status g) <= 1.
Proof.
  unfold active. destruct (status g); simpl; split; try lia; try tauto.
  intros [|]; discriminate.
Qed.

Lemma unique_gameNumbers_evolve (m m' : gmap ObjectId Game) :
  rounds_evolve m m' → unique_gameNumbers m → unique_gameNumbers m'.
Proof.
  intros Hev Huniq id1 id2 g1' g2' Hg1 Hg2 Heq.
  destruct (rounds_evolve_lookup_back m m' id1 g1' Hev Hg1) as (g1 & Hm1 & Hn1 & _).
  destruct (rounds_evolve_lookup_back m m' id2 g2' Hev Hg2) as (g2 & Hm2 & Hn2 & _).
  apply (Huniq id1 id2 g1 g2 Hm1 Hm2). congruence.
Qed.

Lemma unique_gameNumbers_insert (m : gmap ObjectId Game) id g :
  unique_gameNumbers m → ¬ duplicate_key (gameNumber g) m →
  unique_gameNumbers (<[id := g]> m).
Proof.
  intros Huniq Hdup id1 id2 g1 g2 Hg1 Hg2 Heq.
  assert (∀ id' g', m !! id' = Some g' → gameNumber g' ≠ gameNumber g) as Hfree.
  { intros id' g' Hg' Hn. apply Hdup. apply Exists_exists.
    exists (id', g'). split; [by apply elem_of_map_to_list | done]. }
  destruct (decide (id = id1)) as [<- | Hne1], (decide (id = id2)) as [<- | Hne2];
    [done | | |].
  - rewrite lookup_insert_eq in Hg1. rewrite lookup_insert_ne in Hg2 by done.
    injection Hg1 as <-. by destruct (Hfree id2 g2 Hg2).
  - rewrite lookup_insert_eq in Hg2. rewrite lookup_insert_ne in Hg1 by done.
    injection Hg2 as <-. by destruct (Hfree id1 g1 Hg1).
  - rewrite lookup_insert_ne in Hg1, Hg2 by done. by apply (Huniq id1 id2 g1 g2).
Qed.

Lemma at_most_one_active_evolve (m m' : gmap ObjectId Game) :
  rounds_evolve m m' → at_most_one_active m → at_most_one_active m'.
Proof.
  intros Hev Hone id1 id2 g1' g2' Hg1 Ha1 Hg2 Ha2.
  destruct (rounds_evolve_lookup_back m m' id1 g1' Hev Hg1) as (g1 & Hm1 & _ & _ & Hr1).
  destruct (rounds_evolve_lookup_back m m' id2 g2' Hev Hg2) as (g2 & Hm2 & _ & _ & Hr2).
  apply active_rank in Ha1, Ha2.
  apply (Hone id1 id2 g1 g2 Hm1); [apply active_rank; lia | done | apply active_rank; lia].
Qed.

Lemma at_most_one_active_insert (m : gmap ObjectId Game) id g :
  (∀ id' g', m !! id' = Some g' → ¬ active g') → at_most_one_active (<[id := g]> m).
Proof.
  intros Hnone id1 id2 g1 g2 Hg1 Ha1 Hg2 Ha2.
  destruct (decide (id = id1)) as [<- | Hne1], (decide (id = id2)) as [<- | Hne2];
    [done | | |].
  - rewrite lookup_insert_ne in Hg2 by done. by destruct (Hnone id2 g2 Hg2).
  - rewrite lookup_insert_ne in Hg1 by done. by destruct (Hnone id1 g1 Hg1).
  - rewrite lookup_insert_ne in Hg1 by done. by destruct (Hnone id1 g1 Hg1).
Qed.

Lemma unique_gameNumbers_singleton id g : unique_gameNumbers {[ id := g ]}.
Proof.
  intros id1 id2 g1 g2 Hg1 Hg2 _.
  apply lookup_singleton_Some in Hg1 as [<- _].
  by apply lookup_singleton_Some in Hg2 as [<- _].
Qed.

Lemma at_most_one_active_singleton id g : at_most_one_active {[ id := g ]}.
Proof.
  intros id1 id2 g1 g2 Hg1 _ Hg2 _.
  apply lookup_singleton_Some in Hg1 as [<- _].
  by apply lookup_singleton_Some in Hg2 as [<- _].
Qed.

(** X3. Game numbers stay unique: if no two rounds carry the same number,
    no request to either revision of the routes and no timer makes two
    rounds carry the same number. *)
Theorem game_numbers_stay_unique (rev : Revision) (s s' : State) :
  request rev s s' →
  unique_gameNumbers (games s) → unique_gameNumbers (games s').
Proof.
  intros Hreq Huniq.
  destruct (request_rounds rev s s' Hreq)
    as [Hev | (m1 & id & g & Hev & _ & Hdup & _ & ->)].
  - by apply (unique_gameNumbers_evolve (games s)).
  - apply unique_gameNumbers_insert; [| done].
    by apply (unique_gameNumbers_evolve (games s)).
Qed.

Lemma game_numbers_stay_unique_witness :
  unique_gameNumbers (games (post_start_continuous games_js 5000 demo_state).2).
Proof.
  apply (game_numbers_stay_unique games_js demo_state).
  - apply request_game, step_start.
  - apply unique_gameNumbers_singleton.
Defined.

(** X4. At most one round is active: if at most one round is waiting or
    betting, the same holds after any request to either revision of the
    routes and after any timer. *)
Theorem one_active_round_at_most (rev : Revision) (s s' : State) :
  request rev s s' →
  at_most_one_active (games s) → at_most_one_active (games s').
Proof.
  intros Hreq Hone.
  destruct (request_rounds rev s s' Hreq)
    as [Hev | (m1 & id & g & Hev & _ & _ & Hnone & ->)].
  - by apply (at_most_one_active_evolve (games s)).
  - by apply at_most_one_active_insert.
Qed.

Lemma one_active_round_at_most_witness :
  at_most_one_active (games (post_create monitored_js 5000 closed_state).2).
Proof.
  apply (one_active_round_at_most monitored_js closed_state).
  - apply request_create.
  - apply at_most_one_active_singleton.
Defined.

(** X5. Rounds only move forward: after any request or timer a round of the
    collection is still there, with the number and the creation time it
    had, and its status has not gone back from completed to betting or
    waiting, nor from betting to waiting. *)
Theorem rounds_only_move_forward (rev : Revision) (s s' : State) id g :
  request rev s s' → games s !! id = Some g →
  ∃ g', games s' !! id = Some g' ∧ gameNumber g' = gameNumber g ∧
        createdAt g' = createdAt g ∧
        status_rank (status g) <= status_rank (status g').
Proof.
  intros Hreq Hg.
  destruct (request_rounds rev s s' Hreq)
    as [Hev | (m1 & id' & g0 & Hev & Hfree & _ & _ & ->)].
  - by apply (rounds_evolve_lookup (games s)).
  - destruct (rounds_evolve_lookup (games s) m1 id g Hev Hg) as (g' & Hg' & Hr).
    exists g'. split; [| done]. rewrite lookup_insert_ne; [done | congruence].
Qed.

Lemma rounds_only_move_forward_witness :
  ∃ g', games (post_stop_continuous games_js 9000 (λ _, 1 # 2) demo_state).2
          !! 1%positive = Some g' ∧
        gameNumber g' = gameNumber demo_game ∧ createdAt g' = createdAt demo_game ∧
        status_rank (status demo_game) <= status_rank (status g').
Proof.
  apply (rounds_only_move_forward games_js demo_state).
  - apply request_game, step_stop.
  - reflexivity.
Defined.

(** ** Wagers are rewritten in place *)

Lemma bet_evolves_refl (b : Bet) : bet_evolves b b.
Proof. by split. Qed.

Lemma bets_evolve_refl (m : gmap ObjectId Bet) : bets_evolve m m.
Proof. intros id. destruct (m !! id); constructor. apply bet_evolves_refl. Qed.

Lemma bets_evolve_trans (m1 m2 m3 : gmap ObjectId Bet) :
  bets_evolve m1 m2 → bets_evolve m2 m3 → bets_evolve m1 m3.
Proof.
  intros H12 H23 id. specialize (H12 id). specialize (H23 id).
  destruct H12 as [b1 b2 [Hk Hf] |]; inversion H23 as [? b3 [Hk' Hf'] |];
    subst; constructor.
  split; [congruence |]. intros Hr.
  specialize (Hf Hr). subst b2. by apply Hf'.
Qed.

Lemma bets_evolve_lookup (m m' : gmap ObjectId Bet) id b :
  bets_evolve m m' → m !! id = Some b → ∃ b', m' !! id = Some b' ∧ bet_evolves b b'.
Proof.
  intros Hev Hb. specialize (Hev id). rewrite Hb in Hev.
  inversion Hev as [? b' Hr Heq1 Heq2 |]. by exists b'.
Qed.

Lemma bets_evolve_lookup_back (m m' : gmap ObjectId Bet) id b' :
  bets_evolve m m' → m' !! id = Some b' → ∃ b, m !! id = Some b ∧ bet_evolves b b'.
Proof.
  intros Hev Hb. specialize (Hev id). rewrite Hb in Hev.
  inversion Hev as [b ? Hr Heq1 Heq2 |]. by exists b.
Qed.

Lemma endGame_bets_evolve (rev : Revision) (now : Z) (random : Q)
    (game : ObjectId * Game) (s : State) :
  bets_evolve (bets s) (bets (endGameAndProcessBets rev now random game s)).
Proof.
  intros id. destruct (bets s !! id) as [b |] eqn:Hb.
  - destruct (decide (gameId b = _id game ∧ result b = pending)) as [[Hg Hr] | Hno].
    + rewrite (endGame_bets_pending rev now random game s id b Hb Hg Hr).
      constructor. split; [done |]. intros Hnp. by destruct Hnp.
    + rewrite endGame_bets_others.
      * rewrite Hb. constructor. apply bet_evolves_refl.
      * intros b0 Hb0. rewrite Hb in Hb0. by injection Hb0 as <-.
  - rewrite endGame_bets_others; [rewrite Hb; constructor |].
    intros b0 Hb0. congruence.
Qed.

Lemma end_all_bets_evolve (rev : Revision) (now : Z) (randoms : nat → Q)
    (l : list (ObjectId * Game)) (i : nat) (s : State) :
  bets_evolve (bets s) (bets (end_all rev now randoms i l s)).
Proof.
  revert i s. induction l as [| game l IH]; intros i s; simpl.
  { apply bets_evolve_refl. }
  eapply bets_evolve_trans; [apply endGame_bets_evolve | apply IH].
Qed.

Lemma transitions_bets_evolve (rev : Revision) (now : Z) (random : Q)
    (game : ObjectId * Game) (s : State) :
  bets_evolve (bets s)
    (bets (maybe_close rev now random (maybe_open rev now game s).1
             (maybe_open rev now game s).2).2).
Proof.
  assert (bets (maybe_open rev now game s).2 = bets s) as Hopen.
  { unfold maybe_open. case_decide; [| done].
    destruct (startTime game.2 <=? now); [| done]. by destruct rev. }
  rewrite <- Hopen. generalize (maybe_open rev now game s).1.
  generalize (maybe_open rev now game s).2. clear. intros s game.
  unfold maybe_close. case_decide; [| apply bets_evolve_refl].
  destruct (startTime game.2 + bettingDuration s <=? now);
    [| apply bets_evolve_refl].
  destruct rev; simpl; [| apply endGame_bets_evolve].
  unfold scheduleNextGameCreation.
  destruct (continuousGamesEnabled _); simpl; apply endGame_bets_evolve.
Qed.

(** The two outcomes of [/bet]. *)
Lemma post_bet_cases (rev : Revision) (uid gid : ObjectId) (type value : string)
    (amt : Z) (s : State) :
  (post_bet rev uid gid type value amt s).2 = s ∨
  ∃ game balance,
    games s !! gid = Some game ∧ status game = betting ∧
    ¬ already_bet uid gid s ∧ wallets s !! uid = Some balance ∧ amt <= balance ∧
    (post_bet rev uid gid type value amt s).2 =
    add_transaction
      (mkTransaction uid tx_bet (- amt)
         (bet_description rev (gameNumber game)
            (mkBet uid gid type value amt pending 0)))
      (set_wallets <[uid := balance - amt]>
         (set_bets <[fresh (dom (bets s)) := mkBet uid gid type value amt pending 0]> s)).
Proof.
  destruct (games s !! gid) as [game |] eqn:Hgame.
  2: { left. unfold post_bet. by rewrite Hgame. }
  destruct (decide (status game = betting)) as [Hst | Hst].
  2: { left. unfold post_bet. rewrite Hgame. by rewrite decide_False. }
  destruct (findOne_bet uid gid (bets s)) as [existing |] eqn:Hbet.
  { left. unfold post_bet. rewrite Hgame. rewrite decide_True by done.
    by rewrite Hbet. }
  destruct (wallets s !! uid) as [balance |] eqn:Hw.
  2: { left. unfold post_bet. rewrite Hgame. rewrite decide_True by done.
       by rewrite Hbet, Hw. }
  destruct (Z.lt_ge_cases balance amt) as [Hlt | Hge].
  { left. unfold post_bet. rewrite Hgame. rewrite decide_True by done.
    rewrite Hbet, Hw. by destruct (Z.ltb_spec balance amt); [| lia]. }
  right. exists game, balance. apply findOne_bet_None in Hbet.
  repeat split; try done.
  pose proof (post_bet_accepted rev uid gid type value amt s game balance
                Hgame Hst Hbet Hw Hge) as Hrun.
  simpl in Hrun. by rewrite Hrun.
Qed.

(** What a request does to the wagers: it rewrites wagers in place, or it
    adds one pending wager, on a betting round, by an account that has a
    wallet and no wager on that round. *)
Lemma step_bets (rev : Revision) (s s' : State) :
  step rev s s' →
  bets_evolve (bets s) (bets s') ∨
  ∃ id b game,
    bets s !! id = None ∧ bets s' = <[id := b]> (bets s) ∧
    result b = pending ∧ payout b = 0 ∧ ¬ already_bet (userId b) (gameId b) s ∧
    games s !! gameId b = Some game ∧ status game = betting ∧
    is_Some (wallets s !! userId b).
Proof.
  assert (∀ now s, bets (createNewGameSafely rev now s).2 = bets s) as Hcreate.
  { intros now s0. apply createNewGameSafely_bets. }
  intros Hstep. destruct Hstep.
  - left. rewrite Hcreate. apply bets_evolve_refl.
  - destruct (post_bet_cases rev uid gid type value amt s)
      as [-> | (game & balance & Hgame & Hst & Hno & Hw & _ & ->)].
    + left. apply bets_evolve_refl.
    + right. exists (fresh (dom (bets s))), (mkBet uid gid type value amt pending 0), game.
      simpl. repeat split; try done. apply fresh_bet_id.
  - left. unfold put_end. destruct (games s !! id) as [game |];
      [| apply bets_evolve_refl].
    pose proof (endGame_bets_evolve rev now random (id, game) s) as Hend.
    destruct rev, (status game); try exact Hend. apply bets_evolve_refl.
  - left. unfold put_fix. destruct (games s !! id) as [game |];
      [| apply bets_evolve_refl].
    case_decide; apply bets_evolve_refl.
  - left. destruct (start_continuous_settles_nothing rev now s) as [-> _].
    apply bets_evolve_refl.
  - left. unfold post_stop_continuous. cbn [snd].
    match goal with
    | |- bets_evolve _ (bets (end_all _ _ _ _ ?l ?st)) =>
        change (bets_evolve (bets st) (bets (end_all rev now randoms 0 l st)))
    end.
    apply end_all_bets_evolve.
  - left. unfold get_current. destruct rev; [| apply bets_evolve_refl].
    destruct (findOne_active_game (games s)) as [game |].
    + pose proof (transitions_bets_evolve games_js now random game s) as Hev.
      destruct (maybe_open games_js now game s) as [game1 s1]. cbn [fst snd] in *.
      by destruct (maybe_close games_js now random game1 s1) as [game2 s2].
    + destruct (continuousGamesEnabled s); [| apply bets_evolve_refl].
      simpl. rewrite Hcreate. apply bets_evolve_refl.
  - left. unfold monitor_tick.
    destruct (continuousGamesEnabled s); [| apply bets_evolve_refl].
    destruct (findOne_active_game (games s)) as [game |].
    + pose proof (transitions_bets_evolve monitored_js now random game s) as Hev.
      by destruct (maybe_open monitored_js now game s) as [game1 s1].
    + subst rev. rewrite Hcreate. apply bets_evolve_refl.
  - left. unfold timeout_fires. destruct rev.
    + destruct (continuousGamesEnabled s); [rewrite Hcreate |];
        apply bets_evolve_refl.
    + rewrite Hcreate. apply bets_evolve_refl.
Qed.

Lemma request_bets (rev : Revision) (s s' : State) :
  request rev s s' →
  bets_evolve (bets s) (bets s') ∨
  ∃ id b game,
    bets s !! id = None ∧ bets s' = <[id := b]> (bets s) ∧
    result b = pending ∧ payout b = 0 ∧ ¬ already_bet (userId b) (gameId b) s ∧
    games s !! gameId b = Some game ∧ status game = betting ∧
    is_Some (wallets s !! userId b).
Proof.
  intros Hreq. destruct Hreq as [s s' Hstep | now s | initial uid s | uid amt s].
  - by apply (step_bets rev).
  - left. rewrite post_create_state.
    destruct (createNewGameSafely_bets rev now s) as [-> _]. apply bets_evolve_refl.
  - left. unfold get_wallet. destruct (wallets s !! uid); apply bets_evolve_refl.
  - left. unfold put_balance. destruct (wallets s !! uid); apply bets_evolve_refl.
Qed.

Lemma one_bet_per_round_singleton id b : one_bet_per_round {[ id := b ]}.
Proof.
  intros id1 id2 b1 b2 Hb1 Hb2 _ _.
  apply lookup_singleton_Some in Hb1 as [<- _].
  by apply lookup_singleton_Some in Hb2 as [<- _].
Qed.



(** X7. Wagers are kept: after any request or timer a wager of the
    collection is still there, with the account, the round, the category,
    the selector and the stake it had; and a wager that was settled, won or
    lost, is the very same document: its result and payout never change. *)
Theorem wagers_are_kept_and_settled_ones_final (rev : Revision) (s s' : State) id b :
  request rev s s' → bets s !! id = Some b →
  ∃ b', bets s' !! id = Some b' ∧
        (userId b', gameId b', betType b', betValue b', amount b') =
        (userId b, gameId b, betType b, betValue b, amount b) ∧
        (result b ≠ pending → b' = b).
Proof.
  intros Hreq Hb.
  destruct (request_bets rev s s' Hreq)
    as [Hev | (id' & b0 & game & Hfree & -> & _)].
  - by apply (bets_evolve_lookup (bets s)).
  - exists b. split; [| by split].
    rewrite lookup_insert_ne; [done | congruence].
Qed.

Lemma wagers_are_kept_and_settled_ones_final_witness :
  ∃ b', bets (put_end games_js 2000 (7 # 10) 1 closed_state).2 !! 1%positive = Some b' ∧
        (userId b', gameId b', betType b', betValue b', amount b') =
        (7%positive, 1%positive, "number", "3", 10) ∧
        (win ≠ pending → b' = mkBet 7 1 "number" "3" 10 win 90).
Proof.
  apply (wagers_are_kept_and_settled_ones_final games_js closed_state
           _ 1%positive (mkBet 7 1 "number" "3" 10 win 90)).
  - apply request_game, step_end.
  - reflexivity.
Defined.

(** ** Wallets and anchored wagers *)

Lemma credit_persist (uid u : ObjectId) (p : Z) (w : gmap ObjectId Z) :
  is_Some (w !! u) → is_Some (credit uid p w !! u).
Proof. rewrite credit_lookup. intros [bal ->]. by eexists. Qed.





(** No request removes a round. *)
Lemma request_games_persist (rev : Revision) (s s' : State) (id : ObjectId) :
  request rev s s' → is_Some (games s !! id) → is_Some (games s' !! id).
Proof.
  intros Hreq [g Hg].
  destruct (request_rounds rev s s' Hreq)
    as [Hev | (m1 & id' & g0 & Hev & Hfree & _ & _ & ->)].
  - destruct (rounds_evolve_lookup _ _ id g Hev Hg) as (g' & -> & _). by eexists.
  - destruct (rounds_evolve_lookup _ _ id g Hev Hg) as (g' & Hg' & _).
    rewrite lookup_insert_ne; [by eexists | congruence].
Qed.



(** ** The money that settlement moves *)

Section Winnings.

Variables (n : Z) (color size : string).

Lemma winnings_cons (u : ObjectId) (d : ObjectId * Bet) (l : list (ObjectId * Bet)) :
  winnings n color size u (d :: l) =
  if wins n color size d.2 && bool_decide (userId d.2 = u)
  then payout (settle n color size d.2) + winnings n color size u l
  else winnings n color size u l.
Proof. reflexivity. Qed.

Lemma winnings_zero (u : ObjectId) (l : list (ObjectId * Bet)) :
  (∀ d, d ∈ l → userId d.2 ≠ u) → winnings n color size u l = 0.
Proof.
  induction l as [| d l IH]; intros Hnone; [done |]. rewrite winnings_cons.
  rewrite bool_decide_false by (apply Hnone; left).
  rewrite andb_false_r. apply IH. intros d' Hin. apply Hnone. by right.
Qed.

(** The winnings of an account that has one wager in the list. *)
Lemma winnings_single (l : list (ObjectId * Bet)) id b :
  NoDup l.*1 → (id, b) ∈ l →
  (∀ id' b', (id', b') ∈ l → userId b' = userId b → id' = id) →
  winnings n color size (userId b) l =
  if wins n color size b then payout (settle n color size b) else 0.
Proof.
  induction l as [| d l IH]; intros Hnd Hin Hone.
  { by apply elem_of_nil in Hin. }
  rewrite fmap_cons in Hnd. apply NoDup_cons in Hnd as [Hfresh Hnd].
  rewrite winnings_cons.
  apply elem_of_cons in Hin as [Heq | Hin].
  - subst d. cbn [snd]. rewrite bool_decide_true by done. rewrite andb_true_r.
    rewrite winnings_zero; [destruct (wins n color size b); lia |].
    intros [id' b'] Hin' Hu. cbn [snd] in Hu.
    assert (id' = id) as -> by (apply (Hone id' b'); [by right | done]).
    apply Hfresh. cbn [fst]. apply list_elem_of_fmap. by exists (id, b').
  - assert (userId d.2 ≠ userId b) as Hne.
    { intros Hu. destruct d as [id' b']. cbn [fst snd] in *.
      assert (id' = id) as -> by (apply (Hone id' b'); [left | done]).
      apply Hfresh. apply list_elem_of_fmap. by exists (id, b). }
    rewrite bool_decide_false by done. rewrite andb_false_r.
    apply IH; [done | done |]. intros id' b' Hin'. apply Hone. by right.
Qed.




End Winnings.

(** X9. With one wager per account and round, settlement pays each account
    exactly the payout of its wager: the balance of an account with a
    pending wager on the round and a wallet grows by the payout stored on
    that wager, stake times multiplier for a winner and nothing for a
    loser. *)
Theorem settlement_pays_the_payout (rev : Revision) (now : Z) (random : Q)
    (game : ObjectId * Game) (s : State) (id : ObjectId) (b : Bet) (balance : Z) :
  one_bet_per_round (bets s) →
  bets s !! id = Some b → gameId b = _id game → result b = pending →
  wallets s !! userId b = Some balance →
  let s' := endGameAndProcessBets rev now random game s in
  ∃ b', bets s' !! id = Some b' ∧
        wallets s' !! userId b = Some (balance + payout b') ∧
        (result b' = win → payout b' = amount b * multiplier (betType b)) ∧
        (result b' = loss → payout b' = 0).
Proof.
  intros Hone Hb Hg Hr Hw s'.
  set (n := compute_resultNumber (fixedResult game.2) random).
  exists (settle n (compute_resultColor n) (compute_resultSize n) b).
  split. { by apply endGame_bets_pending. }
  split.
  - subst s'. rewrite endGame_wallets, Hw. simpl. f_equal. f_equal.
    fold n. rewrite (winnings_single _ _ _ _ id b).
    + unfold wins, settle, settled_bet. cbn [payout].
      by destruct (judge b n _ _).1.
    + apply find_pending_bets_NoDup.
    + by apply find_pending_bets_spec.
    + intros id' b' Hin Hu. apply find_pending_bets_spec in Hin as (Hb' & Hg' & _).
      apply (Hone id' id b' b Hb' Hb Hu). congruence.
  - rewrite settle_result, settle_payout, judge_multiplier.
    by destruct (wins _ _ _ b).
Qed.

Lemma settlement_pays_the_payout_witness :
  let s' := endGameAndProcessBets games_js 1000 (1 # 2) (1%positive, demo_game)
              (set_bets (λ _, {[ 1%positive := mkBet 7 1 "number" "3" 10 pending 0 ]})
                 demo_state) in
  ∃ b', bets s' !! 1%positive = Some b' ∧
        wallets s' !! 7%positive = Some (100 + payout b') ∧
        (result b' = win → payout b' = 10 * multiplier "number") ∧
        (result b' = loss → payout b' = 0).
Proof.
  apply (settlement_pays_the_payout games_js 1000 (1 # 2) (1%positive, demo_game)
           (set_bets (λ _, {[ 1%positive := mkBet 7 1 "number" "3" 10 pending 0 ]})
              demo_state)
           1%positive (mkBet 7 1 "number" "3" 10 pending 0) 100);
    try reflexivity.
  apply one_bet_per_round_singleton.
Defined.



Lemma endGame_flags (rev : Revision) (now : Z) (random : Q)
    (game : ObjectId * Game) (s : State) :
  let s' := endGameAndProcessBets rev now random game s in
  gameCreationInProgress s' = gameCreationInProgress s ∧
  continuousGamesEnabled s' = continuousGamesEnabled s.
Proof.
  unfold endGameAndProcessBets.
  cbn [gameCreationInProgress continuousGamesEnabled console_log].
  match goal with
  | |- context [foldl (process_bet ?r ?num ?n ?c ?z) ?st ?l] =>
      destruct (loop_flags r num n c z l st) as (-> & -> & _)
  end.
  done.
Qed.

(** X11. Settlement touches nothing else: the other rounds, the wagers of
    other rounds and the wagers already settled are as before, no wager
    appears or disappears, the wallet of an account without a pending wager
    on the round keeps its balance, and the flags of the server are
    unchanged. *)
Theorem settlement_touches_nothing_else (rev : Revision) (now : Z) (random : Q)
    (game : ObjectId * Game) (s : State) :
  let s' := endGameAndProcessBets rev now random game s in
  (∀ id, id ≠ _id game → games s' !! id = games s !! id) ∧
  (∀ id b, bets s !! id = Some b → gameId b ≠ _id game ∨ result b ≠ pending →
           bets s' !! id = Some b) ∧
  dom (bets s') = dom (bets s) ∧
  (∀ u, (∀ id b, bets s !! id = Some b → gameId b = _id game →
                 result b = pending → userId b ≠ u) →
        wallets s' !! u = wallets s !! u) ∧
  (gameCreationInProgress s', continuousGamesEnabled s') =
  (gameCreationInProgress s, continuousGamesEnabled s).
Proof.
  intros s'. split; [| split; [| split; [| split]]].
  - intros id Hne. subst s'. rewrite endGame_games. by apply lookup_insert_ne.
  - intros id b Hb Hother. subst s'. rewrite endGame_bets_others; [done |].
    intros b0 Hb0 [Hg Hr]. rewrite Hb in Hb0. injection Hb0 as <-. tauto.
  - apply set_eq. intros id. rewrite !elem_of_dom.
    pose proof (endGame_bets_evolve rev now random game s id) as Hev.
    fold s' in Hev. split; intros [x Hx]; rewrite Hx in Hev; inversion Hev; by eexists.
  - intros u Hnone. subst s'. rewrite endGame_wallets, winnings_zero.
    + destruct (wallets s !! u); simpl; [f_equal; lia | done].
    + intros [id b] Hin. apply find_pending_bets_spec in Hin as (Hb & Hg & Hr).
      by apply (Hnone id b).
  - subst s'. by destruct (endGame_flags rev now random game s) as [-> ->].
Qed.

(** ** Outcomes and closed rounds along the requests *)

(** X12. No outcome before the round is closed: if every waiting or betting
    round is without result number, colour, size and end time, the same
    holds after any request to the game or wallet routes of either revision
    and after any timer. *)
Theorem no_outcome_until_closed (rev : Revision) (s s' : State) :
  request rev s s' →
  no_outcome_before_closed (games s) → no_outcome_before_closed (games s').
Proof.
  intros Hreq Hinv. destruct Hreq as [s s' Hstep | now s | initial uid s | uid amt s].
  - by apply (step_no_outcome_before_closed rev s).
  - rewrite post_create_state. by apply createNewGameSafely_no_outcome.
  - unfold get_wallet. by destruct (wallets s !! uid).
  - unfold put_balance. by destruct (wallets s !! uid).
Qed.

Lemma no_outcome_until_closed_witness :
  no_outcome_before_closed
    (games (get_current games_js 61000 (45 # 100) demo_state).2).
Proof.
  apply (no_outcome_until_closed games_js demo_state).
  - apply request_game, step_current.
  - intros id g Hg _. unfold demo_state in Hg. cbn [games] in Hg.
    apply lookup_singleton_Some in Hg as [_ <-]. done.
Defined.

(** X13. In the revision with the monitor a completed round is final: no
    request to the game or wallet routes and no timer changes its document,
    so its outcome, its end time and its override stay what they were. *)
Theorem completed_round_is_final_with_monitor (s s' : State) id g :
  request monitored_js s s' →
  games s !! id = Some g → status g = completed → games s' !! id = Some g.
Proof.
  intros Hreq Hg Hst.
  destruct Hreq as [s s' Hstep | now s | initial uid s | uid amt s].
  - by apply (step_monitored_closed_final s).
  - rewrite post_create_state. by apply createNewGameSafely_keeps.
  - unfold get_wallet. by destruct (wallets s !! uid).
  - unfold put_balance. by destruct (wallets s !! uid).
Qed.

Lemma completed_round_is_final_with_monitor_witness :
  games (put_end monitored_js 2000 (7 # 10) 1 closed_state).2 !! 1%positive
  = Some closed_game.
Proof.
  apply (completed_round_is_final_with_monitor closed_state).
  - apply request_game, step_end.
  - reflexivity.
  - reflexivity.
Defined.

(** ** Stopping and starting continuous games *)

Lemma endGame_timers (rev : Revision) (now : Z) (random : Q)
    (game : ObjectId * Game) (s : State) :
  let s' := endGameAndProcessBets rev now random game s in
  gameCreationTimeout s' = gameCreationTimeout s ∧
  gameCheckInterval s' = gameCheckInterval s.
Proof.
  unfold endGameAndProcessBets.
  cbn [gameCreationTimeout gameCheckInterval console_log].
  match goal with
  | |- context [foldl (process_bet ?r ?num ?n ?c ?z) ?st ?l] =>
      destruct (loop_flags r num n c z l st) as (_ & _ & -> & ->)
  end.
  done.
Qed.

Lemma end_all_flags (rev : Revision) (now : Z) (randoms : nat → Q)
    (l : list (ObjectId * Game)) (i : nat) (s : State) :
  let s' := end_all rev now randoms i l s in
  (gameCreationInProgress s', continuousGamesEnabled s',
   gameCreationTimeout s', gameCheckInterval s') =
  (gameCreationInProgress s, continuousGamesEnabled s,
   gameCreationTimeout s, gameCheckInterval s).
Proof.
  revert i s. induction l as [| game l IH]; intros i s; simpl; [done |].
  rewrite IH.
  destruct (endGame_flags rev now (randoms i) game s) as [-> ->].
  by destruct (endGame_timers rev now (randoms i) game s) as [-> ->].
Qed.

Lemma endGame_completes (rev : Revision) (now : Z) (random : Q)
    (game : ObjectId * Game) (s : State) id g :
  games s !! id = Some g → status g = completed →
  ∃ g', games (endGameAndProcessBets rev now random game s) !! id = Some g' ∧
        status g' = completed.
Proof.
  intros Hg Hst. rewrite endGame_games.
  destruct (decide (_id game = id)) as [<- | Hne].
  - rewrite lookup_insert_eq. by eexists.
  - rewrite lookup_insert_ne by done. by exists g.
Qed.

Lemma end_all_keeps_completed (rev : Revision) (now : Z) (randoms : nat → Q)
    (l : list (ObjectId * Game)) (i : nat) (s : State) id g :
  games s !! id = Some g → status g = completed →
  ∃ g', games (end_all rev now randoms i l s) !! id = Some g' ∧
        status g' = completed.
Proof.
  revert i s g. induction l as [| game l IH]; intros i s g Hg Hst; simpl.
  { by exists g. }
  destruct (endGame_completes rev now (randoms i) game s id g Hg Hst)
    as (g1 & Hg1 & Hst1).
  by apply (IH _ _ g1).
Qed.

Lemma end_all_completes_visited (rev : Revision) (now : Z) (randoms : nat → Q)
    (l : list (ObjectId * Game)) (i : nat) (s : State) id :
  id ∈ l.*1 →
  ∃ g', games (end_all rev now randoms i l s) !! id = Some g' ∧
        status g' = completed.
Proof.
  revert i s. induction l as [| game l IH]; intros i s Hin; simpl.
  { by apply elem_of_nil in Hin. }
  rewrite fmap_cons in Hin. apply elem_of_cons in Hin as [-> | Hin]; [| by apply IH].
  apply (end_all_keeps_completed _ _ _ _ _ _ _ (ended_game now (randoms i) game.2));
    [| done].
  rewrite endGame_games. apply lookup_insert_eq.
Qed.

Lemma end_all_settles_visited (rev : Revision) (now : Z) (randoms : nat → Q)
    (l : list (ObjectId * Game)) (i : nat) (s : State) gid id b :
  gid ∈ l.*1 →
  bets (end_all rev now randoms i l s) !! id = Some b → gameId b = gid →
  result b ≠ pending.
Proof.
  revert i s. induction l as [| game l IH]; intros i s Hin Hb Hg; simpl in *.
  { by apply elem_of_nil in Hin. }
  apply elem_of_cons in Hin as [-> | Hin]; [| by apply (IH (S i) _ Hin Hb)].
  pose proof (end_all_bets_evolve rev now randoms l (S i)
                (endGameAndProcessBets rev now (randoms i) game s)) as Hev.
  destruct (bets_evolve_lookup_back _ _ id b Hev Hb) as (b0 & Hb0 & Hk & Hfinal).
  assert (result b0 ≠ pending) as Hsettled.
  { intros Hr.
    assert ((id, b0) ∈ find_pending_bets (_id game)
              (bets (endGameAndProcessBets rev now (randoms i) game s))) as Hin.
    { apply find_pending_bets_spec. injection Hk as _ Hgid _ _ _.
      split; [done |]. split; [| done]. unfold _id. congruence. }
    rewrite endGame_no_pending in Hin. by apply elem_of_nil in Hin. }
  by rewrite (Hfinal Hsettled).
Qed.

Lemma post_stop_continuous_spec (rev : Revision) (now : Z)
    (randoms : nat → Q) (s : State) :
  let s' := (post_stop_continuous rev now randoms s).2 in
  continuousGamesEnabled s' = false ∧ gameCreationTimeout s' = false ∧
  ¬ has_active_game s' ∧
  (∀ id g, games s !! id = Some g →
           ∃ g', games s' !! id = Some g' ∧ status g' = completed) ∧
  (∀ id b g, bets s' !! id = Some b → games s !! gameId b = Some g → active g →
             result b ≠ pending).
Proof.
  intros s'. subst s'. unfold post_stop_continuous. cbn [snd].
  set (s2 := set_timers false _ _).
  set (l := find_active_games (games s2)).
  assert (∀ id g, games s !! id = Some g → active g → id ∈ l.*1) as Hl.
  { intros id g Hg Ha. apply list_elem_of_fmap. exists (id, g). split; [done |].
    by apply find_active_games_spec. }
  pose proof (end_all_flags rev now randoms l 0 s2) as Hflags.
  cbn zeta in Hflags. injection Hflags as _ Hc Ht _.
  assert (∀ id g, games s !! id = Some g →
                  ∃ g', games (end_all rev now randoms 0 l s2) !! id = Some g' ∧
                        status g' = completed) as Hall.
  { intros id g Hg. destruct (decide (active g)) as [Ha | Hna].
    - apply end_all_completes_visited. by apply (Hl id g).
    - apply (end_all_keeps_completed _ _ _ _ _ _ _ g); [done |].
      unfold active in Hna. destruct (status g); tauto. }
  split; [by rewrite Hc |]. split; [by rewrite Ht |].
  split; [| split].
  - intros (id & g' & Hg' & Ha).
    destruct (end_all_games_closed _ _ _ _ _ _ _ _ Hg') as [Hg | [Hst _]].
    + destruct (Hall id g' Hg) as (g'' & Hg'' & Hst).
      rewrite Hg' in Hg''. injection Hg'' as <-. destruct Ha; congruence.
    + destruct Ha; congruence.
  - exact Hall.
  - intros id b g Hb Hg Ha.
    apply (end_all_settles_visited rev now randoms l 0 s2 (gameId b) id b);
      [| done | done].
    by apply (Hl _ g).
Qed.

(** X14. [/stop-continuous] closes and settles everything that is open: it
    disables continuous games and drops the timer handles; afterwards no
    round is waiting or betting, every round that was is completed, no
    wager on such a round is pending, and the rounds that were completed
    before are still completed. *)
Theorem stop_continuous_closes_and_settles (rev : Revision) (now : Z)
    (randoms : nat → Q) (s : State) :
  let s' := (post_stop_continuous rev now randoms s).2 in
  continuousGamesEnabled s' = false ∧ gameCreationTimeout s' = false ∧
  ¬ has_active_game s' ∧
  (∀ id g, games s !! id = Some g →
           ∃ g', games s' !! id = Some g' ∧ status g' = completed) ∧
  (∀ id b g, bets s' !! id = Some b → games s !! gameId b = Some g → active g →
             result b ≠ pending).
Proof.
  intros s'. destruct (post_stop_continuous_spec rev now randoms s)
    as (Hoff & Htimer & Hnone & Hclosed & Hsettled).
  repeat split; assumption.
Qed.

Lemma updateMany_completed_fresh (now : Z) (m : gmap ObjectId Game) id :
  updateMany_completed now m !! id = None ↔ m !! id = None.
Proof. unfold updateMany_completed. rewrite lookup_fmap. apply fmap_None. Qed.

Lemma updateMany_completed_numbers (now : Z) (m : gmap ObjectId Game) id g :
  m !! id = Some g →
  ∃ g', updateMany_completed now m !! id = Some g' ∧ gameNumber g' = gameNumber g.
Proof.
  intros Hg. unfold updateMany_completed. rewrite lookup_fmap, Hg. simpl.
  eexists. split; [reflexivity |]. by case_decide.
Qed.

Lemma create_attempts_timers (rev : Revision) (fuel : nat)
    (attempts nextGameNumber now : Z) (s : State) :
  let s' := (create_attempts rev fuel attempts nextGameNumber now s).2 in
  gameCreationTimeout s' = gameCreationTimeout s ∧
  gameCheckInterval s' = gameCheckInterval s.
Proof.
  revert attempts s. induction fuel as [| fuel IH]; intros attempts s; [done |].
  simpl. case_decide; [| done].
  destruct (maxAttempts rev <=? attempts + 1); [done |].
  apply (IH (attempts + 1)
           (console_log
              ("Duplicate key error, retrying with gameNumber "
               +:+ JS.show (nextGameNumber + (attempts + 1))) s)).
Qed.

Lemma createNewGameSafely_timers (rev : Revision) (now : Z) (s : State) :
  let s' := (createNewGameSafely rev now s).2 in
  gameCreationTimeout s' = gameCreationTimeout s ∧
  gameCheckInterval s' = gameCheckInterval s.
Proof.
  unfold createNewGameSafely.
  destruct (gameCreationInProgress s); [done |].
  destruct (findOne_active_game _); [done |].
  match goal with
  | |- context [create_attempts ?r ?f ?a ?n ?t ?st] =>
      pose proof (create_attempts_timers r f a n t st) as H;
      destruct (create_attempts r f a n t st) as [res st']
  end.
  simpl in *. exact H.
Qed.

(** X15. [/start-continuous], when no creation is in flight, closes every
    waiting or betting round and leaves exactly one active round, a new one
    numbered above all others: open for betting from now on in
    [server/routes/games.js], waiting 5 seconds in the revision with the
    monitor, which also arms the monitor.  When a creation is in flight the
    route answers 400, yet continuous games are enabled and every round is
    closed. *)
Theorem start_continuous_opens_one_round (rev : Revision) (now : Z) (s : State) :
  let run := post_start_continuous rev now s in
  continuousGamesEnabled run.2 = true ∧
  (gameCreationInProgress s = false →
   ∃ id g,
     run.1 = json ("Continuous games started", (id, g)) ∧
     games s !! id = None ∧ games run.2 !! id = Some g ∧
     (∀ id' g', games run.2 !! id' = Some g' → active g' → id' = id) ∧
     (status g, startTime g) =
     match rev with
     | games_js => (betting, now)
     | monitored_js => (waiting, now + 5000)
     end ∧
     (∀ id' g', games s !! id' = Some g' → gameNumber g' < gameNumber g) ∧
     (rev = monitored_js → gameCheckInterval run.2 = true)) ∧
  (gameCreationInProgress s = true →
   run.1 = error 400 "Failed to start continuous games" ∧ ¬ has_active_game run.2).
Proof.
  unfold post_start_continuous.
  set (s3 := match rev with
             | games_js => _
             | monitored_js => _
             end).
  assert (games s3 = updateMany_completed now (games s)) as Hs3 by by destruct rev.
  assert (gameCreationInProgress s3 = gameCreationInProgress s) as Hflag3
      by by destruct rev.
  assert (continuousGamesEnabled s3 = true) as Hon3 by by destruct rev.
  assert (rev = monitored_js → gameCheckInterval s3 = true) as Hmon3
      by (by intros ->).
  assert (¬ has_active_game s3) as Hnone3.
  { intros (id & g & Hg & Ha). rewrite Hs3 in Hg.
    by apply updateMany_completed_no_active in Hg. }
  destruct (createNewGameSafely_flags rev now s3) as [_ Hon4].
  pose proof (createNewGameSafely_fresh_round rev now s3 Hnone3) as Hfresh.
  pose proof (createNewGameSafely_bets rev now s3) as _.
  assert (gameCreationInProgress s = true →
          createNewGameSafely rev now s3 =
          (None, console_log "Game creation already in progress, skipping..." s3))
    as Hbusy.
  { intros Hflag. unfold createNewGameSafely. by rewrite Hflag3, Hflag. }
  destruct (gameCreationInProgress s) eqn:Hflag.
  - rewrite (Hbusy eq_refl). simpl. split; [done |]. split; [done |].
    intros _. split; [done |]. exact Hnone3.
  - rewrite Hflag3 in Hfresh.
    destruct (Hfresh eq_refl)
      as (id & g & Hrun & Hfree & Hgames & Hg & Hmax & _ & _ & _).
    destruct (createNewGameSafely_timers rev now s3) as [_ Hinterval].
    destruct (createNewGameSafely rev now s3) as [r s4]. simpl in *. subst r.
    split; [by destruct rev |]. split; [| done]. intros _.
    assert (games s !! id = None) as Hfree0.
    { rewrite Hs3 in Hfree. by apply updateMany_completed_fresh in Hfree. }
    assert (∀ id' g', games s !! id' = Some g' → gameNumber g' < gameNumber g)
      as Hmax0.
    { intros id' g' Hg'.
      destruct (updateMany_completed_numbers now (games s) id' g' Hg')
        as (g'' & Hg'' & <-).
      apply (Hmax id'). by rewrite Hs3. }
    assert (∀ id' g', games s3 !! id' = Some g' → ¬ active g') as Hclosed.
    { intros id' g'. by apply no_active_game_lookup. }
    destruct rev; simpl.
    + eexists id, _. split; [reflexivity |]. split; [done |].
      unfold save, _id. simpl. rewrite lookup_insert_eq. split; [done |].
      split; [| split; [done |]; split; [done | done]].
      intros id' g' Hg' Ha. destruct (decide (id = id')) as [| Hne]; [done |].
      rewrite lookup_insert_ne in Hg' by done. rewrite Hgames in Hg'.
      rewrite lookup_insert_ne in Hg' by done. by destruct (Hclosed id' g').
    + exists id, g. split; [done |]. split; [done |].
      rewrite Hgames, lookup_insert_eq. split; [done |].
      split; [| split; [by rewrite Hg |]; split; [done |]].
      * intros id' g' Hg' Ha. destruct (decide (id = id')) as [| Hne]; [done |].
        rewrite lookup_insert_ne in Hg' by done. by destruct (Hclosed id' g').
      * intros _. rewrite Hinterval. by apply Hmon3.
Qed.

Lemma post_stop_continuous_in_flight (rev : Revision) (now : Z)
    (randoms : nat → Q) (s : State) :
  gameCreationInProgress (post_stop_continuous rev now randoms s).2 =
  gameCreationInProgress s.
Proof.
  unfold post_stop_continuous. cbn [snd].
  set (st := set_timers false _ _). set (l := find_active_games _).
  pose proof (end_all_flags rev now randoms l 0 st) as Hflags.
  cbn zeta in Hflags. by injection Hflags as -> _ _ _.
Qed.

(** X16. A creation timer that fires after [/stop-continuous]: in
    [server/routes/games.js] its callback tests the flag and the state is
    left as it is; in the revision with the monitor the callback does not
    test it, and when no creation is in flight it stores a new waiting
    round although continuous games are disabled. *)
Theorem creation_timer_after_stop (now later : Z) (randoms : nat → Q) (s : State) :
  gameCreationInProgress s = false →
  let stopped := (post_stop_continuous games_js now randoms s).2 in
  let stopped' := (post_stop_continuous monitored_js now randoms s).2 in
  timeout_fires games_js later stopped = stopped ∧
  ∃ id g,
    games stopped' !! id = None ∧
    games (timeout_fires monitored_js later stopped') !! id = Some g ∧
    status g = waiting ∧ startTime g = later + 5000 ∧
    continuousGamesEnabled (timeout_fires monitored_js later stopped') = false.
Proof.
  intros Hflag stopped stopped'. split.
  - subst stopped. unfold timeout_fires.
    destruct (post_stop_continuous_spec games_js now randoms s) as (-> & _). done.
  - destruct (post_stop_continuous_spec monitored_js now randoms s)
      as (Hoff & _ & Hnone & _).
    fold stopped' in Hoff, Hnone.
    assert (gameCreationInProgress stopped' = false) as Hflag'.
    { subst stopped'. by rewrite post_stop_continuous_in_flight. }
    destruct (createNewGameSafely_fresh_round monitored_js later stopped' Hnone Hflag')
      as (id & g & _ & Hfree & Hgames & Hg & _).
    destruct (createNewGameSafely_flags monitored_js later stopped') as [_ Hon].
    exists id, g. unfold timeout_fires. split; [done |].
    rewrite Hgames, lookup_insert_eq. split; [done |].
    split; [by rewrite Hg |]. split; [by rewrite Hg |]. by rewrite Hon.
Qed.

Lemma creation_timer_after_stop_witness :
  let stopped := (post_stop_continuous games_js 9000 (λ _, 1 # 2) demo_state).2 in
  let stopped' := (post_stop_continuous monitored_js 9000 (λ _, 1 # 2) demo_state).2 in
  timeout_fires games_js 9500 stopped = stopped ∧
  ∃ id g,
    games stopped' !! id = None ∧
    games (timeout_fires monitored_js 9500 stopped') !! id = Some g ∧
    status g = waiting ∧ startTime g = 9500 + 5000 ∧
    continuousGamesEnabled (timeout_fires monitored_js 9500 stopped') = false.
Proof.
  apply (creation_timer_after_stop 9000 9500 (λ _, 1 # 2) demo_state).
  reflexivity.
Defined.

(** X17. An override set through [/fix] decides a forced end: when the
    administrator fixes the value [v] on a round that is not completed and
    the round is then ended through [/:id/end], the round is stored as
    completed at that time with the outcome [v], the colour and the size of
    [v], and no wager of the round is left pending, whatever the draw. *)
Theorem fix_then_end_gives_the_fixed_outcome (now : Z) (random : Q)
    (id : ObjectId) (v : Z) (s : State) (g : Game) :
  games s !! id = Some g → status g ≠ completed →
  let fixed := (put_fix id (Some v) s).2 in
  let ended := (put_end monitored_js now random id fixed).2 in
  games fixed !! id =
  Some (mkGame (gameNumber g) (status g) (startTime g) (endTime g) true (Some v)
          (resultNumber g) (resultColor g) (resultSize g) (createdAt g)) ∧
  games ended !! id =
  Some (mkGame (gameNumber g) completed (startTime g) (Some now) true (Some v)
          (Some v) (Some (compute_resultColor v)) (Some (compute_resultSize v))
          (createdAt g)) ∧
  find_pending_bets id (bets ended) = [].
Proof.
  intros Hg Hst fixed ended.
  assert (fixed = set_games (save (id, mkGame (gameNumber g) (status g) (startTime g)
                                         (endTime g) true (Some v) (resultNumber g)
                                         (resultColor g) (resultSize g) (createdAt g)))
                    s) as Hfixed.
  { subst fixed. unfold put_fix. rewrite Hg. by rewrite decide_False. }
  assert (games fixed !! id =
          Some (mkGame (gameNumber g) (status g) (startTime g) (endTime g) true
                  (Some v) (resultNumber g) (resultColor g) (resultSize g)
                  (createdAt g))) as Hlook.
  { rewrite Hfixed. simpl. unfold save, _id. simpl. apply lookup_insert_eq. }
  split; [done |].
  subst ended. unfold put_end. rewrite Hlook. cbn [status].
  destruct (status g) eqn:Hstatus; [| | done]; cbn [snd].
  all: split; [rewrite endGame_games; unfold _id; cbn [fst snd];
               by rewrite lookup_insert_eq |].
  all: apply (endGame_no_pending monitored_js now random (id, _) fixed).
Qed.

Lemma fix_then_end_gives_the_fixed_outcome_witness :
  let open := mkGame 4 betting 0 None false None None None None 0 in
  let s := set_games (save (1%positive, open)) demo_state in
  let fixed := (put_fix 1 (Some 7) s).2 in
  let ended := (put_end monitored_js 60000 (1 # 2) 1 fixed).2 in
  games fixed !! 1%positive =
  Some (mkGame 4 betting 0 None true (Some 7) None None None 0) ∧
  games ended !! 1%positive =
  Some (mkGame 4 completed 0 (Some 60000) true (Some 7) (Some 7)
          (Some (compute_resultColor 7)) (Some (compute_resultSize 7)) 0) ∧
  find_pending_bets 1 (bets ended) = [].
Proof.
  apply (fix_then_end_gives_the_fixed_outcome 60000 (1 # 2) 1%positive 7
           (set_games (save (1%positive,
                             mkGame 4 betting 0 None false None None None None 0))
              demo_state)
           (mkGame 4 betting 0 None false None None None None 0));
    [reflexivity | discriminate].
Defined.

(** ** The transitions of the scheduler *)

(** X18. [/current] of [server/routes/games.js] closes a betting round at
    its deadline and not before: while [now] is before the start time plus
    the betting duration (the setting in seconds, 60 when it is missing or
    0) the read changes nothing and returns the round; from the deadline on
    the read ends the round, stores its outcome, leaves none of its wagers
    pending, and sets the creation timer when continuous games are
    enabled. *)
Theorem current_closes_at_the_deadline (now : Z) (random : Q) (s : State)
    (id : ObjectId) (g : Game) :
  findOne_active_game (games s) = Some (id, g) → status g = betting →
  let run := get_current games_js now random s in
  (now < startTime g + bettingDuration s → run = (json (Some (id, g)), s)) ∧
  (startTime g + bettingDuration s <= now →
   run.1 = json (Some (id, ended_game now random g)) ∧
   games run.2 !! id = Some (ended_game now random g) ∧
   find_pending_bets id (bets run.2) = [] ∧
   gameCreationTimeout run.2 = (continuousGamesEnabled s || gameCreationTimeout s)) ∧
  (gameDuration s = None ∨ gameDuration s = Some 0 → bettingDuration s = 60000) ∧
  (∀ d, gameDuration s = Some d → d ≠ 0 → bettingDuration s = d * 1000).
Proof.
  intros Hfind Hst run. subst run. unfold get_current. rewrite Hfind.
  assert (maybe_open games_js now (id, g) s = ((id, g), s)) as ->.
  { unfold maybe_open. cbn [snd]. rewrite decide_False; [done | congruence]. }
  unfold maybe_close. cbn [fst snd]. rewrite decide_True by done.
  split; [| split; [| split]].
  - intros Hbefore. destruct (Z.leb_spec (startTime g + bettingDuration s) now);
      [lia | done].
  - intros Hafter. destruct (Z.leb_spec (startTime g + bettingDuration s) now);
      [| lia].
    cbn [fst snd]. split; [done |].
    destruct (endGame_flags games_js now random (id, g) s) as [_ Hon].
    destruct (endGame_timers games_js now random (id, g) s) as [Ht _].
    pose proof (endGame_games games_js now random (id, g) s) as Hgames.
    pose proof (endGame_no_pending games_js now random (id, g) s) as Hnone.
    cbn zeta in Hon, Ht. unfold _id in *. cbn [fst snd] in *.
    remember (endGameAndProcessBets games_js now random (id, g) s) as s1 eqn:Hs1.
    clear Hs1. rewrite Hon. unfold scheduleNextGameCreation. rewrite Hon.
    assert (games s1 !! id = Some (ended_game now random g)) as Hlook
        by (rewrite Hgames; apply lookup_insert_eq).
    by destruct (continuousGamesEnabled s); simpl.
  - unfold bettingDuration. by intros [-> | ->].
  - intros d Hd Hne. unfold bettingDuration. rewrite Hd.
    by destruct (Z.eqb_spec d 0).
Qed.

Lemma current_closes_at_the_deadline_witness :
  let g := mkGame 1 betting 0 None false None None None None 0 in
  let s := set_games (save (1%positive, g)) demo_state in
  let run := get_current games_js 61000 (45 # 100) s in
  (61000 < startTime g + bettingDuration s → run = (json (Some (1%positive, g)), s)) ∧
  (startTime g + bettingDuration s <= 61000 →
   run.1 = json (Some (1%positive, ended_game 61000 (45 # 100) g)) ∧
   games run.2 !! 1%positive = Some (ended_game 61000 (45 # 100) g) ∧
   find_pending_bets 1 (bets run.2) = [] ∧
   gameCreationTimeout run.2 = (continuousGamesEnabled s || gameCreationTimeout s)) ∧
  (gameDuration s = None ∨ gameDuration s = Some 0 → bettingDuration s = 60000) ∧
  (∀ d, gameDuration s = Some d → d ≠ 0 → bettingDuration s = d * 1000).
Proof.
  apply (current_closes_at_the_deadline 61000 (45 # 100)
           (set_games (save (1%positive,
                             mkGame 1 betting 0 None false None None None None 0))
              demo_state)
           1%positive (mkGame 1 betting 0 None false None None None None 0));
    reflexivity.
Defined.

(** X19. The monitor opens a waiting round at its start time and, in the
    same tick, closes it when its deadline has passed as well: before the
    start time the tick changes nothing; between start time and deadline
    the round becomes betting and no wager is touched; once start time and
    deadline have both passed, one tick leaves the round completed, with an
    outcome and without pending wagers. *)
Theorem tick_opens_then_closes (now : Z) (random : Q) (s : State)
    (id : ObjectId) (g : Game) :
  continuousGamesEnabled s = true →
  findOne_active_game (games s) = Some (id, g) → status g = waiting →
  let s' := monitor_tick now random s in
  (now < startTime g → s' = s) ∧
  (startTime g <= now → now < startTime g + bettingDuration s →
   games s' =
   <[id := mkGame (gameNumber g) betting (startTime g) (endTime g) (isFixed g)
             (fixedResult g) (resultNumber g) (resultColor g) (resultSize g)
             (createdAt g)]> (games s) ∧
   bets s' = bets s ∧ wallets s' = wallets s) ∧
  (startTime g <= now → startTime g + bettingDuration s <= now →
   ∃ g', games s' !! id = Some g' ∧ status g' = completed ∧
         endTime g' = Some now ∧ is_Some (resultNumber g') ∧
         find_pending_bets id (bets s') = []).
Proof.
  intros Hon Hfind Hst s'. subst s'. unfold monitor_tick. rewrite Hon, Hfind.
  unfold maybe_open. cbn [fst snd]. rewrite decide_True by done.
  destruct (Z.leb_spec (startTime g) now) as [Hstarted | Hearly].
  2: { unfold maybe_close. cbn [fst snd]. rewrite decide_False by congruence.
       split; [done |]. split; intros; lia. }
  unfold maybe_close. cbn [fst snd status startTime]. rewrite decide_True by done.
  change (bettingDuration (console_log _ (set_games _ s))) with (bettingDuration s).
  split; [intros; lia |].
  destruct (Z.leb_spec (startTime g + bettingDuration s) now) as [Hdue | Hopen].
  - split; [intros; lia |]. intros _ _. cbn [snd].
    eexists. split; [rewrite endGame_games; apply lookup_insert_eq |].
    split; [done |]. split; [done |]. split; [by eexists |].
    match goal with
    | |- find_pending_bets _ (bets (endGameAndProcessBets ?r ?t ?q ?gm ?st)) = [] =>
        apply (endGame_no_pending r t q gm st)
    end.
  - split; [| intros; lia]. intros _ _. done.
Qed.

Lemma tick_opens_then_closes_witness :
  let g := mkGame 1 waiting 5000 None false None None None None 0 in
  let s := set_continuousGamesEnabled true
             (set_games (save (1%positive, g)) demo_state) in
  let s' := monitor_tick 70000 (45 # 100) s in
  (70000 < startTime g → s' = s) ∧
  (startTime g <= 70000 → 70000 < startTime g + bettingDuration s →
   games s' =
   <[1%positive := mkGame (gameNumber g) betting (startTime g) (endTime g) (isFixed g)
                     (fixedResult g) (resultNumber g) (resultColor g) (resultSize g)
                     (createdAt g)]> (games s) ∧
   bets s' = bets s ∧ wallets s' = wallets s) ∧
  (startTime g <= 70000 → startTime g + bettingDuration s <= 70000 →
   ∃ g', games s' !! 1%positive = Some g' ∧ status g' = completed ∧
         endTime g' = Some 70000 ∧ is_Some (resultNumber g') ∧
         find_pending_bets 1 (bets s') = []).
Proof.
  apply (tick_opens_then_closes 70000 (45 # 100)
           (set_continuousGamesEnabled true
              (set_games (save (1%positive,
                                mkGame 1 waiting 5000 None false None None None None 0))
                 demo_state))
           1%positive (mkGame 1 waiting 5000 None false None None None None 0));
    reflexivity.
Defined.

(** ** More on placing bets *)

Lemma post_bet_outcome (rev : Revision) (uid gid : ObjectId) (type value : string)
    (amt : Z) (s : State) :
  (∃ message, post_bet rev uid gid type value amt s = (error 400 message, s)) ∨
  ∃ game balance,
    games s !! gid = Some game ∧ status game = betting ∧
    ¬ already_bet uid gid s ∧ wallets s !! uid = Some balance ∧ amt <= balance ∧
    post_bet rev uid gid type value amt s =
    (json ("Bet placed successfully",
           (fresh (dom (bets s)), mkBet uid gid type value amt pending 0)),
     add_transaction
       (mkTransaction uid tx_bet (- amt)
          (bet_description rev (gameNumber game)
             (mkBet uid gid type value amt pending 0)))
       (set_wallets <[uid := balance - amt]>
          (set_bets <[fresh (dom (bets s)) := mkBet uid gid type value amt pending 0]> s))).
Proof.
  destruct (games s !! gid) as [game |] eqn:Hgame.
  2: { left. eexists. unfold post_bet. by rewrite Hgame. }
  destruct (decide (status game = betting)) as [Hst | Hst].
  2: { left. eexists. unfold post_bet. rewrite Hgame. by rewrite decide_False. }
  destruct (findOne_bet uid gid (bets s)) as [existing |] eqn:Hbet.
  { left. eexists. unfold post_bet. rewrite Hgame. rewrite decide_True by done.
    by rewrite Hbet. }
  destruct (wallets s !! uid) as [balance |] eqn:Hw.
  2: { left. eexists. unfold post_bet. rewrite Hgame. rewrite decide_True by done.
       by rewrite Hbet, Hw. }
  destruct (Z.lt_ge_cases balance amt) as [Hlt | Hge].
  { left. eexists. unfold post_bet. rewrite Hgame. rewrite decide_True by done.
    rewrite Hbet, Hw. by destruct (Z.ltb_spec balance amt); [| lia]. }
  right. exists game, balance. apply findOne_bet_None in Hbet.
  repeat split; try done.
  by apply post_bet_accepted.
Qed.

Lemma findOne_bet_Some_inv (uid gid : ObjectId) (m : gmap ObjectId Bet) d :
  findOne_bet uid gid m = Some d →
  m !! d.1 = Some d.2 ∧ userId d.2 = uid ∧ gameId d.2 = gid.
Proof.
  unfold findOne_bet. intros Hhead. apply head_Some_elem_of in Hhead.
  apply list_elem_of_filter in Hhead as [[Hu Hg] Hin]. destruct d as [id b].
  by apply elem_of_map_to_list in Hin.
Qed.

(** A wager taken from an account on a round stays in the collection,
    and so does the round. *)
Lemma request_already_bet (rev : Revision) (s s' : State) (uid gid : ObjectId) :
  request rev s s' → already_bet uid gid s → already_bet uid gid s'.
Proof.
  intros Hreq (id & b & Hb & Hu & Hg).
  destruct (request_bets rev s s' Hreq)
    as [Hev | (id' & b0 & game & Hfree & Heq & _)].
  - destruct (bets_evolve_lookup _ _ id b Hev Hb) as (b' & Hb' & Hkept & _).
    exists id, b'. split; [done |]. split; congruence.
  - exists id, b. split; [| done].
    rewrite Heq, lookup_insert_ne; [done | congruence].
Qed.

Lemma requests_already_bet (rev : Revision) (s s' : State) (uid gid : ObjectId) :
  rtc (request rev) s s' → already_bet uid gid s → already_bet uid gid s'.
Proof.
  induction 1 as [| s1 s2 s3 Hreq _ IH]; [done |].
  intros Hdup. by apply IH, (request_already_bet rev s1 s2).
Qed.

Lemma requests_games_persist (rev : Revision) (s s' : State) (id : ObjectId) :
  rtc (request rev) s s' → is_Some (games s !! id) → is_Some (games s' !! id).
Proof.
  induction 1 as [| s1 s2 s3 Hreq _ IH]; [done |].
  intros Hsome. by apply IH, (request_games_persist rev s1 s2).
Qed.

(** [/bet] from an account that has a wager on the round: the status of the
    round is tested first, then the wager is found. *)
Lemma post_bet_again (rev : Revision) (uid gid : ObjectId) (type value : string)
    (amt : Z) (s : State) (game : Game) :
  games s !! gid = Some game → already_bet uid gid s →
  post_bet rev uid gid type value amt s =
  (error 400 (if decide (status game = betting)
              then "You have already placed a bet for this game"
              else "Game is not accepting bets"), s).
Proof.
  intros Hgame Hdup. unfold post_bet. rewrite Hgame.
  destruct (decide (status game = betting)); [| done].
  destruct (findOne_bet uid gid (bets s)) as [existing |] eqn:Hbet; [done |].
  exfalso. revert Hdup. by apply findOne_bet_None.
Qed.

(** X20. A second bet is refused, at once and for good.  Once [/bet] has
    accepted a wager of an account on a round, the same request made again
    directly, whatever its category, selector and stake, is answered with
    400 "You have already placed a bet for this game" and changes nothing.
    After any further requests to the game and wallet routes and any timers
    the round and the wager are still there and a [/bet] of that account on
    that round is still answered with 400 and changes nothing; the status
    of the round is tested first, so the message is "You have already
    placed a bet for this game" while the round is open for betting and
    "Game is not accepting bets" once it is not. *)
Theorem second_bet_is_refused (rev : Revision) (uid gid : ObjectId)
    (type value type' value' : string) (amt amt' : Z) (s s2 : State)
    (placed : string * (ObjectId * Bet)) :
  (post_bet rev uid gid type value amt s).1 = json placed →
  rtc (request rev) (post_bet rev uid gid type value amt s).2 s2 →
  let s1 := (post_bet rev uid gid type value amt s).2 in
  post_bet rev uid gid type' value' amt' s1 =
  (error 400 "You have already placed a bet for this game", s1) ∧
  already_bet uid gid s2 ∧
  ∃ game,
    games s2 !! gid = Some game ∧
    post_bet rev uid gid type' value' amt' s2 =
    (error 400 (if decide (status game = betting)
                then "You have already placed a bet for this game"
                else "Game is not accepting bets"), s2).
Proof.
  intros Hplaced Hrun s1.
  destruct (post_bet_outcome rev uid gid type value amt s)
    as [[message Hpost] | (game & balance & Hgame & Hst & Hno & Hw & Hle & Hpost)].
  { rewrite Hpost in Hplaced. discriminate. }
  assert (games s1 !! gid = Some game) as Hgame1.
  { subst s1. by rewrite Hpost. }
  assert (already_bet uid gid s1) as Hdup1.
  { subst s1. rewrite Hpost. eexists _, _.
    cbn [snd bets add_transaction set_wallets set_bets].
    rewrite lookup_insert_eq. done. }
  split.
  { rewrite (post_bet_again rev uid gid type' value' amt' s1 game Hgame1 Hdup1).
    by rewrite decide_True. }
  assert (already_bet uid gid s2) as Hdup2.
  { by apply (requests_already_bet rev s1 s2). }
  split; [done |].
  destruct (requests_games_persist rev s1 s2 gid Hrun) as [game2 Hgame2];
    [by eexists |].
  exists game2. split; [done |]. by apply post_bet_again.
Qed.

Lemma second_bet_is_refused_witness :
  let s := set_wallets <[10%positive := 30]> demo_state in
  let s1 := (post_bet games_js 10 1 "size" "small" 10 s).2 in
  let s2 := (put_end games_js 1000 (1 # 2) 1 s1).2 in
  post_bet games_js 10 1 "color" "red" 1 s1 =
  (error 400 "You have already placed a bet for this game", s1) ∧
  already_bet 10 1 s2 ∧
  ∃ game,
    games s2 !! 1%positive = Some game ∧
    post_bet games_js 10 1 "color" "red" 1 s2 =
    (error 400 (if decide (status game = betting)
                then "You have already placed a bet for this game"
                else "Game is not accepting bets"), s2).
Proof.
  apply (second_bet_is_refused games_js 10 1 "size" "small" "color" "red" 10 1
           (set_wallets <[10%positive := 30]> demo_state)
           (put_end games_js 1000 (1 # 2) 1
              (post_bet games_js 10 1 "size" "small" 10
                 (set_wallets <[10%positive := 30]> demo_state)).2).2
           ("Bet placed successfully",
            (4%positive, mkBet 10 1 "size" "small" 10 pending 0))).
  - reflexivity.
  - apply rtc_once, request_game, step_end.
Defined.

(** The same account bets twice on round 1 of [demo_state]: the second bet
    is refused as a duplicate while the round is open, and as a bet on a
    round that takes none once the round is closed. *)
Example second_bet_messages :
  let s := set_wallets <[10%positive := 30]> demo_state in
  let s1 := (post_bet games_js 10 1 "size" "small" 10 s).2 in
  let s2 := (put_end games_js 1000 (1 # 2) 1 s1).2 in
  (post_bet games_js 10 1 "color" "red" 1 s1).1 =
  error 400 "You have already placed a bet for this game" ∧
  (post_bet games_js 10 1 "color" "red" 1 s2).1 =
  error 400 "Game is not accepting bets".
Proof. by vm_compute. Qed.

(** X21. An accepted bet is accounted for once: the wallet of the bettor
    goes from its balance to the balance minus the stake, which is not
    below zero; exactly one transaction is appended to the ledger, of type
    bet, for the bettor, with the amount minus the stake; every other wallet
    and every round is left as it was. *)
Theorem accepted_bet_is_accounted_once (rev : Revision) (uid gid : ObjectId)
    (type value : string) (amt : Z) (s : State)
    (placed : string * (ObjectId * Bet)) :
  (post_bet rev uid gid type value amt s).1 = json placed →
  let s' := (post_bet rev uid gid type value amt s).2 in
  ∃ balance t,
    wallets s !! uid = Some balance ∧ wallets s' !! uid = Some (balance - amt) ∧
    0 <= balance - amt ∧
    transactions s' = transactions s ++ [t] ∧
    (tx_userId t, tx_type t, tx_amount t) = (uid, tx_bet, - amt) ∧
    (∀ u, u ≠ uid → wallets s' !! u = wallets s !! u) ∧
    games s' = games s.
Proof.
  intros Hplaced s'.
  destruct (post_bet_outcome rev uid gid type value amt s)
    as [[message Hrun] | (game & balance & Hgame & Hst & Hno & Hw & Hle & Hrun)].
  { rewrite Hrun in Hplaced. discriminate. }
  subst s'. rewrite Hrun. cbn [snd]. eexists balance, _.
  cbn [wallets transactions games add_transaction set_wallets set_bets].
  split; [done |]. split; [apply lookup_insert_eq |]. split; [lia |].
  split; [reflexivity |]. split; [done |]. split; [| done].
  intros u Hne. by apply lookup_insert_ne.
Qed.

Lemma accepted_bet_is_accounted_once_witness :
  let s := set_wallets <[10%positive := 30]> demo_state in
  let s' := (post_bet monitored_js 10 1 "size" "small" 10 s).2 in
  ∃ balance t,
    wallets s !! 10%positive = Some balance ∧
    wallets s' !! 10%positive = Some (balance - 10) ∧
    0 <= balance - 10 ∧
    transactions s' = transactions s ++ [t] ∧
    (tx_userId t, tx_type t, tx_amount t) = (10%positive, tx_bet, - 10) ∧
    (∀ u, u ≠ 10%positive → wallets s' !! u = wallets s !! u) ∧
    games s' = games s.
Proof.
  apply (accepted_bet_is_accounted_once monitored_js 10 1 "size" "small" 10
           (set_wallets <[10%positive := 30]> demo_state)
           ("Bet placed successfully",
            (4%positive, mkBet 10 1 "size" "small" 10 pending 0))).
  reflexivity.
Defined.

(** X22. A placed bet is what [/current-bet] shows: when [/bet] accepts a
    wager on the round that was created last, [/current-bet] of the same
    account then returns that wager, pending and with payout 0, together
    with that round; and it shows no bet of that account to any other
    account that has none on the round. *)
Theorem current_bet_returns_the_placed_bet (rev : Revision) (uid gid : ObjectId)
    (type value : string) (amt : Z) (s : State) (g : Game)
    (placed : string * (ObjectId * Bet)) :
  findOne_latest_game (games s) = Some (gid, g) →
  (post_bet rev uid gid type value amt s).1 = json placed →
  let s' := (post_bet rev uid gid type value amt s).2 in
  get_current_bet uid s' = (Some placed.2, Some (gid, g)) ∧
  placed.2.2 = mkBet uid gid type value amt pending 0 ∧
  (∀ other, ¬ already_bet other gid s → other ≠ uid →
            get_current_bet other s' = (None, Some (gid, g))).
Proof.
  intros Hlatest Hplaced s'.
  destruct (post_bet_outcome rev uid gid type value amt s)
    as [[message Hrun] | (game & balance & Hgame & Hst & Hno & Hw & Hle & Hrun)].
  { rewrite Hrun in Hplaced. discriminate. }
  rewrite Hrun in Hplaced. cbn [fst] in Hplaced. injection Hplaced as <-.
  subst s'. rewrite Hrun. cbn [fst snd]. unfold get_current_bet.
  cbn [games bets add_transaction set_wallets set_bets]. rewrite Hlatest.
  unfold _id. cbn [fst].
  set (id := fresh (dom (bets s))).
  set (bet := mkBet uid gid type value amt pending 0).
  assert (bets s !! id = None) as Hfree by apply fresh_bet_id.
  split; [| split; [done |]].
  - f_equal.
    destruct (findOne_bet uid gid (<[id := bet]> (bets s))) as [d |] eqn:Hd.
    + apply findOne_bet_Some_inv in Hd as (Hin & Hu & Hg'). destruct d as [id' b'].
      cbn [fst snd] in *. destruct (decide (id = id')) as [<- | Hne].
      * rewrite lookup_insert_eq in Hin. by injection Hin as <-.
      * rewrite lookup_insert_ne in Hin by done. destruct Hno. by exists id', b'.
    + exfalso.
      assert (already_bet uid gid (set_bets (λ _, <[id := bet]> (bets s)) s)) as Hdup.
      { exists id, bet. cbn [bets set_bets]. by rewrite lookup_insert_eq. }
      revert Hdup. by apply findOne_bet_None.
  - intros other Hnone Hne. f_equal.
    destruct (findOne_bet other gid (<[id := bet]> (bets s))) as [d |] eqn:Hd;
      [| done].
    apply findOne_bet_Some_inv in Hd as (Hin & Hu & Hg'). destruct d as [id' b'].
    cbn [fst snd] in *. destruct (decide (id = id')) as [<- | Hne'].
    + rewrite lookup_insert_eq in Hin. injection Hin as <-. by destruct Hne.
    + rewrite lookup_insert_ne in Hin by done. destruct Hnone. by exists id', b'.
Qed.

Lemma current_bet_returns_the_placed_bet_witness :
  let s := set_wallets <[10%positive := 30]> demo_state in
  let placed := ("Bet placed successfully",
                 (4%positive, mkBet 10 1 "size" "small" 10 pending 0)) in
  let s' := (post_bet games_js 10 1 "size" "small" 10 s).2 in
  get_current_bet 10 s' = (Some placed.2, Some (1%positive, demo_game)) ∧
  placed.2.2 = mkBet 10 1 "size" "small" 10 pending 0 ∧
  (∀ other, ¬ already_bet other 1 s → other ≠ 10%positive →
            get_current_bet other s' = (None, Some (1%positive, demo_game))).
Proof.
  apply (current_bet_returns_the_placed_bet games_js 10 1 "size" "small" 10
           (set_wallets <[10%positive := 30]> demo_state) demo_game
           ("Bet placed successfully",
            (4%positive, mkBet 10 1 "size" "small" 10 pending 0)));
    reflexivity.
Defined.

(** ** The wallet routes *)

(** X23. Reading the wallet creates it once: after [GET /] of the wallet
    routes the account has a wallet with the balance that was returned; an
    existing wallet is returned as it is and nothing changes; the wallets of
    the other accounts are untouched; and a second read returns the same
    balance and changes nothing, whatever the balance of a new wallet would
    be. *)
Theorem wallet_read_creates_once (initial : Z) (uid : ObjectId) (s : State) :
  let run := get_wallet initial uid s in
  wallets run.2 !! uid = Some run.1 ∧
  (∀ balance, wallets s !! uid = Some balance → run = (balance, s)) ∧
  (wallets s !! uid = None → run.1 = initial) ∧
  (∀ u, u ≠ uid → wallets run.2 !! u = wallets s !! u) ∧
  (bets run.2, games run.2, transactions run.2) = (bets s, games s, transactions s) ∧
  (∀ initial', get_wallet initial' uid run.2 = run).
Proof.
  unfold get_wallet. destruct (wallets s !! uid) as [balance |] eqn:Hw; cbn [fst snd].
  - split; [done |]. split; [by intros ? [= ->] |]. split; [done |].
    split; [done |]. split; [done |]. intros initial'. by rewrite Hw.
  - cbn [wallets set_wallets]. rewrite lookup_insert_eq.
    split; [done |]. split; [done |]. split; [done |].
    split; [intros u Hne; by apply lookup_insert_ne |]. split; [done |].
    by intros initial'.
Qed.

(** X24. The balance route clamps at zero and needs a wallet: for an
    account with a wallet, [PUT /balance] stores [max(0, amount)], so the
    balance is never negative and is the amount itself when that is not
    negative; a following read of the wallet returns that balance; no
    transaction is written for the change.  For an account without a wallet
    the route answers 404 and creates none. *)
Theorem balance_update_clamps_at_zero (initial : Z) (uid : ObjectId) (amt : Z)
    (s : State) :
  let run := put_balance uid amt s in
  (wallets s !! uid = None → run = (error 404 "Wallet not found", s)) ∧
  (is_Some (wallets s !! uid) →
   ∃ balance,
     run.1 = json balance ∧ get_wallet initial uid run.2 = (balance, run.2) ∧
     0 <= balance ∧ (0 <= amt → balance = amt) ∧ (amt <= 0 → balance = 0) ∧
     (∀ u, u ≠ uid → wallets run.2 !! u = wallets s !! u) ∧
     transactions run.2 = transactions s).
Proof.
  unfold put_balance. destruct (wallets s !! uid) as [old |] eqn:Hw; cbn [fst snd].
  - split; [done |]. intros _. exists (Z.max 0 amt). split; [done |].
    unfold get_wallet. cbn [wallets set_wallets]. rewrite lookup_insert_eq.
    split; [done |]. split; [lia |]. split; [lia |]. split; [lia |].
    split; [intros u Hne; by apply lookup_insert_ne | done].
  - split; [done |]. by intros [? ?].
Qed.

Lemma count_results (l : list (ObjectId * Bet)) :
  (length (filter (λ d : ObjectId * Bet, result d.2 = win) l) +
   length (filter (λ d : ObjectId * Bet, result d.2 = loss) l) +
   length (filter (λ d : ObjectId * Bet, result d.2 = pending) l))%nat = length l.
Proof.
  induction l as [| d l IH]; [done |]. rewrite !filter_cons.
  destruct (result d.2) eqn:Hr.
  - rewrite (decide_False (P := pending = win)), (decide_False (P := pending = loss)),
      (decide_True (P := pending = pending)) by done. simpl. lia.
  - rewrite (decide_True (P := win = win)), (decide_False (P := win = loss)),
      (decide_False (P := win = pending)) by done. simpl. lia.
  - rewrite (decide_False (P := loss = win)), (decide_True (P := loss = loss)),
      (decide_False (P := loss = pending)) by done. simpl. lia.
Qed.

Lemma rate_bounds (w t : nat) :
  (w <= t)%nat → (0 < t)%nat →
  (0 <= inject_Z (Z.of_nat w) / inject_Z (Z.of_nat t) * 100 ∧
   inject_Z (Z.of_nat w) / inject_Z (Z.of_nat t) * 100 <= 100)%Q.
Proof.
  intros Hle Hpos.
  assert (0 < inject_Z (Z.of_nat t))%Q as Ht.
  { change 0%Q with (inject_Z 0). rewrite <- Zlt_Qlt. lia. }
  assert (0 <= inject_Z (Z.of_nat w) / inject_Z (Z.of_nat t))%Q as Hlo.
  { apply Qle_shift_div_l; [done |]. rewrite Qmult_0_l.
    change 0%Q with (inject_Z 0). rewrite <- Zle_Qle. lia. }
  assert (inject_Z (Z.of_nat w) / inject_Z (Z.of_nat t) <= 1)%Q as Hhi.
  { apply Qle_shift_div_r; [done |]. rewrite Qmult_1_l. rewrite <- Zle_Qle. lia. }
  split.
  - apply Qmult_le_0_compat; [done | discriminate].
  - change 100%Q with (1 * 100)%Q at 2. apply Qmult_le_compat_r; [done | discriminate].
Qed.

(** X25. The statistics add up: for the bets of an account, wins, losses
    and pending bets together are all its bets, so wins plus losses never
    exceed the total; the win rate is a percentage between 0 and 100, and 0
    for an account without bets; and the net profit is the total won minus
    the total wagered. *)
Theorem stats_are_consistent (uid : ObjectId) (s : State) :
  let stats := get_stats uid s in
  let found := find_user_bets uid (bets s) in
  (Stats.wins stats + Stats.losses stats +
   length (filter (λ d : ObjectId * Bet, result d.2 = pending) found))%nat
  = Stats.totalBets stats ∧
  (Stats.wins stats + Stats.losses stats <= Stats.totalBets stats)%nat ∧
  (0 <= Stats.winRate stats)%Q ∧ (Stats.winRate stats <= 100)%Q ∧
  (Stats.totalBets stats = 0%nat → Stats.winRate stats = 0%Q) ∧
  Stats.netProfit stats = Stats.totalWon stats - Stats.totalWagered stats ∧
  (∀ d, d ∈ found → bets s !! d.1 = Some d.2 ∧ userId d.2 = uid).
Proof.
  intros stats found. subst stats. unfold get_stats, Stats.of_bets. fold found.
  cbn [Stats.wins Stats.losses Stats.totalBets Stats.winRate Stats.netProfit
       Stats.totalWon Stats.totalWagered].
  pose proof (count_results found) as Hcount.
  split; [done |]. split; [lia |].
  assert (length (filter (λ d : ObjectId * Bet, result d.2 = win) found)
          <= length found)%nat as Hle by lia.
  destruct (Nat.ltb_spec 0 (length found)) as [Hpos | Hzero].
  - destruct (rate_bounds _ _ Hle Hpos) as [Hlo Hhi].
    split; [done |]. split; [done |]. split; [lia |]. split; [done |].
    intros [id b] Hin. apply list_elem_of_filter in Hin as [Hu Hin].
    by apply elem_of_map_to_list in Hin.
  - split; [done |]. split; [done |]. split; [done |]. split; [done |].
    intros [id b] Hin. apply list_elem_of_filter in Hin as [Hu Hin].
    by apply elem_of_map_to_list in Hin.
Qed.

(** ** The client *)

Lemma ceil_thousandth_nonpos (x : Z) :
  Client.Math_ceil (inject_Z x / 1000) <= 0 ↔ x <= 0.
Proof.
  unfold Client.Math_ceil.
  assert (0 < 1000)%Q as Hk by reflexivity.
  pose proof (Qle_ceiling (inject_Z x / 1000)) as Hup.
  pose proof (Qceiling_lt (inject_Z x / 1000)) as Hlow.
  split.
  - intros Hc.
    assert (inject_Z x / 1000 <= 0)%Q as Hq.
    { eapply Qle_trans; [exact Hup |]. change 0%Q with (inject_Z 0).
      by rewrite <- Zle_Qle. }
    assert (inject_Z x <= 0 * 1000)%Q as Hx.
    { apply Qmult_le_compat_r with (z := 1000%Q) in Hq; [| discriminate].
      rewrite Qmult_comm, Qmult_div_r in Hq; [| discriminate]. exact Hq. }
    rewrite Qmult_0_l in Hx. change 0%Q with (inject_Z 0) in Hx.
    by rewrite <- Zle_Qle in Hx.
  - intros Hx.
    assert (inject_Z x / 1000 <= 0)%Q as Hq.
    { apply Qle_shift_div_r; [done |]. rewrite Qmult_0_l.
      change 0%Q with (inject_Z 0). by rewrite <- Zle_Qle. }
    assert (Qceiling (inject_Z x / 1000) - 1 < 0) as Hlt.
    { rewrite Zlt_Qlt. eapply Qlt_le_trans; [exact Hlow | exact Hq]. }
    lia.
Qed.

Lemma ceil_thousandth_bound (x k : Z) :
  x <= k * 1000 → Client.Math_ceil (inject_Z x / 1000) <= k.
Proof.
  intros Hx. unfold Client.Math_ceil.
  rewrite <- (Qceiling_Z k). apply Qceiling_resp_le.
  apply Qle_shift_div_r; [reflexivity |].
  change 1000%Q with (inject_Z 1000).
  rewrite <- inject_Z_mult. by rewrite <- Zle_Qle.
Qed.

(** X26. The countdown of the client reaches zero exactly when the
    transition of the server is due: for a waiting round it is zero exactly
    from the start time on, when the scheduler opens the round; for a
    betting round it is zero exactly from 60 seconds after the start time
    on, which is the deadline of the server when the duration setting is 60
    seconds, missing or 0.  The countdown is never negative, and never above
    60 for a betting round that has started. *)
Theorem countdown_hits_zero_at_the_transition (startTime now : Z) (s : State) :
  (∃ n, Client.timeLeft waiting startTime now = Some n ∧ 0 <= n ∧
        (n = 0 ↔ startTime <= now)) ∧
  (∃ n, Client.timeLeft betting startTime now = Some n ∧ 0 <= n ∧
        (n = 0 ↔ startTime + 60000 <= now) ∧
        (startTime <= now → n <= 60) ∧
        (gameDuration s = None ∨ gameDuration s = Some 0 ∨ gameDuration s = Some 60 →
         (n = 0 ↔ startTime + bettingDuration s <= now))) ∧
  Client.timeLeft completed startTime now = None.
Proof.
  split; [| split; [| done]].
  - eexists. split; [reflexivity |]. split; [lia |].
    pose proof (ceil_thousandth_nonpos (startTime - now)) as Hc. lia.
  - eexists. split; [reflexivity |]. cbn zeta.
    pose proof (ceil_thousandth_nonpos (60000 - (now - startTime))) as Hc.
    split; [lia |]. split; [lia |]. split.
    + intros Hstarted.
      pose proof (ceil_thousandth_bound (60000 - (now - startTime)) 60) as Hb. lia.
    + intros Hd.
      assert (bettingDuration s = 60000) as ->
          by (unfold bettingDuration; by destruct Hd as [-> | [-> | ->]]).
      lia.
Qed.

Lemma fix_then_end_lookup (now : Z) (random : Q) (id : ObjectId) (v : Z)
    (s : State) (g : Game) :
  games s !! id = Some g → status g ≠ completed →
  ∃ g', games (put_end monitored_js now random id (put_fix id (Some v) s).2).2 !! id
        = Some g' ∧
        resultNumber g' = Some v ∧
        resultColor g' = Some (compute_resultColor v) ∧
        resultSize g' = Some (compute_resultSize v).
Proof.
  intros Hg Hst.
  assert ((put_fix id (Some v) s).2 =
          set_games (save (id, mkGame (gameNumber g) (status g) (startTime g)
                                 (endTime g) true (Some v) (resultNumber g)
                                 (resultColor g) (resultSize g) (createdAt g))) s)
    as ->.
  { unfold put_fix. rewrite Hg. by rewrite decide_False. }
  unfold put_end. cbn [games set_games]. unfold save, _id. cbn [fst snd].
  rewrite lookup_insert_eq. cbn [status].
  destruct (status g) eqn:Hstatus; [| | done]; cbn [snd].
  all: eexists; split; [rewrite endGame_games; unfold _id; cbn [fst snd];
                        by rewrite lookup_insert_eq |].
  all: done.
Qed.

(** X27. The preview of the admin page tells what the server will store:
    when the text of the field reads as the number [v], the page sends [v]
    to [/fix]; once the round is fixed with it and ended, the stored colour
    is green exactly when the preview showed GREEN and red exactly when it
    showed RED, and the stored size is big exactly when the preview showed
    BIG and small exactly when it showed SMALL. *)
Theorem admin_preview_matches_the_stored_result (now : Z) (random : Q)
    (id : ObjectId) (text : string) (v : Z) (s : State) (g : Game) :
  JS.parseInt text = Some v →
  games s !! id = Some g → status g ≠ completed →
  let fixed := (put_fix id (JS.parseInt text) s).2 in
  let ended := (put_end monitored_js now random id fixed).2 in
  ∃ g', games ended !! id = Some g' ∧ resultNumber g' = Some v ∧
        (Client.preview_color text = "GREEN" ∧ resultColor g' = Some "green" ∨
         Client.preview_color text = "RED" ∧ resultColor g' = Some "red") ∧
        (Client.preview_size text = "BIG" ∧ resultSize g' = Some "big" ∨
         Client.preview_size text = "SMALL" ∧ resultSize g' = Some "small").
Proof.
  intros Hparse Hg Hst fixed ended. subst ended fixed. rewrite Hparse.
  destruct (fix_then_end_lookup now random id v s g Hg Hst)
    as (g' & Hg' & Hn & Hc & Hz).
  exists g'. split; [done |]. split; [done |].
  rewrite Hc, Hz. unfold Client.preview_color, Client.preview_size.
  rewrite Hparse. unfold compute_resultColor, compute_resultSize.
  split.
  - destruct (v =? 0); [by left |]. destruct (Z.rem v 2 =? 0); [by right | by left].
  - destruct (5 <=? v); [by left | by right].
Qed.

Lemma admin_preview_matches_the_stored_result_witness :
  let open := mkGame 4 betting 0 None false None None None None 0 in
  let s := set_games (save (1%positive, open)) demo_state in
  let fixed := (put_fix 1 (JS.parseInt "8") s).2 in
  let ended := (put_end monitored_js 60000 (1 # 2) 1 fixed).2 in
  ∃ g', games ended !! 1%positive = Some g' ∧ resultNumber g' = Some 8 ∧
        (Client.preview_color "8" = "GREEN" ∧ resultColor g' = Some "green" ∨
         Client.preview_color "8" = "RED" ∧ resultColor g' = Some "red") ∧
        (Client.preview_size "8" = "BIG" ∧ resultSize g' = Some "big" ∨
         Client.preview_size "8" = "SMALL" ∧ resultSize g' = Some "small").
Proof.
  apply (admin_preview_matches_the_stored_result 60000 (1 # 2) 1%positive "8" 8
           (set_games (save (1%positive,
                             mkGame 4 betting 0 None false None None None None 0))
              demo_state)
           (mkGame 4 betting 0 None false None None None None 0));
    [reflexivity | reflexivity | discriminate].
Defined.
